(** * Verification of selected components of the Transformers fork

    A shallow embedding of the hand-written (non tensor) logic of the
    repository:

    - [GPTNeo]: [models/gpt_neo/configuration_gpt_neo.py] (configuration
      object, expansion of attention types, block-length search);
    - [LlmEngine]: [agents/llm_engine.py] (message-role normalizer and the
      stop-sequence trimming of the two engines);
    - [ObjectDetection]: [pipelines/object_detection.py];
    - [Graphormer]: [init_params] of [models/graphormer/modeling_graphormer.py];
    - [ImageFeatureExtraction]: [pipelines/image_feature_extraction.py];
    - [LayoutLM]: [tokenization_layoutlm.py].

    Python exceptions are modelled by the error monad [Result]; Python
    dictionaries by stdpp's [gmap] (by association lists where the order of
    the keys matters); Python integers by [Z], the entries of an int64
    tensor by [Z] with the wrap-around written out; Python floats by
    binary64 floats; mutable dictionaries shared between lists by a heap of objects;
    the torch gradient mode and the model parameters by explicit state. The
    tensor library, the models and the feature extractors are parameters. *)

From Stdlib Require Import ZArith Lia.
From Stdlib Require Import PrimFloat SpecFloat FloatOps.
From stdpp Require Import base option list gmap strings sets pretty.

#[local] Set Warnings "-register-all,-inexact-float,-clear-no-such-hyp".
Local Open Scope Z_scope.

(** ** Python exceptions and the error monad *)

Module Py.

Inductive exn : Type :=
  | ValueError (msg : string)
  | KeyError (key : string)
  | IndexError
  | TypeError
  | AttributeError (name : string)
  | RuntimeError (msg : string).

Inductive Result (A : Type) : Type :=
  | Ok (a : A)
  | Raise (e : exn).
Arguments Ok {A} a.
Arguments Raise {A} e.

Definition bind {A B} (m : Result A) (k : A -> Result B) : Result B :=
  match m with
  | Ok a => k a
  | Raise e => Raise e
  end.

#[export] Instance Result_ret : MRet Result := @Ok.
#[export] Instance Result_bind : MBind Result := fun A B k m => bind m k.

Definition is_Ok {A} (m : Result A) : Prop := exists a, m = Ok a.

Definition raises_ValueError {A} (m : Result A) : Prop :=
  exists msg, m = Raise (ValueError msg).

(** Plain Python values held by configuration attributes. *)
Inductive value : Type :=
  | VNone
  | VBool (b : bool)
  | VInt (z : Z)
  | VFloat (f : float)
  | VStr (s : string)
  | VList (l : list value)
  | VDict (d : list (string * value))
  | VTensor (shape : list Z) (data : list float).


(** An object's attribute dictionary ([__dict__]). *)
Abbreviation attrs := (gmap string value).

Definition setattr (self : attrs) (name : string) (v : value) : attrs :=
  <[name := v]> self.

Definition getattr (self : attrs) (name : string) : Result value :=
  match self !! name with
  | Some v => Ok v
  | None => Raise (AttributeError name)
  end.

(** [[f(x) for x in xs]] where [f] may raise. *)
Fixpoint mapM {A B} (f : A -> Result B) (xs : list A) : Result (list B) :=
  match xs with
  | [] => Ok []
  | x :: xs' => y ← f x; ys ← mapM f xs'; Ok (y :: ys)
  end.

(** [len(xs)] as a Python integer. *)
Definition len {A} (xs : list A) : Z := Z.of_nat (length xs).

(** [range(n)]: empty when [n <= 0]. *)
Definition range (n : Z) : list Z := Z.of_nat <$> seq 0 (Z.to_nat n).

End Py.
Import Py.

(** ** GPT-Neo configuration helpers ([configuration_gpt_neo.py]) *)

Module GPTNeo.

(** One-dimensional integer tensors are lists over [Z]. The operations
    that follow are those of the tensor library on unbounded integers; the
    module [Int64] below adds the conversion to 64-bit entries and the
    error paths of [torch.arange].

    [torch.arange(lo, hi)] on integers: [lo, lo+1, ..., hi-1], for
    [lo <= hi]; the error raised for [hi < lo] is that of
    [Int64.torch_arange]. *)
Definition torch_arange (lo hi : Z) : list Z :=
  (fun i => lo + Z.of_nat i) <$> seq 0 (Z.to_nat (hi - lo)).

(** [torch.remainder(a, bs)] with a scalar dividend: the result has the sign
    of the divisor, as Python's [%] and Rocq's [Z.modulo]. *)
Definition torch_remainder (a : Z) (bs : list Z) : list Z :=
  (fun b => a `mod` b) <$> bs.

(** [t == 0], elementwise. *)
Definition torch_eq_scalar (t : list Z) (c : Z) : list bool :=
  (fun r => bool_decide (r = c)) <$> t.

(** Boolean-mask indexing [t[mask]] of a one-dimensional tensor. *)
Fixpoint mask_select {A} (t : list A) (mask : list bool) : list A :=
  match t, mask with
  | x :: t', b :: mask' =>
      if b then x :: mask_select t' mask' else mask_select t' mask'
  | _, _ => []
  end.

(** [torch.max(t)]: fails on an empty tensor. *)
Definition torch_max (t : list Z) : Result Z :=
  match t with
  | [] => Raise (RuntimeError "max(): Expected reduction dim to be specified for input.numel() == 0")
  | x :: t' => Ok (foldl Z.max x t')
  end.

(** [torch.div(a, b, rounding_mode="floor")]. *)
Definition torch_div_floor (a b : Z) : Z := a `div` b.

Definition custom_get_block_length_and_num_blocks
    (seq_length window_size : Z) : Result (Z * Z) :=
  let candidates := torch_arange 1 window_size in
  let remainders := torch_remainder seq_length candidates in
  let divisor_indices := torch_eq_scalar remainders 0 in
  let divisors := mask_select candidates divisor_indices in
  largest_divisor ← torch_max divisors;
  Ok (largest_divisor, torch_div_floor seq_length largest_divisor).

(** **** The search on 64-bit tensors

    [torch.arange] with integer bounds builds a tensor of dtype int64, and
    [torch.remainder] and [torch.div] convert the Python integer
    [seq_length] to an entry of that dtype. The definitions of this module
    write the conversions and the error paths of [torch.arange] out. *)

Module Int64.

Definition int64_min : Z := - 2 ^ 63.
Definition int64_max : Z := 2 ^ 63 - 1.

(** The int64 entry an integer is stored as: two's complement
    wrap-around. *)
Definition to_int64 (z : Z) : Z := (z + 2 ^ 63) `mod` 2 ^ 64 - 2 ^ 63.

(** [torch.arange(lo, hi)] on integers: a bound that does not fit int64 is
    refused, and so is an upper bound below the lower one; [hi = lo] gives
    the empty tensor. *)
Definition torch_arange (lo hi : Z) : Result (list Z) :=
  if negb (bool_decide (int64_min <= lo <= int64_max)
           && bool_decide (int64_min <= hi <= int64_max)) then
    Raise (RuntimeError "Overflow when unpacking long")
  else if bool_decide (hi < lo) then
    Raise (RuntimeError
             "upper bound and larger bound inconsistent with step sign")
  else Ok (GPTNeo.torch_arange lo hi).

(** [torch.remainder(a, bs)] with a Python integer [a] and an int64 tensor
    [bs]. *)
Definition torch_remainder (a : Z) (bs : list Z) : list Z :=
  (fun b => to_int64 (to_int64 a `mod` b)) <$> bs.

(** [torch.div(a, b, rounding_mode="floor")] with a Python integer [a] and
    an int64 entry [b]. *)
Definition torch_div_floor (a b : Z) : Z := to_int64 (to_int64 a `div` b).

Definition custom_get_block_length_and_num_blocks
    (seq_length window_size : Z) : Result (Z * Z) :=
  candidates ← torch_arange 1 window_size;
  let remainders := torch_remainder seq_length candidates in
  let divisor_indices := torch_eq_scalar remainders 0 in
  let divisors := mask_select candidates divisor_indices in
  largest_divisor ← torch_max divisors;
  Ok (largest_divisor, torch_div_floor seq_length largest_divisor).

End Int64.

(** **** The configuration object *)

(** The named constructor arguments of [GPTNeoConfig.__init__], typed as the
    class documentation types them. *)
Record GPTNeoConfig_args : Type := {
  vocab_size : Z;
  max_position_embeddings : Z;
  hidden_size : Z;
  num_layers : Z;
  attention_types : list (list string * Z);
  num_heads : Z;
  intermediate_size : option Z;
  window_size : Z;
  activation_function : string;
  resid_dropout : float;
  embed_dropout : float;
  attention_dropout : float;
  layer_norm_epsilon : float;
  initializer_range : float;
  summary_type : string;
  summary_use_proj : bool;
  summary_activation : option string;
  summary_proj_to_labels : bool;
  summary_first_dropout : float;
  vocab_parallel_embedding : bool;
  make_vocab_size_divisible_by : Z;
  use_cache : bool;
  bos_token_id : Z;
  eos_token_id : Z;
}.

(** The default values of the signature. *)
Definition default_args : GPTNeoConfig_args := {|
  vocab_size := 50257;
  max_position_embeddings := 2048;
  hidden_size := 2048;
  num_layers := 24;
  attention_types := [(["global"; "local"], 12)];
  num_heads := 16;
  intermediate_size := None;
  window_size := 256;
  activation_function := "gelu_new";
  resid_dropout := 0.0%float;
  embed_dropout := 0.0%float;
  attention_dropout := 0.0%float;
  layer_norm_epsilon := 1e-5%float;
  initializer_range := 0.02%float;
  summary_type := "cls_index";
  summary_use_proj := true;
  summary_activation := None;
  summary_proj_to_labels := true;
  summary_first_dropout := 0.1%float;
  vocab_parallel_embedding := false;
  make_vocab_size_divisible_by := 128;
  use_cache := true;
  bos_token_id := 50256;
  eos_token_id := 50256;
|}.

Definition option_value {A} (f : A -> value) (o : option A) : value :=
  match o with
  | Some a => f a
  | None => VNone
  end.

(** The Python value [[[types, n], ...]] of an [attention_types] argument. *)
Definition attention_types_value (ats : list (list string * Z)) : value :=
  VList ((fun item => VList [VList (VStr <$> item.1); VInt item.2]) <$> ats).

(** [expand_attention_types_params]: the two nested loops, the inner one
    running over [range(item[1])]. *)
Definition expand_attention_types_params
    (attention_types : list (list string * Z)) : list string :=
  foldl (fun attentions item =>
           foldl (fun attentions _ => attentions ++ item.1)
                 attentions (range item.2))
        [] attention_types.

Definition layers_error (n_layers num_layers : Z) : exn :=
  ValueError ("Configuration for convolutional module is incorrect."
    +:+ "It is required that `len(config.attention_layers)` == `config.num_layers`"
    +:+ "but is `len(config.attention_layers) = " +:+ pretty n_layers +:+ "`,"
    +:+ "`config.num_layers = " +:+ pretty num_layers +:+ "`."
    +:+ "`config.attention_layers` is prepared using `config.attention_types`."
    +:+ "Please verify the value of `config.attention_types` argument.").

(** The assignments [self.x = x] of [__init__], in source order, starting
    from the empty attribute dictionary of a new object. *)
Definition GPTNeoConfig_own_attrs (a : GPTNeoConfig_args) : attrs :=
  let self : attrs := ∅ in
  let self := setattr self "vocab_size" (VInt (vocab_size a)) in
  let self := setattr self "max_position_embeddings" (VInt (max_position_embeddings a)) in
  let self := setattr self "hidden_size" (VInt (hidden_size a)) in
  let self := setattr self "num_layers" (VInt (num_layers a)) in
  let self := setattr self "num_heads" (VInt (num_heads a)) in
  let self := setattr self "intermediate_size" (option_value VInt (intermediate_size a)) in
  let self := setattr self "window_size" (VInt (window_size a)) in
  let self := setattr self "activation_function" (VStr (activation_function a)) in
  let self := setattr self "resid_dropout" (VFloat (resid_dropout a)) in
  let self := setattr self "embed_dropout" (VFloat (embed_dropout a)) in
  let self := setattr self "attention_dropout" (VFloat (attention_dropout a)) in
  let self := setattr self "layer_norm_epsilon" (VFloat (layer_norm_epsilon a)) in
  let self := setattr self "initializer_range" (VFloat (initializer_range a)) in
  let self := setattr self "summary_type" (VStr (summary_type a)) in
  let self := setattr self "summary_use_proj" (VBool (summary_use_proj a)) in
  let self := setattr self "summary_activation" (option_value VStr (summary_activation a)) in
  let self := setattr self "summary_first_dropout" (VFloat (summary_first_dropout a)) in
  let self := setattr self "summary_proj_to_labels" (VBool (summary_proj_to_labels a)) in
  let self := setattr self "vocab_parallel_embedding" (VBool (vocab_parallel_embedding a)) in
  let self := setattr self "make_vocab_size_divisible_by" (VInt (make_vocab_size_divisible_by a)) in
  let self := setattr self "use_cache" (VBool (use_cache a)) in
  let self := setattr self "bos_token_id" (VInt (bos_token_id a)) in
  let self := setattr self "eos_token_id" (VInt (eos_token_id a)) in
  let self := setattr self "attention_types" (attention_types_value (attention_types a)) in
  setattr self "attention_layers"
    (VList (VStr <$> expand_attention_types_params (attention_types a))).

(** [len(v) != n] for the two attribute values read back by the check. *)
Definition len_differs (layers n : value) : Result bool :=
  match layers, n with
  | VList l, VInt z => Ok (bool_decide (len l <> z))
  | _, _ => Raise TypeError
  end.

Section GPTNeoConfig.
(** [PretrainedConfig.__init__] belongs to [configuration_utils.py] and is
    not modelled: it is a parameter, receiving the object built so far, the
    two token ids and the remaining keyword arguments. *)
Variable PretrainedConfig_init :
  attrs -> Z -> Z -> gmap string value -> Result attrs.

Definition GPTNeoConfig_init
    (a : GPTNeoConfig_args) (kwargs : gmap string value) : Result attrs :=
  let self := GPTNeoConfig_own_attrs a in
  layers ← getattr self "attention_layers";
  n ← getattr self "num_layers";
  differs ← len_differs layers n;
  if (differs : bool) then
    Raise (layers_error (len (expand_attention_types_params (attention_types a)))
                        (num_layers a))
  else PretrainedConfig_init self (bos_token_id a) (eos_token_id a) kwargs.
End GPTNeoConfig.


(** A base-class initialiser that returns normally on every call. *)
Definition returns_normally
    (base_init : attrs -> Z -> Z -> gmap string value -> Result attrs) : Prop :=
  forall self bos eos kwargs, is_Ok (base_init self bos eos kwargs).

(** A concrete base-class initialiser, used to instantiate the parameter: it
    stores the two token ids and then every keyword argument whose name is
    not yet an attribute. *)
Definition simple_base_init
    (self : attrs) (bos eos : Z) (kwargs : gmap string value) : Result attrs :=
  Ok (setattr (setattr self "bos_token_id" (VInt bos)) "eos_token_id" (VInt eos)
        ∪ kwargs).

(** The types of attention written out by the claim: each entry's type list
    repeated as many times as [range(count)] has elements. *)
Definition repeated_types (item : list string * Z) : list string :=
  mjoin (replicate (Z.to_nat item.2) item.1).

Definition sum_Z (zs : list Z) : Z := foldr Z.add 0 zs.


(** What the claim says the object holds: every named argument under its own
    name, and the expansion under [attention_layers]. *)
Definition stores_arguments (a : GPTNeoConfig_args) (cfg : attrs) : Prop :=
  cfg !! "vocab_size" = Some (VInt (vocab_size a))
  /\ cfg !! "max_position_embeddings" = Some (VInt (max_position_embeddings a))
  /\ cfg !! "hidden_size" = Some (VInt (hidden_size a))
  /\ cfg !! "num_layers" = Some (VInt (num_layers a))
  /\ cfg !! "attention_types" = Some (attention_types_value (attention_types a))
  /\ cfg !! "num_heads" = Some (VInt (num_heads a))
  /\ cfg !! "intermediate_size" = Some (option_value VInt (intermediate_size a))
  /\ cfg !! "window_size" = Some (VInt (window_size a))
  /\ cfg !! "activation_function" = Some (VStr (activation_function a))
  /\ cfg !! "resid_dropout" = Some (VFloat (resid_dropout a))
  /\ cfg !! "embed_dropout" = Some (VFloat (embed_dropout a))
  /\ cfg !! "attention_dropout" = Some (VFloat (attention_dropout a))
  /\ cfg !! "layer_norm_epsilon" = Some (VFloat (layer_norm_epsilon a))
  /\ cfg !! "initializer_range" = Some (VFloat (initializer_range a))
  /\ cfg !! "summary_type" = Some (VStr (summary_type a))
  /\ cfg !! "summary_use_proj" = Some (VBool (summary_use_proj a))
  /\ cfg !! "summary_activation" = Some (option_value VStr (summary_activation a))
  /\ cfg !! "summary_proj_to_labels" = Some (VBool (summary_proj_to_labels a))
  /\ cfg !! "summary_first_dropout" = Some (VFloat (summary_first_dropout a))
  /\ cfg !! "vocab_parallel_embedding" = Some (VBool (vocab_parallel_embedding a))
  /\ cfg !! "make_vocab_size_divisible_by" = Some (VInt (make_vocab_size_divisible_by a))
  /\ cfg !! "use_cache" = Some (VBool (use_cache a))
  /\ cfg !! "bos_token_id" = Some (VInt (bos_token_id a))
  /\ cfg !! "eos_token_id" = Some (VInt (eos_token_id a))
  /\ cfg !! "attention_layers"
      = Some (VList (VStr <$> expand_attention_types_params (attention_types a))).

(** *** Properties of the block-length search *)

Lemma elem_of_torch_arange lo hi x :
  x ∈ torch_arange lo hi <-> lo <= x < hi.
Proof.
  unfold torch_arange. rewrite list_elem_of_fmap. split.
  - intros (i & -> & Hi). apply elem_of_seq in Hi. lia.
  - intros Hx. exists (Z.to_nat (x - lo)). split; [lia|].
    apply elem_of_seq. lia.
Qed.

Lemma mask_select_divisors a cs :
  mask_select cs (torch_eq_scalar (torch_remainder a cs) 0)
  = filter (fun c => a `mod` c = 0) cs.
Proof.
  induction cs as [|c cs IH]; [done|].
  cbn [torch_remainder torch_eq_scalar fmap list_fmap mask_select].
  rewrite filter_cons. fold (torch_remainder a cs).
  fold (torch_eq_scalar (torch_remainder a cs) 0). rewrite IH.
  unfold bool_decide. destruct (decide_rel eq (a `mod` c) 0);
    destruct (decide (a `mod` c = 0)); done.
Qed.

Lemma foldl_max_ge x t : x <= foldl Z.max x t.
Proof.
  revert x. induction t as [|y t IH]; intros x; simpl; [lia|].
  etransitivity; [|apply IH]. lia.
Qed.

Lemma foldl_max_upper x t y : y ∈ t -> y <= foldl Z.max x t.
Proof.
  revert x. induction t as [|z t IH]; intros x Hy; simpl.
  - by apply elem_of_nil in Hy.
  - apply elem_of_cons in Hy as [->|Hy]; [|by apply IH].
    etransitivity; [|apply foldl_max_ge]. lia.
Qed.

Lemma foldl_max_elem x t : foldl Z.max x t ∈ x :: t.
Proof.
  revert x. induction t as [|z t IH]; intros x; simpl; [set_solver|].
  specialize (IH (x `max` z)). apply elem_of_cons in IH as [Heq|IH].
  - rewrite Heq. destruct (Z.max_spec x z) as [[_ ->]|[_ ->]]; set_solver.
  - set_solver.
Qed.

Lemma torch_max_spec t m :
  torch_max t = Ok m <-> m ∈ t /\ forall y, y ∈ t -> y <= m.
Proof.
  destruct t as [|x t]; simpl; split.
  - discriminate.
  - intros [H _]. by apply elem_of_nil in H.
  - intros [= <-]. split; [apply foldl_max_elem|].
    intros y [->|Hy]%elem_of_cons; [apply foldl_max_ge|by apply foldl_max_upper].
  - intros [Hm Hub]. f_equal. apply Z.le_antisymm.
    + apply Hub, foldl_max_elem.
    + apply elem_of_cons in Hm as [->|Hm];
        [apply foldl_max_ge|by apply foldl_max_upper].
Qed.

Lemma to_int64_small z :
  Int64.int64_min <= z <= Int64.int64_max -> Int64.to_int64 z = z.
Proof.
  unfold Int64.int64_min, Int64.int64_max, Int64.to_int64. intros Hz.
  rewrite Z.mod_small; lia.
Qed.

Lemma torch_arange_int64 lo hi :
  Int64.int64_min <= lo <= hi -> hi <= Int64.int64_max ->
  Int64.torch_arange lo hi = Ok (torch_arange lo hi).
Proof.
  intros Hlo Hhi. unfold Int64.torch_arange.
  rewrite !bool_decide_true by lia. simpl.
  by rewrite bool_decide_false by lia.
Qed.

Lemma torch_remainder_int64 a bs :
  Int64.int64_min <= a <= Int64.int64_max ->
  Forall (fun b => 1 <= b <= Int64.int64_max) bs ->
  Int64.torch_remainder a bs = torch_remainder a bs.
Proof.
  intros Ha Hbs. unfold Int64.torch_remainder, torch_remainder.
  rewrite (to_int64_small a) by done.
  apply Forall_fmap_ext_1. eapply Forall_impl; [exact Hbs|].
  intros b Hb. simpl. apply to_int64_small.
  pose proof (Z.mod_pos_bound a b) as Hmod.
  unfold Int64.int64_min, Int64.int64_max in *. lia.
Qed.

Lemma torch_div_floor_int64 a b :
  Int64.int64_min <= a <= Int64.int64_max -> 1 <= b ->
  Int64.torch_div_floor a b = a `div` b.
Proof.
  intros Ha Hb. unfold Int64.torch_div_floor.
  rewrite (to_int64_small a) by done. apply to_int64_small.
  assert (a `div` b <= Z.max a 0).
  { destruct (decide (0 <= a)) as [Hpos|Hneg].
    - pose proof (Z.div_le_upper_bound a b a). nia.
    - pose proof (Z.div_lt_upper_bound a b 0). lia. }
  assert (Z.min a 0 <= a `div` b).
  { destruct (decide (0 <= a)) as [Hpos|Hneg].
    - pose proof (Z.div_pos a b). lia.
    - apply Z.div_le_lower_bound; nia. }
  unfold Int64.int64_min, Int64.int64_max in *. lia.
Qed.

(** Inside the int64 range the search on 64-bit tensors is the search on
    integers. *)
Lemma custom_get_block_length_and_num_blocks_int64 seq_length window_size :
  Int64.int64_min <= seq_length <= Int64.int64_max ->
  1 <= window_size <= Int64.int64_max ->
  Int64.custom_get_block_length_and_num_blocks seq_length window_size
  = custom_get_block_length_and_num_blocks seq_length window_size.
Proof.
  intros Hs Hw.
  unfold Int64.custom_get_block_length_and_num_blocks,
    custom_get_block_length_and_num_blocks.
  rewrite torch_arange_int64 by (unfold Int64.int64_min; lia).
  cbn [mbind Result_bind bind].
  rewrite torch_remainder_int64; [|done|].
  2:{ apply Forall_forall. intros b Hb%elem_of_torch_arange. lia. }
  rewrite mask_select_divisors.
  destruct (torch_max _) as [d|e] eqn:Hmax; [|done].
  cbn [mbind Result_bind bind].
  apply torch_max_spec in Hmax as [Hd _].
  apply list_elem_of_filter in Hd as [_ Hd%elem_of_torch_arange].
  rewrite torch_div_floor_int64 by (done || lia). done.
Qed.

Lemma custom_get_block_length_and_num_blocks_divisor seq_length window_size :
  1 <= seq_length -> 2 <= window_size ->
  exists d,
    custom_get_block_length_and_num_blocks seq_length window_size
      = Ok (d, seq_length `div` d)
    /\ 1 <= d < window_size
    /\ (d | seq_length)
    /\ (forall e, 1 <= e < window_size -> (e | seq_length) -> e <= d)
    /\ (seq_length `div` d) * d = seq_length.
Proof.
  intros Hs Hw. unfold custom_get_block_length_and_num_blocks.
  rewrite mask_select_divisors.
  set (divisors := filter _ _).
  assert (H1 : 1 ∈ divisors).
  { apply list_elem_of_filter. split; [apply Z.mod_1_r|].
    apply elem_of_torch_arange. lia. }
  destruct (torch_max divisors) as [d|e] eqn:Hmax.
  2:{ destruct divisors; [by apply elem_of_nil in H1|discriminate]. }
  apply torch_max_spec in Hmax as [Hd Hub].
  apply list_elem_of_filter in Hd as [Hmod Hd].
  apply elem_of_torch_arange in Hd.
  assert (Hdiv : (d | seq_length)) by (apply Z.mod_divide; lia).
  exists d. repeat split; try lia; try done.
  - intros e He Hediv. apply Hub, list_elem_of_filter. split.
    + apply Z.mod_divide; [lia|done].
    + apply elem_of_torch_arange. lia.
  - destruct Hdiv as [q ->]. rewrite Z.div_mul; lia.
Qed.

(** C8 (counterexample). A sequence length of [2 ^ 63] is stored as
    [- 2 ^ 63]: with [window_size = 3] the search returns the pair
    [(2, - 2 ^ 62)], whose product is not the sequence length. *)
Lemma custom_get_block_length_and_num_blocks_wraps_around :
  Int64.custom_get_block_length_and_num_blocks (2 ^ 63) 3
  = Ok (2, - 2 ^ 62)
  /\ ~ (exists d q,
          Int64.custom_get_block_length_and_num_blocks (2 ^ 63) 3 = Ok (d, q)
          /\ q * d = 2 ^ 63).
Proof.
  assert (Hrun : Int64.custom_get_block_length_and_num_blocks (2 ^ 63) 3
                 = Ok (2, - 2 ^ 62)) by (by vm_compute).
  split; [exact Hrun|].
  intros (d & q & Hdq & Hprod). rewrite Hrun in Hdq.
  injection Hdq as <- <-. lia.
Qed.

(** C8. For [1 <= seq_length < 2 ^ 63] and
    [2 <= window_size < 2 ^ 63] the search returns [(d, seq_length / d)]
    where [d] is the largest integer of [[1, window_size)] dividing
    [seq_length]; in particular it returns (a divisor exists), [d] divides
    [seq_length] and the second component times [d] is [seq_length]. *)
Theorem custom_get_block_length_and_num_blocks_largest_divisor
    (seq_length window_size : Z) :
  1 <= seq_length < 2 ^ 63 -> 2 <= window_size < 2 ^ 63 ->
  exists d,
    Int64.custom_get_block_length_and_num_blocks seq_length window_size
      = Ok (d, seq_length `div` d)
    /\ 1 <= d < window_size
    /\ (d | seq_length)
    /\ (forall e, 1 <= e < window_size -> (e | seq_length) -> e <= d)
    /\ (seq_length `div` d) * d = seq_length.
Proof.
  intros Hs Hw.
  rewrite custom_get_block_length_and_num_blocks_int64
    by (unfold Int64.int64_min, Int64.int64_max; lia).
  apply custom_get_block_length_and_num_blocks_divisor; lia.
Qed.

Lemma custom_get_block_length_and_num_blocks_witness :
  exists d,
    Int64.custom_get_block_length_and_num_blocks 12 5 = Ok (d, 12 `div` d)
    /\ 1 <= d < 5
    /\ (d | 12)
    /\ (forall e, 1 <= e < 5 -> (e | 12) -> e <= d)
    /\ (12 `div` d) * d = 12.
Proof.
  apply (custom_get_block_length_and_num_blocks_largest_divisor 12 5); lia.
Defined.

Example custom_get_block_length_and_num_blocks_12_5 :
  Int64.custom_get_block_length_and_num_blocks 12 5 = Ok (4, 3).
Proof. reflexivity. Qed.

(** *** Properties of the configuration object *)

Lemma length_range n : length (range n) = Z.to_nat n.
Proof. unfold range. by rewrite length_fmap, length_seq. Qed.

Lemma inner_loop_repeat {A B} (ts acc : list A) (l : list B) :
  foldl (fun attentions _ => attentions ++ ts) acc l
  = acc ++ mjoin (replicate (length l) ts).
Proof.
  revert acc. induction l as [|x l IH]; intros acc; simpl.
  - by rewrite app_nil_r.
  - rewrite IH. by rewrite <- app_assoc.
Qed.

Lemma outer_loop_bind acc (ats : list (list string * Z)) :
  foldl (fun attentions item =>
           foldl (fun attentions _ => attentions ++ item.1)
                 attentions (range item.2))
        acc ats
  = acc ++ (ats ≫= repeated_types).
Proof.
  revert acc. induction ats as [|item ats IH]; intros acc; simpl.
  - by rewrite app_nil_r.
  - rewrite IH, inner_loop_repeat, length_range.
    unfold repeated_types. by rewrite <- app_assoc.
Qed.

Lemma expand_attention_types_params_bind ats :
  expand_attention_types_params ats = ats ≫= repeated_types.
Proof. unfold expand_attention_types_params. by rewrite outer_loop_bind. Qed.

Lemma len_app {A} (xs ys : list A) : len (xs ++ ys) = len xs + len ys.
Proof. unfold len. rewrite length_app. lia. Qed.

Lemma len_repeated_types item :
  len (repeated_types item) = len item.1 * Z.max 0 item.2.
Proof.
  unfold repeated_types.
  replace (Z.max 0 item.2) with (Z.of_nat (Z.to_nat item.2)) by lia.
  induction (Z.to_nat item.2) as [|n IH]; simpl; [unfold len; simpl; lia|].
  rewrite len_app, IH. lia.
Qed.

Lemma len_expand_attention_types_params ats :
  len (expand_attention_types_params ats)
  = sum_Z ((fun item => len item.1 * Z.max 0 item.2) <$> ats).
Proof.
  rewrite expand_attention_types_params_bind.
  induction ats as [|item ats IH]; [done|].
  cbn [mbind list_bind fmap list_fmap sum_Z foldr].
  rewrite len_app, len_repeated_types. f_equal. apply IH.
Qed.

Lemma GPTNeoConfig_own_attrs_stores a :
  stores_arguments a (GPTNeoConfig_own_attrs a).
Proof.
  unfold stores_arguments, GPTNeoConfig_own_attrs, setattr.
  repeat split; by simplify_map_eq.
Qed.





Lemma len_fmap {A B} (f : A -> B) (l : list A) : len (f <$> l) = len l.
Proof. unfold len. by rewrite length_fmap. Qed.

(** The control flow of [__init__] after the assignments: the check raises
    exactly on a length mismatch, otherwise the base class takes over. *)
Lemma GPTNeoConfig_init_unfold base_init a kwargs :
  GPTNeoConfig_init base_init a kwargs
  = if bool_decide (len (expand_attention_types_params (attention_types a))
                    <> num_layers a)
    then Raise (layers_error
                  (len (expand_attention_types_params (attention_types a)))
                  (num_layers a))
    else base_init (GPTNeoConfig_own_attrs a)
                   (bos_token_id a) (eos_token_id a) kwargs.
Proof.
  unfold GPTNeoConfig_init, getattr.
  destruct (GPTNeoConfig_own_attrs_stores a)
    as (_ & _ & _ & Hn & H). do 20 destruct H as [_ H].
  rewrite H, Hn. cbn [mbind Result_bind bind len_differs].
  by rewrite len_fmap.
Qed.



Lemma simple_base_init_returns_normally : returns_normally simple_base_init.
Proof. intros self bos eos kwargs. by eexists. Qed.



(** C9. The expansion is the concatenation, in order, of each entry's type
    list repeated once per element of [range(count)]; its length is the sum
    of the products (number of types) x (number of repetitions);
    construction raises [ValueError] exactly when that length differs from
    [num_layers]; with the defaults the 24 layers alternate "global",
    "local" and construction succeeds. The base-class initialiser is a
    parameter assumed to return normally. *)
Theorem GPTNeoConfig_init_raises_iff_length_mismatch
    (base_init : attrs -> Z -> Z -> gmap string value -> Result attrs)
    (a : GPTNeoConfig_args) (kwargs : gmap string value) :
  returns_normally base_init ->
  expand_attention_types_params (attention_types a)
    = attention_types a ≫= repeated_types
  /\ len (expand_attention_types_params (attention_types a))
     = sum_Z ((fun item => len item.1 * Z.max 0 item.2) <$> attention_types a)
  /\ (raises_ValueError (GPTNeoConfig_init base_init a kwargs)
      <-> len (expand_attention_types_params (attention_types a))
          <> num_layers a)
  /\ len (expand_attention_types_params (attention_types default_args)) = 24
  /\ (forall i : nat, (i < 24)%nat ->
        expand_attention_types_params (attention_types default_args) !! i
        = Some (if Nat.even i then "global" else "local"))
  /\ is_Ok (GPTNeoConfig_init base_init default_args kwargs).
Proof.
  intros Hbase. split; [apply expand_attention_types_params_bind|].
  split; [apply len_expand_attention_types_params|].
  split; [|split; [reflexivity|split]].
  - rewrite GPTNeoConfig_init_unfold. case_bool_decide as Hlen.
    + split; [done|]. intros _. by eexists.
    + split; [|done]. intros [msg Hmsg].
      destruct (Hbase (GPTNeoConfig_own_attrs a) (bos_token_id a)
                  (eos_token_id a) kwargs) as [cfg Hcfg].
      congruence.
  - intros i Hi.
    do 24 (destruct i as [|i]; [reflexivity|]). lia.
  - rewrite GPTNeoConfig_init_unfold. apply Hbase.
Qed.

Lemma GPTNeoConfig_init_raises_iff_length_mismatch_witness :
  raises_ValueError
    (GPTNeoConfig_init simple_base_init
       {| vocab_size := 50257; max_position_embeddings := 2048;
          hidden_size := 2048; num_layers := 24;
          attention_types := [(["global"], 12)]; num_heads := 16;
          intermediate_size := None; window_size := 256;
          activation_function := "gelu_new"; resid_dropout := 0.0%float;
          embed_dropout := 0.0%float; attention_dropout := 0.0%float;
          layer_norm_epsilon := 1e-5%float; initializer_range := 0.02%float;
          summary_type := "cls_index"; summary_use_proj := true;
          summary_activation := None; summary_proj_to_labels := true;
          summary_first_dropout := 0.1%float;
          vocab_parallel_embedding := false;
          make_vocab_size_divisible_by := 128; use_cache := true;
          bos_token_id := 50256; eos_token_id := 50256 |} ∅)
  /\ is_Ok (GPTNeoConfig_init simple_base_init default_args ∅).
Proof.
  split.
  - apply (GPTNeoConfig_init_raises_iff_length_mismatch simple_base_init _ ∅
             simple_base_init_returns_normally).
    vm_compute. discriminate.
  - apply (GPTNeoConfig_init_raises_iff_length_mismatch simple_base_init
             default_args ∅ simple_base_init_returns_normally).
Defined.

(** *** Further properties of the block-length search and the layer types *)

(** X12. On arguments that fit int64 the block-length search returns
    exactly when [window_size >= 2], whatever the sequence length; for
    [window_size = 1] there is no candidate and the maximum of the empty
    tensor raises a [RuntimeError]; for [window_size <= 0] it is
    [torch.arange(1, window_size)] that raises a [RuntimeError]. *)
Theorem custom_get_block_length_and_num_blocks_returns_iff
    (seq_length window_size : Z) :
  - 2 ^ 63 <= seq_length < 2 ^ 63 -> - 2 ^ 63 <= window_size < 2 ^ 63 ->
  (is_Ok (Int64.custom_get_block_length_and_num_blocks seq_length window_size)
   <-> 2 <= window_size)
  /\ (window_size = 1 ->
      Int64.torch_arange 1 window_size = Ok []
      /\ exists msg,
           torch_max [] = Raise (RuntimeError msg)
           /\ Int64.custom_get_block_length_and_num_blocks
                seq_length window_size
              = Raise (RuntimeError msg))
  /\ (window_size <= 0 ->
      exists msg,
        Int64.torch_arange 1 window_size = Raise (RuntimeError msg)
        /\ Int64.custom_get_block_length_and_num_blocks seq_length window_size
           = Raise (RuntimeError msg)).
Proof.
  intros Hs Hw.
  assert (Hone : window_size = 1 ->
            Int64.torch_arange 1 window_size = Ok []
            /\ exists msg,
                 torch_max [] = Raise (RuntimeError msg)
                 /\ Int64.custom_get_block_length_and_num_blocks
                      seq_length window_size
                    = Raise (RuntimeError msg)).
  { intros ->. split; [done|]. by eexists. }
  assert (Hneg : window_size <= 0 ->
            exists msg,
              Int64.torch_arange 1 window_size = Raise (RuntimeError msg)
              /\ Int64.custom_get_block_length_and_num_blocks
                   seq_length window_size
                 = Raise (RuntimeError msg)).
  { intros Hle.
    unfold Int64.custom_get_block_length_and_num_blocks, Int64.torch_arange,
      Int64.int64_min, Int64.int64_max.
    rewrite !bool_decide_true by lia. simpl. by eexists. }
  split; [|done]. split.
  - intros [r Hr]. destruct (decide (2 <= window_size)) as [|Hsmall]; [done|].
    destruct (decide (window_size = 1)) as [H1|H1].
    + destruct (Hone H1) as (_ & msg & _ & Hmsg). by rewrite Hmsg in Hr.
    + destruct Hneg as (msg & _ & Hmsg); [lia|]. by rewrite Hmsg in Hr.
  - intros Hge. clear Hone Hneg.
    rewrite custom_get_block_length_and_num_blocks_int64
      by (unfold Int64.int64_min, Int64.int64_max; lia).
    unfold custom_get_block_length_and_num_blocks.
    rewrite mask_select_divisors.
    destruct (torch_max _) as [d|e] eqn:Hmax; [by eexists|].
    exfalso.
    assert (H1 : 1 ∈ filter (fun c => seq_length `mod` c = 0)
                        (torch_arange 1 window_size)).
    { apply list_elem_of_filter. split; [apply Z.mod_1_r|].
      apply elem_of_torch_arange. lia. }
    destruct (filter _ _); [by apply elem_of_nil in H1|discriminate].
Qed.

Lemma custom_get_block_length_and_num_blocks_returns_iff_witness :
  (is_Ok (Int64.custom_get_block_length_and_num_blocks 12 0) <-> 2 <= 0)
  /\ (0 = 1 ->
      Int64.torch_arange 1 0 = Ok []
      /\ exists msg,
           torch_max [] = Raise (RuntimeError msg)
           /\ Int64.custom_get_block_length_and_num_blocks 12 0
              = Raise (RuntimeError msg))
  /\ (0 <= 0 ->
      exists msg,
        Int64.torch_arange 1 0 = Raise (RuntimeError msg)
        /\ Int64.custom_get_block_length_and_num_blocks 12 0
           = Raise (RuntimeError msg)).
Proof.
  apply (custom_get_block_length_and_num_blocks_returns_iff 12 0); lia.
Defined.






Lemma elem_of_repeated_types x item :
  x ∈ repeated_types item <-> 0 < item.2 /\ x ∈ item.1.
Proof.
  unfold repeated_types. destruct item as [ts n]. simpl.
  split.
  - intros Hx. apply list_elem_of_join in Hx as (l & Hx & Hl).
    apply elem_of_replicate in Hl as [-> Hn]. split; [lia|done].
  - intros [Hn Hx]. apply list_elem_of_join. exists ts. split; [done|].
    apply elem_of_replicate. split; [done|lia].
Qed.

(** X15. [expand_attention_types_params] flattens: it distributes over
    concatenation of the item list, one item [(types, n)] gives [types]
    repeated [n] times (nothing for [n <= 0]), and a layer type occurs in
    the result exactly when it occurs in an item with a positive count. *)
Theorem expand_attention_types_params_flattens :
  (forall ats1 ats2,
      expand_attention_types_params (ats1 ++ ats2)
      = expand_attention_types_params ats1 ++ expand_attention_types_params ats2)
  /\ (forall ts n,
        expand_attention_types_params [(ts, n)]
        = mjoin (replicate (Z.to_nat n) ts))
  /\ (forall ats x,
        x ∈ expand_attention_types_params ats
        <-> exists ts n, (ts, n) ∈ ats /\ 0 < n /\ x ∈ ts).
Proof.
  split; [|split].
  - intros ats1 ats2. rewrite !expand_attention_types_params_bind.
    apply bind_app.
  - intros ts n. rewrite expand_attention_types_params_bind.
    cbn [mbind list_bind]. by rewrite app_nil_r.
  - intros ats x. rewrite expand_attention_types_params_bind.
    rewrite list_elem_of_bind. split.
    + intros ([ts n] & Hx%elem_of_repeated_types & Hin). by exists ts, n.
    + intros (ts & n & Hin & Hn & Hx). exists (ts, n).
      split; [by apply elem_of_repeated_types|done].
Qed.

End GPTNeo.

(** ** The agents' LLM engines ([agents/llm_engine.py]) *)

Module LlmEngine.

(** *** Python strings and slices *)

Definition newline : string := String (Ascii.ascii_of_nat 10) "".

Definition str_len (s : string) : Z := Z.of_nat (String.length s).

Fixpoint str_take (n : nat) (s : string) : string :=
  match n, s with
  | S n', String a s' => String a (str_take n' s')
  | _, _ => ""
  end.

Fixpoint str_drop (n : nat) (s : string) : string :=
  match n, s with
  | S n', String _ s' => str_drop n' s'
  | _, _ => s
  end.

(** Normalisation of a slice bound against a sequence of length [n]:
    negative bounds count from the end, everything is clamped to [0..n]. *)
Definition slice_index (n i : Z) : Z :=
  if i <? 0 then Z.max 0 (i + n) else Z.min i n.

(** [s[start:]] *)
Definition str_slice_from (s : string) (start : Z) : string :=
  str_drop (Z.to_nat (slice_index (str_len s) start)) s.

(** [s[:stop]] *)
Definition str_slice_to (s : string) (stop : Z) : string :=
  str_take (Z.to_nat (slice_index (str_len s) stop)) s.

(** *** Stop-sequence trimming of the two engines *)

(** The loop at the end of [HfApiEngine.__call__]. *)
Fixpoint HfApiEngine_remove_stop_sequences
    (response : string) (stop_sequences : list string) : string :=
  match stop_sequences with
  | [] => response
  | stop_seq :: rest =>
      let response :=
        if bool_decide (str_slice_from response (- str_len stop_seq) = stop_seq)
        then str_slice_to response (- str_len stop_seq)
        else response in
      HfApiEngine_remove_stop_sequences response rest
  end.

Fixpoint TransformersEngine_loop
    (response : string) (stop_sequences : list string) : string :=
  match stop_sequences with
  | [] => response
  | stop_seq :: rest =>
      let response :=
        if bool_decide (str_slice_from response (- str_len stop_seq) = stop_seq)
        then str_slice_to response (- str_len stop_seq)
        else response in
      TransformersEngine_loop response rest
  end.

(** The guarded loop at the end of [TransformersEngine.__call__], whose
    [stop_sequences] may be [None]. *)
Definition TransformersEngine_remove_stop_sequences
    (response : string) (stop_sequences : option (list string)) : string :=
  match stop_sequences with
  | Some stop_sequences => TransformersEngine_loop response stop_sequences
  | None => response
  end.

(** The trimming as the claim words it: [s] ends with [t] when [s = p ++ t];
    removing that one occurrence of the suffix leaves [p]. *)
Definition ends_with (s t : string) : Prop := exists p, s = p +:+ t.

Fixpoint strip_suffix (s t : string) : option string :=
  if decide (s = t) then Some ""
  else match s with
       | "" => None
       | String a s' => String a <$> strip_suffix s' t
       end.

Definition remove_suffix_once (s t : string) : string :=
  default s (strip_suffix s t).

Definition trim_stop_sequences (response : string) (stops : list string) : string :=
  foldl remove_suffix_once response stops.

(** *** The message-role normalizer *)

(** A chat message is a dictionary from strings to strings; the messages of
    a list are objects of a heap, so that a list may hold the same
    dictionary more than once and in-place updates are seen through every
    reference to it. *)
Abbreviation message := (gmap string string).
Abbreviation loc := positive.
Abbreviation heap := (gmap loc message).

(** [MessageRole.roles()] *)
Definition MessageRole_roles : list string :=
  ["user"; "assistant"; "system"; "tool-call"; "tool-response"].

(** [llama_role_conversions] *)
Definition llama_role_conversions : gmap string string :=
  {[ "tool-response" := "user" ]}.

Definition separator : string := newline +:+ "=======" +:+ newline.

(** [d[key]] *)
Definition getitem (d : message) (key : string) : Result string :=
  match d !! key with
  | Some v => Ok v
  | None => Raise (KeyError key)
  end.

(** Dereferencing: references held by a Python list are always valid, so a
    location outside the heap never arises; it reads as the empty
    dictionary. *)
Definition deref (h : heap) (x : loc) : message := h !!! x.

(** [deepcopy] of a list of dictionaries. The memo table maps every source
    object already copied to its copy, so that two references to one
    dictionary are copied to two references to one new dictionary; the
    strings inside are immutable and shared. *)
Fixpoint deepcopy_items (h : heap) (memo : gmap loc loc) (l : list loc)
    : heap * gmap loc loc * list loc :=
  match l with
  | [] => (h, memo, [])
  | x :: l' =>
      match memo !! x with
      | Some y =>
          let '(h', memo', ys) := deepcopy_items h memo l' in
          (h', memo', y :: ys)
      | None =>
          let y := fresh (dom h) in
          let '(h', memo', ys) :=
            deepcopy_items (<[y := deref h x]> h) (<[x := y]> memo) l' in
          (h', memo', y :: ys)
      end
  end.

Definition deepcopy (h : heap) (l : list loc) : heap * list loc :=
  let '(h', _, ys) := deepcopy_items h ∅ l in (h', ys).

Definition keys_error : exn :=
  ValueError "Message should contain only 'role' and 'content' keys!".

Definition role_error (role : string) : exn :=
  ValueError ("Incorrect role " +:+ role
    +:+ ", only ['user', 'assistant', 'system', 'tool-call', 'tool-response']"
    +:+ " are supported for now.").

(** One iteration of the loop of [get_clean_message_list] on the message
    object [x], with the heap and [final_message_list] as state. *)
Definition clean_step (role_conversions : gmap string string)
    (st : heap * list loc) (x : loc) : Result (heap * list loc) :=
  let '(h, final_message_list) := st in
  if bool_decide (dom (deref h x) <> ({["role"; "content"]} : gset string))
  then Raise keys_error
  else
    role ← getitem (deref h x) "role";
    if bool_decide (role ∉ MessageRole_roles) then Raise (role_error role)
    else
      let h :=
        match role_conversions !! role with
        | Some converted => <[x := <["role" := converted]> (deref h x)]> h
        | None => h
        end in
      match last final_message_list with
      | Some final =>
          message_role ← getitem (deref h x) "role";
          final_role ← getitem (deref h final) "role";
          if bool_decide (message_role = final_role) then
            final_content ← getitem (deref h final) "content";
            message_content ← getitem (deref h x) "content";
            Ok (<[final := <["content" :=
                               final_content +:+ (separator +:+ message_content)]>
                             (deref h final)]> h,
                final_message_list)
          else Ok (h, final_message_list ++ [x])
      | None => Ok (h, final_message_list ++ [x])
      end.

Fixpoint clean_loop (role_conversions : gmap string string)
    (st : heap * list loc) (l : list loc) : Result (heap * list loc) :=
  match l with
  | [] => Ok st
  | x :: l' =>
      st' ← clean_step role_conversions st x;
      clean_loop role_conversions st' l'
  end.

(** [get_clean_message_list]: returns the final heap together with the
    returned list of references. *)
Definition get_clean_message_list (h : heap) (message_list : list loc)
    (role_conversions : gmap string string) : Result (heap * list loc) :=
  let final_message_list := [] in
  let '(h, message_list) := deepcopy h message_list in
  clean_loop role_conversions (h, final_message_list) message_list.

(** The dictionaries a list of references denotes. *)
Definition read_list (h : heap) (l : list loc) : list message :=
  deref h <$> l.

(** What a caller observes: the contents of the returned list. *)
Definition returned_messages (r : Result (heap * list loc))
    : Result (list message) :=
  '(h, l) ← r; Ok (read_list h l).

(** A message with exactly the two keys. *)
Definition mk_message (role content : string) : message :=
  {[ "role" := role; "content" := content ]}.

(** **** The normalizer as the claims word it *)

Definition has_both_keys (m : message) : Prop :=
  dom m = ({["role"; "content"]} : gset string).

Definition role_of (m : message) : string := m !!! "role".
Definition content_of (m : message) : string := m !!! "content".

Definition supported (m : message) : Prop :=
  has_both_keys m /\ role_of m ∈ MessageRole_roles.

#[export] Instance supported_dec m : Decision (supported m).
Proof. unfold supported, has_both_keys. apply _. Defined.

(** The role after applying [role_conversions]. *)
Definition convert_role (conv : gmap string string) (role : string) : string :=
  default role (conv !! role).

(** The role shared by the messages of a run: that of its first message. *)
Definition run_role (conv : gmap string string) (run : list message) : string :=
  match run with
  | m :: _ => convert_role conv (role_of m)
  | [] => ""
  end.

(** Maximal runs of consecutive messages whose converted roles agree. The
    runs are collected from left to right, the latest run first: a message
    joins the latest run when its converted role is that run's role and
    opens a new run otherwise. *)
Definition extend_runs (conv : gmap string string)
    (rruns : list (list message)) (m : message) : list (list message) :=
  match rruns with
  | run :: older =>
      if decide (convert_role conv (role_of m) = run_role conv run)
      then (run ++ [m]) :: older
      else [m] :: run :: older
  | [] => [[m]]
  end.

Definition group_runs (conv : gmap string string) (ms : list message)
    : list (list message) :=
  reverse (foldl (extend_runs conv) [] ms).

(** [sep.join(cs)] *)
Fixpoint join (sep : string) (cs : list string) : string :=
  match cs with
  | [] => ""
  | [c] => c
  | c :: cs' => c +:+ (sep +:+ join sep cs')
  end.

(** The single message a run is merged into. *)
Definition merge_run (conv : gmap string string) (run : list message) : message :=
  mk_message (run_role conv run) (join separator (content_of <$> run)).

Definition merged_runs (conv : gmap string string) (ms : list message)
    : list message :=
  merge_run conv <$> group_runs conv ms.

(** No two neighbours of a list are related by [R]. *)
Definition no_adjacent {A} (R : A -> A -> Prop) (l : list A) : Prop :=
  forall l1 a b l2, l = l1 ++ a :: b :: l2 -> ~ R a b.

(** The requirements on a partition of [ms] into maximal same-role runs. *)
Record maximal_runs (conv : gmap string string)
    (ms : list message) (runs : list (list message)) : Prop := {
  runs_concat : concat runs = ms;
  runs_nonempty : Forall (fun run => run <> []) runs;
  runs_same_role :
    Forall (fun run =>
              Forall (fun m => convert_role conv (role_of m) = run_role conv run)
                     run) runs;
  runs_maximal :
    no_adjacent (fun a b => run_role conv a = run_role conv b) runs;
}.

(** The invariant of the left-to-right collection, on the reversed list. *)
Record runs_so_far (conv : gmap string string)
    (ms : list message) (rruns : list (list message)) : Prop := {
  so_far_concat : concat (reverse rruns) = ms;
  so_far_nonempty : Forall (fun run => run <> []) rruns;
  so_far_same_role :
    Forall (fun run =>
              Forall (fun m => convert_role conv (role_of m) = run_role conv run)
                     run) rruns;
  so_far_maximal :
    no_adjacent (fun a b => run_role conv a = run_role conv b) rruns;
}.

(** The heap after the optional role conversion of the object [x]. *)
Definition converted_heap (conv : gmap string string) (h : heap) (x : loc)
    (role : string) : heap :=
  match conv !! role with
  | Some converted => <[x := <["role" := converted]> (deref h x)]> h
  | None => h
  end.

(** The error raised for a message that fails validation: the key check
    comes first. *)
Definition validation_error (m : message) : exn :=
  if decide (has_both_keys m) then role_error (role_of m) else keys_error.

(** Every object of the list is allocated. *)
Definition allocated (h : heap) (l : list loc) : Prop :=
  forall x, x ∈ l -> x ∈ dom h.

(** A heap with one message object, at location 1. *)
Definition single_object_heap (role content : string) : heap :=
  {[ 1%positive := mk_message role content ]}.

(** *** Vocabulary of the further properties *)

(** Conversions that never convert a converted role again. *)
Definition stable (conv : gmap string string) : Prop :=
  forall r r', conv !! r = Some r' -> conv !! r' = None.

(** A message with both keys whose role needs no conversion. *)
Definition settled (conv : gmap string string) (m : message) : Prop :=
  has_both_keys m
  /\ conv !! role_of m = None
  /\ exists r, r ∈ MessageRole_roles /\ role_of m = convert_role conv r.


(** A heap with three message objects, at the locations 1, 2 and 3. *)
Definition three_object_heap : heap :=
  {[ 1%positive := mk_message "user" "a";
     2%positive := mk_message "tool-response" "b";
     3%positive := mk_message "assistant" "c" ]}.

(** A heap whose second object lacks the key "content" and whose third
    object has a role outside [MessageRole.roles()]. *)
Definition invalid_object_heap : heap :=
  {[ 1%positive := mk_message "user" "a";
     2%positive := {[ "role" := "user" ]};
     3%positive := mk_message "human" "c" ]}.

(** [seq[0]] *)
Definition first_item {A} (l : list A) : Result A :=
  match l with
  | x :: _ => Ok x
  | [] => Raise IndexError
  end.

(** [d[key]] on a dictionary with string keys *)
Definition dict_getitem {A} (d : gmap string A) (key : string) : Result A :=
  match d !! key with
  | Some v => Ok v
  | None => Raise (KeyError key)
  end.

(** [seq[-1]] *)
Definition last_item {A} (l : list A) : Result A :=
  match last l with
  | Some x => Ok x
  | None => Raise IndexError
  end.

(** The keyword arguments of [client.chat_completion]; [response_format] is
    passed when [grammar] is not [None] only. *)
Record chat_request (Grammar : Type) : Type := {
  request_messages : list message;
  request_stop : list string;
  request_max_tokens : Z;
  request_response_format : option Grammar;
}.
Arguments request_messages {Grammar} _.
Arguments request_stop {Grammar} _.
Arguments request_max_tokens {Grammar} _.
Arguments request_response_format {Grammar} _.

(** The arguments of the call of the text-generation pipeline; the tokenizer
    passed is the pipeline's own. *)
Record pipeline_request : Type := {
  pipeline_messages : list message;
  stop_strings : option (list string);
  max_length : Z;
}.

Section Engines.

Context {Client Grammar : Type}.

(** [client.chat_completion(...)]: the contents of the messages of the
    choices of the response, or the exception of the client. *)
Variable chat_completion :
  Client -> chat_request Grammar -> Result (list string).

(** The text-generation pipeline of a [TransformersEngine]: a list of
    dictionaries, each with the chat under "generated_text". *)
Variable pipeline :
  pipeline_request -> Result (list (gmap string (list message))).

Record HfApiEngine : Type := {
  model : string;
  client : Client;
  max_tokens : Z;
}.

(** [HfApiEngine.__call__] *)
Definition HfApiEngine_call (self : HfApiEngine) (h : heap)
    (messages : list loc) (stop_sequences : list string)
    (grammar : option Grammar) : Result string :=
  '(h, messages) ← get_clean_message_list h messages llama_role_conversions;
  response ← chat_completion (client self)
    {| request_messages := read_list h messages;
       request_stop := stop_sequences;
       request_max_tokens := max_tokens self;
       request_response_format := grammar |};
  response ← first_item response;
  Ok (HfApiEngine_remove_stop_sequences response stop_sequences).

(** [TransformersEngine.__call__] *)
Definition TransformersEngine_call (h : heap) (messages : list loc)
    (stop_sequences : option (list string)) : Result string :=
  '(h, messages) ← get_clean_message_list h messages llama_role_conversions;
  output ← pipeline
    {| pipeline_messages := read_list h messages;
       stop_strings := stop_sequences;
       max_length := 1500 |};
  first ← first_item output;
  generated_text ← dict_getitem first "generated_text";
  last_message ← last_item generated_text;
  response ← getitem last_message "content";
  Ok (TransformersEngine_remove_stop_sequences response stop_sequences).

End Engines.

(** A client that answers every request with one choice. *)
Definition sample_chat_completion (c : unit) (request : chat_request string)
    : Result (list string) :=
  Ok ["Thought: done<end_action>"].

Definition sample_pipeline (request : pipeline_request)
    : Result (list (gmap string (list message))) :=
  Ok [ {[ "generated_text" :=
            pipeline_messages request
              ++ [mk_message "assistant" "Thought: done<end_action>"] ]} ].

Definition sample_engine : HfApiEngine :=
  {| model := "meta-llama/Meta-Llama-3.1-8B-Instruct"; client := tt;
     max_tokens := 1500 |}.

(** The role of a message sent to a model is one of these. *)
Definition llama_roles : list string :=
  ["user"; "assistant"; "system"; "tool-call"].

(** *** Properties of the stop-sequence trimming *)

#[local] Arguments String.append : simpl nomatch.

Lemma str_len_app p t : str_len (p +:+ t) = str_len p + str_len t.
Proof.
  unfold str_len. induction p as [|a p IH]; simpl in *; lia.
Qed.

Lemma str_take_drop n s : str_take n s +:+ str_drop n s = s.
Proof.
  revert s. induction n as [|n IH]; intros [|a s]; simpl; try done.
  by rewrite IH.
Qed.

Lemma str_drop_app p t : str_drop (String.length p) (p +:+ t) = t.
Proof. induction p as [|a p IH]; simpl; [by destruct t|done]. Qed.

Lemma str_take_app p t : str_take (String.length p) (p +:+ t) = p.
Proof.
  induction p as [|a p IH]; simpl; [by destruct t|by rewrite IH].
Qed.

Lemma str_drop_length n s :
  (n <= String.length s)%nat ->
  String.length (str_drop n s) = (String.length s - n)%nat.
Proof.
  revert s. induction n as [|n IH]; intros [|a s] Hn; simpl in *; try lia.
  apply IH. lia.
Qed.

Lemma strip_suffix_app p t : strip_suffix (p +:+ t) t = Some p.
Proof.
  induction p as [|a p IH]; simpl.
  - destruct t; simpl; [done|by rewrite decide_True].
  - case_decide as Heq.
    + apply (f_equal str_len) in Heq.
      change (String a (p +:+ t)) with (String a p +:+ t) in Heq.
      rewrite str_len_app in Heq. unfold str_len in Heq. simpl in Heq. lia.
    + by rewrite IH.
Qed.

Lemma strip_suffix_Some s t p : strip_suffix s t = Some p <-> s = p +:+ t.
Proof.
  split; [|intros ->; apply strip_suffix_app].
  revert p. induction s as [|a s IH]; intros p; simpl.
  - case_decide; [intros [= <-]; by subst|done].
  - case_decide as Heq; [intros [= <-]; by subst|].
    destruct (strip_suffix s t) as [q|]; [|done].
    intros [= <-]. simpl. f_equal. by apply IH.
Qed.

Lemma remove_suffix_once_app p t : remove_suffix_once (p +:+ t) t = p.
Proof. unfold remove_suffix_once. by rewrite strip_suffix_app. Qed.

Lemma remove_suffix_once_other s t :
  ~ ends_with s t -> remove_suffix_once s t = s.
Proof.
  intros Hno. unfold remove_suffix_once.
  destruct (strip_suffix s t) as [p|] eqn:Hp; [|done].
  apply strip_suffix_Some in Hp. exfalso. apply Hno. by exists p.
Qed.

(** The body of both loops is the removal of one occurrence of the suffix. *)
Lemma slice_step_remove_suffix_once response stop_seq :
  (if bool_decide (str_slice_from response (- str_len stop_seq) = stop_seq)
   then str_slice_to response (- str_len stop_seq)
   else response)
  = remove_suffix_once response stop_seq.
Proof.
  unfold str_slice_from, str_slice_to, slice_index.
  destruct stop_seq as [|a t].
  - (* the empty stop sequence: [-0] is [0] *)
    change (- str_len "") with 0. change (0 <? 0) with false. cbv iota.
    replace (Z.to_nat (0 `min` str_len response)) with 0%nat
      by (unfold str_len; lia).
    assert (Hspec : remove_suffix_once response "" = response).
    { unfold remove_suffix_once.
      assert (strip_suffix response "" = Some response) as ->; [|done].
      apply strip_suffix_Some. clear. induction response; simpl; congruence. }
    rewrite Hspec. by destruct response.
  - assert (Hneg : (- str_len (String a t) <? 0) = true)
      by (apply Z.ltb_lt; unfold str_len; simpl; lia).
    rewrite Hneg.
    set (k := Z.to_nat (0 `max` (- str_len (String a t) + str_len response))).
    case_bool_decide as Heq.
    + rewrite <- (str_take_drop k response) at 2. rewrite Heq.
      by rewrite remove_suffix_once_app.
    + rewrite remove_suffix_once_other; [done|].
      intros [p ->]. apply Heq.
      assert (k = String.length p) as ->; [|apply str_drop_app].
      unfold k. rewrite str_len_app. unfold str_len. lia.
Qed.

Lemma HfApiEngine_remove_stop_sequences_trim response stops :
  HfApiEngine_remove_stop_sequences response stops
  = trim_stop_sequences response stops.
Proof.
  unfold trim_stop_sequences. revert response.
  induction stops as [|t stops IH]; intros response; [done|].
  cbn [HfApiEngine_remove_stop_sequences foldl].
  by rewrite slice_step_remove_suffix_once, IH.
Qed.

Lemma TransformersEngine_loop_trim response stops :
  TransformersEngine_loop response stops = trim_stop_sequences response stops.
Proof.
  unfold trim_stop_sequences. revert response.
  induction stops as [|t stops IH]; intros response; [done|].
  cbn [TransformersEngine_loop foldl].
  by rewrite slice_step_remove_suffix_once, IH.
Qed.

(** C10. Both engines trim with the same function of
    [(response, stop_sequences)]: one pass over the list in order, each step
    removing exactly one occurrence of the stop sequence when the current
    response ends with it and nothing otherwise; the result can still end
    with a stop sequence (a later removal exposing an earlier stop sequence,
    or a stop sequence occurring twice as a suffix). [TransformersEngine]
    alone accepts [None], and then trims nothing. *)
Theorem stop_sequence_trimming_same_in_both_engines :
  (forall response stops,
      HfApiEngine_remove_stop_sequences response stops
      = TransformersEngine_remove_stop_sequences response (Some stops))
  /\ (forall response,
        TransformersEngine_remove_stop_sequences response None = response)
  /\ (forall response stops,
        HfApiEngine_remove_stop_sequences response stops
        = foldl remove_suffix_once response stops)
  /\ (forall p t, remove_suffix_once (p +:+ t) t = p)
  /\ (forall s t, ~ ends_with s t -> remove_suffix_once s t = s)
  /\ (HfApiEngine_remove_stop_sequences "xAB" ["A"; "B"] = "xA"
      /\ ends_with "xA" "A")
  /\ (HfApiEngine_remove_stop_sequences "xAA" ["A"] = "xA"
      /\ ends_with "xA" "A").
Proof.
  split.
  { intros response stops. simpl.
    by rewrite HfApiEngine_remove_stop_sequences_trim, TransformersEngine_loop_trim. }
  split; [done|].
  split; [apply HfApiEngine_remove_stop_sequences_trim|].
  split; [apply remove_suffix_once_app|].
  split; [apply remove_suffix_once_other|].
  split; (split; [reflexivity|by exists "x"]).
Qed.

(** *** Properties of the message-role normalizer *)

(** **** Runs *)

Lemma no_adjacent_nil {A} (R : A -> A -> Prop) : no_adjacent R [].
Proof. intros [|? l1] ??? H; discriminate. Qed.

Lemma no_adjacent_singleton {A} (R : A -> A -> Prop) x : no_adjacent R [x].
Proof. intros [|? [|? l1]] ??? H; discriminate. Qed.

Lemma no_adjacent_cons {A} (R : A -> A -> Prop) x y l :
  ~ R x y -> no_adjacent R (y :: l) -> no_adjacent R (x :: y :: l).
Proof.
  intros Hxy Hl [|z l1] a b l2 Heq; simplify_eq/=; [done|].
  by eapply Hl.
Qed.

Lemma no_adjacent_tail {A} (R : A -> A -> Prop) x l :
  no_adjacent R (x :: l) -> no_adjacent R l.
Proof. intros Hl l1 a b l2 ->. by apply (Hl (x :: l1) a b l2). Qed.

Lemma no_adjacent_head {A} (R : A -> A -> Prop) x y l :
  no_adjacent R (x :: y :: l) -> ~ R x y.
Proof. intros Hl. by apply (Hl [] x y l). Qed.

Lemma no_adjacent_reverse {A} (R : A -> A -> Prop) l :
  Symmetric R -> no_adjacent R l -> no_adjacent R (reverse l).
Proof.
  intros Hsym Hl l1 a b l2 Heq.
  apply (f_equal reverse) in Heq. rewrite reverse_involutive in Heq.
  rewrite reverse_app, !reverse_cons, <- !app_assoc in Heq. simpl in Heq.
  intros HR. by apply (Hl _ _ _ _ Heq), Hsym.
Qed.

Lemma run_role_snoc conv run m :
  run <> [] -> run_role conv (run ++ [m]) = run_role conv run.
Proof. by destruct run. Qed.

Lemma extend_runs_so_far conv ms rruns m :
  runs_so_far conv ms rruns ->
  runs_so_far conv (ms ++ [m]) (extend_runs conv rruns m).
Proof.
  intros [Hc Hne Hrole Hmax]. unfold extend_runs.
  destruct rruns as [|run older].
  - simpl in Hc. subst ms. split; simpl.
    + done.
    + by repeat constructor.
    + by repeat constructor.
    + apply no_adjacent_singleton.
  - apply Forall_cons in Hne as [Hne1 Hne], Hrole as [Hrole1 Hrole].
    rewrite reverse_cons, concat_app in Hc. simpl in Hc.
    rewrite app_nil_r in Hc. subst ms.
    case_decide as Hsame; split.
    + rewrite reverse_cons, concat_app. simpl.
      by rewrite app_nil_r, app_assoc.
    + constructor; [by intros [_ [=]]%app_eq_nil|done].
    + constructor; [|done]. rewrite run_role_snoc by done.
      apply Forall_app. split; [done|]. by repeat constructor.
    + destruct older as [|run' older]; [apply no_adjacent_singleton|].
      apply no_adjacent_cons; [|by eapply no_adjacent_tail].
      simpl. rewrite run_role_snoc by done.
      apply (no_adjacent_head _ _ _ _ Hmax).
    + rewrite !reverse_cons, !concat_app. simpl.
      by rewrite !app_nil_r.
    + by repeat constructor.
    + constructor; [by repeat constructor|by constructor].
    + apply no_adjacent_cons; [simpl; done|done].
Qed.

Lemma foldl_extend_runs_so_far conv ms0 rruns ms :
  runs_so_far conv ms0 rruns ->
  runs_so_far conv (ms0 ++ ms) (foldl (extend_runs conv) rruns ms).
Proof.
  revert ms0 rruns. induction ms as [|m ms IH]; intros ms0 rruns H; simpl.
  - by rewrite app_nil_r.
  - replace (ms0 ++ m :: ms) with ((ms0 ++ [m]) ++ ms)
      by (by rewrite <- app_assoc).
    by apply IH, extend_runs_so_far.
Qed.

Lemma group_runs_maximal conv ms : maximal_runs conv ms (group_runs conv ms).
Proof.
  destruct (foldl_extend_runs_so_far conv [] [] ms) as [Hc Hne Hrole Hmax].
  { split; simpl; try done. apply no_adjacent_nil. }
  unfold group_runs. split.
  - done.
  - by apply Forall_reverse.
  - by apply Forall_reverse.
  - apply no_adjacent_reverse; [|done]. by intros ???.
Qed.

(** **** Messages and the heap *)

Lemma str_app_assoc (s t u : string) : (s +:+ t) +:+ u = s +:+ (t +:+ u).
Proof. induction s as [|a s IH]; simpl; [done|by rewrite IH]. Qed.

Lemma join_snoc sep cs c :
  cs <> [] -> join sep (cs ++ [c]) = join sep cs +:+ (sep +:+ c).
Proof.
  induction cs as [|c0 cs IH]; [done|]. intros _.
  destruct cs as [|c1 cs]; [done|].
  change (join sep ((c0 :: c1 :: cs) ++ [c]))
    with (c0 +:+ (sep +:+ join sep ((c1 :: cs) ++ [c]))).
  rewrite IH by done.
  change (join sep (c0 :: c1 :: cs))
    with (c0 +:+ (sep +:+ join sep (c1 :: cs))).
  by rewrite !str_app_assoc.
Qed.

Lemma role_of_mk_message r c : role_of (mk_message r c) = r.
Proof. unfold role_of, mk_message. by simplify_map_eq. Qed.

Lemma content_of_mk_message r c : content_of (mk_message r c) = c.
Proof.
  unfold content_of, mk_message.
  rewrite lookup_total_insert_ne by done. by rewrite lookup_total_singleton_eq.
Qed.

Lemma has_both_keys_mk_message r c : has_both_keys (mk_message r c).
Proof.
  unfold has_both_keys, mk_message.
  rewrite dom_insert_L, dom_singleton_L. set_solver.
Qed.

Lemma has_both_keys_inv m :
  has_both_keys m -> m = mk_message (role_of m) (content_of m).
Proof.
  unfold has_both_keys, role_of, content_of, mk_message. intros Hdom.
  assert (Hr : is_Some (m !! "role"))
    by (apply elem_of_dom; rewrite Hdom; set_solver).
  assert (Hc : is_Some (m !! "content"))
    by (apply elem_of_dom; rewrite Hdom; set_solver).
  destruct Hr as [r Hr], Hc as [c Hc].
  rewrite !lookup_total_alt, Hr, Hc. simpl.
  apply map_eq. intros k.
  destruct (decide (k = "role")) as [->|Hk1]; [by simplify_map_eq|].
  destruct (decide (k = "content")) as [->|Hk2]; [by simplify_map_eq|].
  rewrite lookup_insert_ne, lookup_singleton_ne by done.
  apply not_elem_of_dom. rewrite Hdom.
  rewrite elem_of_union, !elem_of_singleton. by intros [?|?].
Qed.

Lemma getitem_role r c : getitem (mk_message r c) "role" = Ok r.
Proof. unfold getitem, mk_message. by simplify_map_eq. Qed.

Lemma getitem_content r c : getitem (mk_message r c) "content" = Ok c.
Proof. unfold getitem, mk_message. by simplify_map_eq. Qed.

Lemma set_role r c r' : <["role" := r']> (mk_message r c) = mk_message r' c.
Proof. unfold mk_message. by rewrite insert_insert_eq. Qed.

Lemma set_content r c c' :
  <["content" := c']> (mk_message r c) = mk_message r c'.
Proof.
  unfold mk_message. rewrite insert_insert_ne by done.
  by rewrite insert_singleton_eq.
Qed.

Lemma deref_insert_eq (h : heap) x m : deref (<[x := m]> h) x = m.
Proof. apply lookup_total_insert_eq. Qed.

Lemma deref_insert_ne (h : heap) x z m :
  x <> z -> deref (<[x := m]> h) z = deref h z.
Proof. apply lookup_total_insert_ne. Qed.

Lemma deref_agree (h h' : heap) z : h' !! z = h !! z -> deref h' z = deref h z.
Proof. unfold deref. rewrite !lookup_total_alt. by intros ->. Qed.

Lemma read_list_agree (h h' : heap) l :
  (forall z, z ∈ l -> h' !! z = h !! z) -> read_list h' l = read_list h l.
Proof.
  intros H. unfold read_list.
  induction l as [|z l IH]; [done|]. simpl. f_equal.
  - apply deref_agree, H. set_solver.
  - apply IH. intros. apply H. set_solver.
Qed.


(** **** One iteration and the loop, on distinct objects *)

Lemma converted_heap_deref conv (h : heap) x r c :
  deref h x = mk_message r c ->
  deref (converted_heap conv h x r) x = mk_message (convert_role conv r) c.
Proof.
  intros Hx. unfold converted_heap, convert_role.
  destruct (conv !! r) as [r'|]; simpl; [|done].
  by rewrite deref_insert_eq, Hx, set_role.
Qed.

Lemma converted_heap_other conv (h : heap) x r z :
  z <> x -> converted_heap conv h x r !! z = h !! z.
Proof.
  intros Hz. unfold converted_heap.
  destruct (conv !! r); [|done]. by rewrite lookup_insert_ne.
Qed.

Lemma clean_step_unfold conv (h : heap) final x r c :
  deref h x = mk_message r c -> r ∈ MessageRole_roles ->
  clean_step conv (h, final) x
  = let h1 := converted_heap conv h x r in
    match last final with
    | Some f =>
        message_role ← getitem (deref h1 x) "role";
        final_role ← getitem (deref h1 f) "role";
        if bool_decide (message_role = final_role) then
          final_content ← getitem (deref h1 f) "content";
          message_content ← getitem (deref h1 x) "content";
          Ok (<[f := <["content" :=
                         final_content +:+ (separator +:+ message_content)]>
                       (deref h1 f)]> h1, final)
        else Ok (h1, final ++ [x])
    | None => Ok (h1, final ++ [x])
    end.
Proof.
  intros Hx Hr. unfold clean_step, converted_heap. rewrite Hx.
  rewrite bool_decide_false
    by (intros Hd; apply Hd, has_both_keys_mk_message).
  rewrite getitem_role. cbn [mbind Result_bind bind].
  rewrite bool_decide_false by (by intros Hn).
  reflexivity.
Qed.

Lemma merge_run_singleton conv r c :
  merge_run conv [mk_message r c] = mk_message (convert_role conv r) c.
Proof.
  unfold merge_run. simpl. by rewrite role_of_mk_message, content_of_mk_message.
Qed.

Lemma merge_run_snoc conv run r c :
  run <> [] ->
  merge_run conv (run ++ [mk_message r c])
  = mk_message (run_role conv run)
      (join separator (content_of <$> run) +:+ (separator +:+ c)).
Proof.
  intros Hne. unfold merge_run. rewrite run_role_snoc by done.
  rewrite fmap_app. simpl. rewrite join_snoc, content_of_mk_message; [done|].
  by destruct run.
Qed.

Lemma getitem_merge_run_role conv run :
  getitem (merge_run conv run) "role" = Ok (run_role conv run).
Proof. apply getitem_role. Qed.

Lemma getitem_merge_run_content conv run :
  getitem (merge_run conv run) "content"
  = Ok (join separator (content_of <$> run)).
Proof. apply getitem_content. Qed.

Lemma clean_step_distinct conv (h : heap) final rruns x r c :
  NoDup final -> x ∉ final ->
  deref h x = mk_message r c -> r ∈ MessageRole_roles ->
  read_list h final = reverse (merge_run conv <$> rruns) ->
  Forall (fun run => run <> []) rruns ->
  exists h' final',
    clean_step conv (h, final) x = Ok (h', final')
    /\ read_list h' final'
       = reverse (merge_run conv <$> extend_runs conv rruns (mk_message r c))
    /\ NoDup final'
    /\ (forall z, z ∈ final' -> z ∈ final \/ z = x)
    /\ (forall z, z <> x -> z ∉ final -> h' !! z = h !! z).
Proof.
  intros Hnd Hx Hm Hr Hread Hne.
  rewrite (clean_step_unfold conv h final x r c Hm Hr). cbn zeta.
  pose proof (converted_heap_deref conv h x r c Hm) as Hx1.
  pose proof (converted_heap_other conv h x r) as Hother.
  set (h1 := converted_heap conv h x r) in *.
  destruct (last final) as [f|] eqn:Hlast.
  - apply last_Some in Hlast as [final0 ->].
    apply NoDup_app in Hnd as (Hnd0 & Hf0 & _).
    assert (Hfx : f <> x) by (intros ->; apply Hx; set_solver).
    destruct rruns as [|run older].
    { unfold read_list in Hread. rewrite fmap_app in Hread. simpl in Hread.
      by apply app_eq_nil in Hread as [_ [=]]. }
    apply Forall_cons in Hne as [Hne1 Hne].
    unfold read_list in Hread. rewrite fmap_app in Hread. simpl in Hread.
    rewrite reverse_cons in Hread. apply app_inj_tail in Hread as [Hread0 Hf].
    assert (Hf1 : deref h1 f = merge_run conv run).
    { rewrite <- Hf. apply deref_agree, Hother. done. }
    rewrite Hx1, Hf1.
    rewrite getitem_role, getitem_content, getitem_merge_run_role,
      getitem_merge_run_content.
    cbn [mbind Result_bind bind].
    unfold extend_runs. rewrite role_of_mk_message.
    case_bool_decide as Hsame.
    + rewrite decide_True by done. eexists _, _. split; [done|].
      split; [|split; [|split]].
      * unfold read_list. rewrite fmap_app. simpl. rewrite reverse_cons.
        rewrite deref_insert_eq. f_equal.
        -- rewrite <- Hread0. apply (read_list_agree h). intros z Hz.
           rewrite lookup_insert_ne
             by (intros Heq; subst; eapply Hf0; [done|set_solver]).
           apply Hother. intros ->. apply Hx. set_solver.
        -- f_equal. rewrite merge_run_snoc by done.
           unfold merge_run. by rewrite set_content.
      * apply NoDup_app. split; [done|]. split; [done|]. apply NoDup_singleton.
      * intros z Hz. by left.
      * intros z Hzx Hz. rewrite lookup_insert_ne by (intros ->; apply Hz; set_solver).
        by apply Hother.
    + rewrite decide_False by done. eexists _, _. split; [done|].
      split; [|split; [|split]].
      * unfold read_list. rewrite !fmap_app. simpl. rewrite !reverse_cons.
        rewrite merge_run_singleton, Hx1, Hf1. f_equal. f_equal.
        rewrite <- Hread0. apply (read_list_agree h). intros z Hz.
        apply Hother. intros ->. apply Hx. set_solver.
      * apply NoDup_app. split; [|split; [|apply NoDup_singleton]].
        -- apply NoDup_app. split; [done|]. split; [done|apply NoDup_singleton].
        -- intros z Hz ->%list_elem_of_singleton. done.
      * intros z [Hz| ->%list_elem_of_singleton]%elem_of_app; [by left|by right].
      * intros z Hzx Hz. by apply Hother.
  - apply last_None in Hlast as ->.
    destruct rruns as [|run older].
    2:{ unfold read_list in Hread. simpl in Hread.
        rewrite reverse_cons in Hread.
        symmetry in Hread. by apply app_eq_nil in Hread as [_ [=]]. }
    eexists _, _. split; [done|]. split; [|split; [|split]].
    + simpl. unfold read_list. simpl. by rewrite merge_run_singleton, Hx1.
    + apply NoDup_singleton.
    + intros z ->%list_elem_of_singleton. by right.
    + intros z Hzx _. by apply Hother.
Qed.

Lemma supported_inv m :
  supported m ->
  m = mk_message (role_of m) (content_of m) /\ role_of m ∈ MessageRole_roles.
Proof. intros [Hk Hr]. split; [by apply has_both_keys_inv|done]. Qed.

Lemma clean_loop_distinct conv l : forall (h : heap) final rruns,
  NoDup final -> NoDup l -> (forall z, z ∈ l -> z ∉ final) ->
  Forall supported (read_list h l) ->
  read_list h final = reverse (merge_run conv <$> rruns) ->
  Forall (fun run => run <> []) rruns ->
  exists h' final',
    clean_loop conv (h, final) l = Ok (h', final')
    /\ read_list h' final'
       = reverse (merge_run conv
                    <$> foldl (extend_runs conv) rruns (read_list h l))
    /\ (forall z, z ∉ l -> z ∉ final -> h' !! z = h !! z).
Proof.
  induction l as [|x l IH]; intros h final rruns Hnd Hl Hdisj Hsup Hread Hne.
  - eexists _, _. by repeat split.
  - apply NoDup_cons in Hl as [Hxl Hl].
    unfold read_list in Hsup. simpl in Hsup.
    apply Forall_cons in Hsup as [Hx Hsup].
    apply supported_inv in Hx as [Hm Hr].
    destruct (clean_step_distinct conv h final rruns x _ _ Hnd
                ltac:(apply Hdisj; set_solver) Hm Hr Hread Hne)
      as (h1 & final1 & Hstep & Hread1 & Hnd1 & Hsub & Hframe).
    assert (Hkeep : forall z, z ∈ l -> h1 !! z = h !! z).
    { intros z Hz. apply Hframe; [intros ->; done|apply Hdisj; set_solver]. }
    destruct (IH h1 final1 (extend_runs conv rruns (mk_message (role_of (deref h x)) (content_of (deref h x)))))
      as (h2 & final2 & Hloop & Hread2 & Hframe2); try done.
    + intros z Hz [Hzf| ->]%Hsub; [|done]. apply (Hdisj z); set_solver.
    + fold (read_list h1 l). by rewrite (read_list_agree h h1 l Hkeep).
    + unfold extend_runs. destruct rruns as [|run older]; [by repeat constructor|].
      apply Forall_cons in Hne as [Hne1 Hne].
      case_decide; constructor; try done; [|by constructor].
      by intros [_ [=]]%app_eq_nil.
    + exists h2, final2. split; [|split].
      * cbn [clean_loop]. rewrite Hstep. apply Hloop.
      * rewrite Hread2. rewrite (read_list_agree h h1 l Hkeep).
        unfold read_list at 2. simpl. fold (read_list h l). by rewrite <- Hm.
      * intros z Hzl Hzf. rewrite Hframe2.
        -- apply Hframe; [intros ->; apply Hzl; set_solver|done].
        -- intros Hz. apply Hzl. set_solver.
        -- intros [Hz| ->]%Hsub; [done|]. apply Hzl. set_solver.
Qed.

(** The deep copy of a list of distinct, allocated objects. *)
Lemma deepcopy_items_distinct l : forall (h : heap) memo h' memo' ys,
  NoDup l -> (forall x, x ∈ l -> x ∈ dom h /\ memo !! x = None) ->
  deepcopy_items h memo l = (h', memo', ys) ->
  NoDup ys
  /\ (forall y, y ∈ ys -> y ∉ dom h)
  /\ (forall z, z ∈ dom h -> h' !! z = h !! z)
  /\ read_list h' ys = read_list h l.
Proof.
  induction l as [|x l IH]; intros h memo h' memo' ys Hnd Hl Hcopy.
  - simpl in Hcopy. simplify_eq.
    split; [apply NoDup_nil_2|].
    split; [intros y Hy; by apply elem_of_nil in Hy|done].
  - apply NoDup_cons in Hnd as [Hxl Hnd].
    destruct (Hl x ltac:(set_solver)) as [Hxh Hxm].
    cbn [deepcopy_items] in Hcopy. rewrite Hxm in Hcopy.
    set (y := fresh (dom h)) in *.
    assert (Hy : y ∉ dom h) by apply is_fresh.
    destruct (deepcopy_items (<[y:=deref h x]> h) (<[x:=y]> memo) l)
      as [[h1 memo1] ys1] eqn:Hrec.
    simplify_eq.
    assert (Hl1 : forall z, z ∈ l ->
              z ∈ dom (<[y:=deref h x]> h) /\ <[x:=y]> memo !! z = None).
    { intros z Hz. destruct (Hl z ltac:(set_solver)) as [Hzh Hzm]. split.
      - rewrite dom_insert_L. set_solver.
      - rewrite lookup_insert_ne; [done|]. intros ->. done. }
    destruct (IH _ _ _ _ _ Hnd Hl1 Hrec)
      as (Hnd1 & Hfresh1 & Hagree1 & Hread1).
    assert (Hyh1 : h' !! y = Some (deref h x)).
    { rewrite Hagree1; [by rewrite lookup_insert_eq|].
      rewrite dom_insert_L. set_solver. }
    repeat split.
    + apply NoDup_cons. split; [|done]. intros Hin.
      apply (Hfresh1 y Hin). rewrite dom_insert_L. set_solver.
    + intros z [->|Hz]%elem_of_cons; [done|].
      intros Hzh. apply (Hfresh1 z Hz). rewrite dom_insert_L. set_solver.
    + intros z Hz. rewrite Hagree1 by (rewrite dom_insert_L; set_solver).
      rewrite lookup_insert_ne; [done|]. intros ->. done.
    + change (read_list h' (y :: ys1)) with (deref h' y :: read_list h' ys1).
      change (read_list h (x :: l)) with (deref h x :: read_list h l).
      f_equal.
      * unfold deref at 1. by rewrite lookup_total_alt, Hyh1.
      * rewrite Hread1. apply (read_list_agree h). intros z Hz.
        rewrite lookup_insert_ne; [done|]. intros Heq.
        destruct (Hl z ltac:(set_solver)) as [Hzh _].
        apply Hy. by rewrite Heq.
Qed.

(** **** Validation errors and the frame *)

Lemma clean_step_unsupported conv (h : heap) final x :
  ~ supported (deref h x) ->
  clean_step conv (h, final) x = Raise (validation_error (deref h x)).
Proof.
  intros Hno. unfold clean_step, validation_error.
  case_bool_decide as Hdom.
  - rewrite decide_False; done.
  - rewrite decide_True by done.
    rewrite (has_both_keys_inv _ Hdom) at 1. rewrite getitem_role.
    cbn [mbind Result_bind bind].
    rewrite bool_decide_true; [done|]. intros Hr. by apply Hno.
Qed.

Lemma clean_loop_first_unsupported conv l : forall (h : heap) final rruns ms1 m ms2,
  NoDup final -> NoDup l -> (forall z, z ∈ l -> z ∉ final) ->
  read_list h l = ms1 ++ m :: ms2 ->
  Forall supported ms1 -> ~ supported m ->
  read_list h final = reverse (merge_run conv <$> rruns) ->
  Forall (fun run => run <> []) rruns ->
  clean_loop conv (h, final) l = Raise (validation_error m).
Proof.
  induction l as [|x l IH];
    intros h final rruns ms1 m ms2 Hnd Hl Hdisj Hms Hsup Hno Hread Hne.
  - by destruct ms1.
  - apply NoDup_cons in Hl as [Hxl Hl].
    change (read_list h (x :: l)) with (deref h x :: read_list h l) in Hms.
    cbn [clean_loop]. destruct ms1 as [|m1 ms1];
      simpl in Hms; injection Hms as Hxm Hms; subst.
    + by rewrite clean_step_unsupported.
    + apply Forall_cons in Hsup as [Hx Hsup].
      apply supported_inv in Hx as [Hm Hr].
      destruct (clean_step_distinct conv h final rruns x _ _ Hnd
                  ltac:(apply Hdisj; set_solver) Hm Hr Hread Hne)
        as (h1 & final1 & Hstep & Hread1 & Hnd1 & Hsub & Hframe).
      rewrite Hstep. cbn [mbind Result_bind bind].
      assert (Hkeep : forall z, z ∈ l -> h1 !! z = h !! z).
      { intros z Hz. apply Hframe; [intros ->; done|apply Hdisj; set_solver]. }
      eapply (IH h1 final1 _ ms1 m ms2); try done.
      * intros z Hz [Hzf| ->]%Hsub; [|done]. apply (Hdisj z); set_solver.
      * by rewrite (read_list_agree h h1 l Hkeep).
      * unfold extend_runs.
        destruct rruns as [|run older]; [by repeat constructor|].
        apply Forall_cons in Hne as [Hne1 Hne].
        case_decide; constructor; try done; [|by constructor].
        by intros [_ [=]]%app_eq_nil.
Qed.

Lemma first_failure {A} (P : A -> Prop) `{!forall x, Decision (P x)} (l : list A) :
  ~ Forall P l ->
  exists l1 x l2, l = l1 ++ x :: l2 /\ Forall P l1 /\ ~ P x.
Proof.
  induction l as [|a l IH]; intros Hno; [by destruct Hno|].
  destruct (decide (P a)) as [Ha|Ha].
  - destruct IH as (l1 & x & l2 & -> & Hl1 & Hx).
    { intros Hl. apply Hno. by constructor. }
    exists (a :: l1), x, l2. repeat split; [by constructor|done].
  - exists [], a, l. by repeat split.
Qed.

(** The in-place updates of one iteration touch the visited object and the
    last object of [final_message_list] only, whatever the sharing. *)
Lemma clean_step_frame conv (h h' : heap) final final' x :
  clean_step conv (h, final) x = Ok (h', final') ->
  (forall z, z <> x -> z ∉ final -> h' !! z = h !! z)
  /\ (forall z, z ∈ final' -> z ∈ final \/ z = x).
Proof.
  unfold clean_step. case_bool_decide; [done|].
  destruct (getitem (deref h x) "role") as [role|]; [|done].
  cbn [mbind Result_bind bind]. case_bool_decide; [done|].
  set (h1 := match conv !! role with Some _ => _ | None => h end).
  assert (Hother : forall z, z <> x -> h1 !! z = h !! z).
  { intros z Hz. unfold h1. destruct (conv !! role); [|done].
    by rewrite lookup_insert_ne. }
  assert (Hsnoc : forall z, z ∈ final ++ [x] -> z ∈ final \/ z = x).
  { intros z [Hz| ->%list_elem_of_singleton]%elem_of_app; [by left|by right]. }
  destruct (last final) as [f|] eqn:Hlast.
  - destruct (getitem (deref h1 x) "role") as [mr|]; [|done].
    destruct (getitem (deref h1 f) "role") as [fr|]; [|done].
    cbn [mbind Result_bind bind]. case_bool_decide.
    + destruct (getitem (deref h1 f) "content") as [fc|]; [|done].
      destruct (getitem (deref h1 x) "content") as [mc|]; [|done].
      cbn [mbind Result_bind bind]. intros [= <- <-]. split; [|by left].
      intros z Hzx Hz. rewrite lookup_insert_ne; [by apply Hother|].
      intros ->. by apply Hz, last_Some_elem_of.
    + intros [= <- <-]. split; [|done]. intros z Hzx _. by apply Hother.
  - intros [= <- <-]. split; [|done]. intros z Hzx _. by apply Hother.
Qed.

Lemma clean_loop_frame conv l : forall (h h' : heap) final final',
  clean_loop conv (h, final) l = Ok (h', final') ->
  (forall z, z ∉ l -> z ∉ final -> h' !! z = h !! z)
  /\ (forall z, z ∈ final' -> z ∈ final \/ z ∈ l).
Proof.
  induction l as [|x l IH]; intros h h' final final' Hloop.
  - simpl in Hloop. simplify_eq. split; [done|by left].
  - cbn [clean_loop] in Hloop.
    destruct (clean_step conv (h, final) x) as [[h1 final1]|] eqn:Hstep; [|done].
    cbn [mbind Result_bind bind] in Hloop.
    apply clean_step_frame in Hstep as [Hframe1 Hsub1].
    apply IH in Hloop as [Hframe2 Hsub2]. split.
    + intros z Hzl Hzf. rewrite Hframe2.
      * apply Hframe1; [intros ->; apply Hzl; set_solver|done].
      * intros Hz. apply Hzl. set_solver.
      * intros [Hz| ->]%Hsub1; [done|]. apply Hzl. set_solver.
    + intros z [[Hz| ->]%Hsub1|Hz]%Hsub2; set_solver.
Qed.

(** The deep copy allocates new objects only, whatever the sharing. *)
Lemma deepcopy_items_frame (D : gset loc) l : forall (h : heap) memo h' memo' ys,
  D ⊆ dom h -> (forall x y, memo !! x = Some y -> y ∉ D) ->
  deepcopy_items h memo l = (h', memo', ys) ->
  (forall z, z ∈ D -> h' !! z = h !! z) /\ (forall y, y ∈ ys -> y ∉ D).
Proof.
  induction l as [|x l IH]; intros h memo h' memo' ys HD Hmemo Hcopy.
  - simpl in Hcopy. simplify_eq. split; [done|].
    intros y Hy. by apply elem_of_nil in Hy.
  - cbn [deepcopy_items] in Hcopy. destruct (memo !! x) as [y|] eqn:Hx.
    + destruct (deepcopy_items h memo l) as [[h1 memo1] ys1] eqn:Hrec.
      simplify_eq. destruct (IH _ _ _ _ _ HD Hmemo Hrec) as [Hagree Hys].
      split; [done|]. intros z [->|Hz]%elem_of_cons; [by eapply Hmemo|by apply Hys].
    + set (y := fresh (dom h)) in *.
      assert (Hy : y ∉ dom h) by apply is_fresh.
      destruct (deepcopy_items (<[y:=deref h x]> h) (<[x:=y]> memo) l)
        as [[h1 memo1] ys1] eqn:Hrec.
      simplify_eq.
      assert (HD1 : D ⊆ dom (<[y:=deref h x]> h))
        by (rewrite dom_insert_L; set_solver).
      assert (Hmemo1 : forall x0 y0, <[x:=y]> memo !! x0 = Some y0 -> y0 ∉ D).
      { intros x0 y0. destruct (decide (x = x0)) as [->|Hne].
        - rewrite lookup_insert_eq. intros [= <-]. set_solver.
        - rewrite lookup_insert_ne by done. apply Hmemo. }
      destruct (IH _ _ _ _ _ HD1 Hmemo1 Hrec) as [Hagree Hys].
      split.
      * intros z Hz. rewrite Hagree by done.
        rewrite lookup_insert_ne; [done|]. intros Heq. apply Hy.
        rewrite Heq. set_solver.
      * intros z [->|Hz]%elem_of_cons; [set_solver|by apply Hys].
Qed.

(** **** The normalizer *)

Lemma deepcopy_distinct (h : heap) l h' ys :
  NoDup l -> allocated h l -> deepcopy h l = (h', ys) ->
  NoDup ys /\ read_list h' ys = read_list h l.
Proof.
  intros Hnd Hl. unfold deepcopy.
  destruct (deepcopy_items h ∅ l) as [[h1 memo1] ys1] eqn:Hcopy.
  intros [= <- <-].
  destruct (deepcopy_items_distinct l h ∅ h1 memo1 ys1 Hnd) as (? & _ & _ & ?);
    try done.
  intros x Hx. split; [by apply Hl|apply lookup_empty].
Qed.

(** Lists of distinct objects: the normalizer returns the merged runs. *)
Lemma get_clean_message_list_distinct_objects (h : heap) l conv :
  NoDup l -> allocated h l -> Forall supported (read_list h l) ->
  returned_messages (get_clean_message_list h l conv)
  = Ok (merged_runs conv (read_list h l)).
Proof.
  intros Hnd Hl Hsup. unfold get_clean_message_list.
  destruct (deepcopy h l) as [h1 ys] eqn:Hcopy.
  destruct (deepcopy_distinct h l h1 ys Hnd Hl Hcopy) as [Hndy Hready].
  destruct (clean_loop_distinct conv ys h1 [] []) as (h2 & final & -> & Hread & _);
    try done.
  - apply NoDup_nil_2.
  - intros z _ Hz. by apply elem_of_nil in Hz.
  - by rewrite Hready.
  - unfold returned_messages. cbn [mbind Result_bind bind].
    rewrite Hread, Hready. unfold merged_runs, group_runs.
    by rewrite fmap_reverse.
Qed.

(** Lists of distinct objects: the first message failing validation decides
    the error, the key check before the role check. *)
Lemma get_clean_message_list_first_unsupported (h : heap) l conv ms1 m ms2 :
  NoDup l -> allocated h l ->
  read_list h l = ms1 ++ m :: ms2 -> Forall supported ms1 -> ~ supported m ->
  get_clean_message_list h l conv = Raise (validation_error m).
Proof.
  intros Hnd Hl Hms Hsup Hno. unfold get_clean_message_list.
  destruct (deepcopy h l) as [h1 ys] eqn:Hcopy.
  destruct (deepcopy_distinct h l h1 ys Hnd Hl Hcopy) as [Hndy Hready].
  eapply (clean_loop_first_unsupported conv ys h1 [] [] ms1 m ms2); try done.
  - apply NoDup_nil_2.
  - intros z _ Hz. by apply elem_of_nil in Hz.
  - by rewrite Hready.
Qed.

Lemma validation_error_ValueError {A} m :
  raises_ValueError (@Raise A (validation_error m)).
Proof.
  unfold validation_error, raises_ValueError, role_error, keys_error.
  case_decide; by eexists.
Qed.

Lemma get_clean_message_list_distinct_raises_iff (h : heap) l conv :
  NoDup l -> allocated h l ->
  raises_ValueError (get_clean_message_list h l conv)
  <-> ~ Forall supported (read_list h l).
Proof.
  intros Hnd Hl. split.
  - intros [msg Hraise] Hsup.
    pose proof (get_clean_message_list_distinct_objects h l conv Hnd Hl Hsup) as Hok.
    by rewrite Hraise in Hok.
  - intros (ms1 & m & ms2 & Hms & Hsup & Hno)%first_failure; [|apply _].
    rewrite (get_clean_message_list_first_unsupported h l conv ms1 m ms2);
      try done.
    apply validation_error_ValueError.
Qed.

(** Whatever the sharing in the list, the objects of the caller's heap are
    left as they were and every returned reference is a new object. *)
Lemma get_clean_message_list_frame (h h' : heap) l conv final :
  get_clean_message_list h l conv = Ok (h', final) ->
  (forall z, z ∈ dom h -> h' !! z = h !! z)
  /\ (forall y, y ∈ final -> y ∉ dom h).
Proof.
  unfold get_clean_message_list, deepcopy.
  destruct (deepcopy_items h ∅ l) as [[h1 memo1] ys] eqn:Hcopy.
  intros Hloop.
  destruct (deepcopy_items_frame (dom h) l h ∅ h1 memo1 ys) as [Hagree Hys];
    try done.
  apply clean_loop_frame in Hloop as [Hframe Hsub]. split.
  - intros z Hz. rewrite Hframe; [by apply Hagree| |by intros ?%elem_of_nil].
    intros Hzy. by apply (Hys z).
  - intros y [Hy%elem_of_nil|Hy]%Hsub; [done|]. by apply Hys.
Qed.

Lemma role_of_merge_run conv run :
  role_of (merge_run conv run) = run_role conv run.
Proof. apply role_of_mk_message. Qed.

(** No two neighbours of the merged runs have the same role. *)
Lemma merged_runs_no_adjacent_role conv ms :
  no_adjacent (fun a b => role_of a = role_of b) (merged_runs conv ms).
Proof.
  intros l1 a b l2 Heq Hab. unfold merged_runs in Heq.
  apply fmap_app_inv in Heq as (r1 & r2 & Hl1 & Hr2 & Hruns).
  symmetry in Hr2.
  apply fmap_cons_inv in Hr2 as (ra & r3 & -> & Hr3 & ->).
  symmetry in Hr3.
  apply fmap_cons_inv in Hr3 as (rb & r4 & -> & Hr4 & ->).
  rewrite !role_of_merge_run in Hab.
  by apply (runs_maximal _ _ _ (group_runs_maximal conv ms) r1 ra rb r4).
Qed.

(** C1. A list holding one message object three times: the deep copy keeps
    the three references shared, so every merge appends the object's own,
    already grown, content. The returned content joins four copies of "a"
    where the run of three messages has three. *)
Theorem get_clean_message_list_repeated_object :
  let h := single_object_heap "user" "a" in
  let message_list := [1; 1; 1]%positive in
  Forall supported (read_list h message_list)
  /\ returned_messages (get_clean_message_list h message_list ∅)
     = Ok [mk_message "user" (join separator ["a"; "a"; "a"; "a"])]
  /\ merged_runs ∅ (read_list h message_list)
     = [mk_message "user" (join separator ["a"; "a"; "a"])].
Proof.
  split; [|split; reflexivity].
  repeat constructor; by vm_compute.
Qed.

(** C2. A list holding one valid message object twice, with a conversion of
    its role to a name outside [MessageRole.roles()]: the first visit
    rewrites the role of the shared copy, the second visit validates the
    rewritten role and raises, although every message of the input has both
    keys and a supported role. *)
Theorem get_clean_message_list_raises_on_converted_role :
  let h := single_object_heap "user" "a" in
  let message_list := [1; 1]%positive in
  Forall supported (read_list h message_list)
  /\ get_clean_message_list h message_list {[ "user" := "human" ]}
     = Raise (role_error "human").
Proof.
  split; [|reflexivity].
  repeat constructor; by vm_compute.
Qed.

(** *** Further properties of the normalizer and the engines *)

Lemma no_adjacent_fmap {A B} (f : A -> B) (R : B -> B -> Prop) (l : list A) :
  no_adjacent (fun a b => R (f a) (f b)) l <-> no_adjacent R (f <$> l).
Proof.
  split.
  - intros Hl l1 a b l2 Heq.
    apply fmap_app_inv in Heq as (k1 & k2 & -> & Hk2 & ->).
    symmetry in Hk2. apply fmap_cons_inv in Hk2 as (a' & k3 & -> & Hk3 & ->).
    symmetry in Hk3. apply fmap_cons_inv in Hk3 as (b' & k4 & -> & _ & ->).
    by apply (Hl k1 a' b' k4).
  - intros Hl l1 a b l2 ->. apply (Hl (f <$> l1) (f a) (f b) (f <$> l2)).
    by rewrite fmap_app.
Qed.

Lemma no_adjacent_snoc {A} (R : A -> A -> Prop) (l : list A) a b :
  no_adjacent R (l ++ [a]) -> ~ R a b -> no_adjacent R ((l ++ [a]) ++ [b]).
Proof.
  intros Hl Hab l1 c d l2 Heq.
  destruct l2 as [|e l2 _] using rev_ind.
  - replace (l1 ++ [c; d]) with ((l1 ++ [c]) ++ [d]) in Heq
      by (by rewrite <- app_assoc).
    apply app_inj_tail in Heq as [Heq ->].
    apply app_inj_tail in Heq as [_ ->]. done.
  - change (l1 ++ c :: d :: l2 ++ [e]) with (l1 ++ (c :: d :: l2) ++ [e]) in Heq.
    rewrite app_assoc in Heq. apply app_inj_tail in Heq as [Heq _].
    by apply (Hl l1 c d l2).
Qed.

Lemma settled_inv conv m :
  settled conv m ->
  m = mk_message (role_of m) (content_of m) /\ conv !! role_of m = None.
Proof. intros (Hk & Hc & _). split; [by apply has_both_keys_inv|done]. Qed.

Lemma settled_mk_message conv r c :
  conv !! r = None ->
  (exists r0, r0 ∈ MessageRole_roles /\ r = convert_role conv r0) ->
  settled conv (mk_message r c).
Proof.
  intros Hr Hex. split; [apply has_both_keys_mk_message|].
  by rewrite role_of_mk_message.
Qed.

Lemma convert_role_stable conv r :
  stable conv -> conv !! convert_role conv r = None.
Proof.
  intros Hst. unfold convert_role.
  destruct (conv !! r) as [r'|] eqn:Hr; simpl; [by eapply Hst|done].
Qed.

Lemma clean_step_settled conv (h h' : heap) final final' x :
  stable conv ->
  Forall (settled conv) (read_list h final) ->
  no_adjacent (fun a b => role_of a = role_of b) (read_list h final) ->
  clean_step conv (h, final) x = Ok (h', final') ->
  Forall (settled conv) (read_list h' final')
  /\ no_adjacent (fun a b => role_of a = role_of b) (read_list h' final').
Proof.
  intros Hst Hset Hadj Hstep.
  assert (Hkeys : has_both_keys (deref h x)).
  { unfold clean_step in Hstep. by case_bool_decide. }
  apply has_both_keys_inv in Hkeys as Hm.
  set (r := role_of (deref h x)) in *. set (c := content_of (deref h x)) in *.
  assert (Hr : r ∈ MessageRole_roles).
  { unfold clean_step in Hstep. case_bool_decide; [done|].
    rewrite Hm, getitem_role in Hstep. cbn [mbind Result_bind bind] in Hstep.
    by case_bool_decide. }
  rewrite (clean_step_unfold conv h final x r c Hm Hr) in Hstep. cbn zeta in Hstep.
  pose proof (converted_heap_deref conv h x r c Hm) as Hx1.
  pose proof (converted_heap_other conv h x r) as Hother.
  assert (Hsame : read_list (converted_heap conv h x r) final = read_list h final).
  { destruct (decide (x ∈ final)) as [Hin|Hin].
    - assert (conv !! r = None) as Hnone.
      { rewrite Forall_forall in Hset.
        destruct (Hset (deref h x)) as (_ & Hc & _); [|done].
        unfold read_list. apply list_elem_of_fmap. by exists x. }
      unfold converted_heap. by rewrite Hnone.
    - apply read_list_agree. intros z Hz. apply Hother. by intros ->. }
  set (h1 := converted_heap conv h x r) in *.
  assert (Hx1set : settled conv (deref h1 x)).
  { rewrite Hx1. apply settled_mk_message; [by apply convert_role_stable|].
    by exists r. }
  destruct (last final) as [f|] eqn:Hlast.
  - apply last_Some in Hlast as [final0 ->].
    assert (Hf : settled conv (deref h1 f)).
    { rewrite Forall_forall in Hset. apply Hset. rewrite <- Hsame.
      unfold read_list. apply list_elem_of_fmap. exists f. split; [done|set_solver]. }
    pose proof Hf as (_ & _ & Hfrom).
    apply settled_inv in Hf as [Hfm Hfc].
    set (fr := role_of (deref h1 f)) in *. set (fc := content_of (deref h1 f)) in *.
    rewrite Hx1 in Hstep. rewrite Hfm in Hstep.
    rewrite !getitem_role, !getitem_content in Hstep.
    cbn [mbind Result_bind bind] in Hstep.
    case_bool_decide as Hsame_role; injection Hstep as <- <-.
    + rewrite set_content.
      set (new := mk_message fr (fc +:+ separator +:+ c)).
      assert (Hroles : forall z, role_of (deref (<[f:=new]> h1) z) = role_of (deref h1 z)
                                 /\ (settled conv (deref h1 z) ->
                                     settled conv (deref (<[f:=new]> h1) z))).
      { intros z. destruct (decide (f = z)) as [->|Hne].
        - rewrite deref_insert_eq. unfold new. rewrite role_of_mk_message.
          split; [done|]. intros _. by apply settled_mk_message.
        - by rewrite deref_insert_ne. }
      split.
      * rewrite <- Hsame in Hset. unfold read_list in *.
        rewrite Forall_fmap in *. eapply Forall_impl; [done|].
        intros z Hz. by apply Hroles.
      * rewrite <- Hsame in Hadj. apply (no_adjacent_fmap role_of eq).
        apply (no_adjacent_fmap role_of eq) in Hadj.
        replace (role_of <$> read_list (<[f:=new]> h1) (final0 ++ [f]))
          with (role_of <$> read_list h1 (final0 ++ [f])); [done|].
        unfold read_list. rewrite <- !list_fmap_compose.
        apply list_fmap_ext. intros _ z _. simpl. symmetry. apply Hroles.
    + split.
      * unfold read_list. rewrite fmap_app. apply Forall_app. split.
        -- fold (read_list h1 (final0 ++ [f])). by rewrite Hsame.
        -- simpl. by apply Forall_singleton.
      * unfold read_list. rewrite (fmap_app _ (final0 ++ [f])).
        rewrite fmap_app. simpl. apply no_adjacent_snoc.
        -- rewrite <- Hsame in Hadj. unfold read_list in Hadj.
           by rewrite fmap_app in Hadj.
        -- rewrite Hx1, role_of_mk_message. fold fr. congruence.
  - injection Hstep as <- <-. apply last_None in Hlast as ->. split.
    + simpl. by apply Forall_singleton.
    + apply no_adjacent_singleton.
Qed.

Lemma clean_loop_settled conv l : forall (h h' : heap) final final',
  stable conv ->
  Forall (settled conv) (read_list h final) ->
  no_adjacent (fun a b => role_of a = role_of b) (read_list h final) ->
  clean_loop conv (h, final) l = Ok (h', final') ->
  Forall (settled conv) (read_list h' final')
  /\ no_adjacent (fun a b => role_of a = role_of b) (read_list h' final').
Proof.
  induction l as [|x l IH]; intros h h' final final' Hst Hset Hadj Hloop.
  - simpl in Hloop. by simplify_eq.
  - cbn [clean_loop] in Hloop.
    destruct (clean_step conv (h, final) x) as [[h1 final1]|] eqn:Hstep; [|done].
    cbn [mbind Result_bind bind] in Hloop.
    destruct (clean_step_settled _ _ _ _ _ _ Hst Hset Hadj Hstep) as [Hset1 Hadj1].
    by eapply IH.
Qed.

Lemma stable_llama_role_conversions : stable llama_role_conversions.
Proof.
  intros r r' Hr. unfold llama_role_conversions in *.
  apply lookup_singleton_Some in Hr as [_ <-]. by apply lookup_singleton_ne.
Qed.

Lemma settled_llama m :
  settled llama_role_conversions m ->
  has_both_keys m /\ role_of m ∈ llama_roles.
Proof.
  intros (Hk & _ & r & Hr & ->). split; [done|].
  unfold MessageRole_roles in Hr.
  repeat (apply elem_of_cons in Hr as [->|Hr]; [by vm_compute; set_solver|]).
  by apply elem_of_nil in Hr.
Qed.

Lemma get_clean_message_list_settled (h h' : heap) l conv final :
  stable conv ->
  get_clean_message_list h l conv = Ok (h', final) ->
  Forall (settled conv) (read_list h' final)
  /\ no_adjacent (fun a b => role_of a = role_of b) (read_list h' final).
Proof.
  intros Hst. unfold get_clean_message_list.
  destruct (deepcopy h l) as [h1 ys]. intros Hloop.
  apply (clean_loop_settled conv ys h1 h' [] final Hst); [done| |done].
  apply no_adjacent_nil.
Qed.

Ltac solve_allocated :=
  unfold allocated; apply Forall_forall;
  repeat (apply Forall_cons; split;
          [apply elem_of_dom; eexists; vm_compute; reflexivity|]);
  apply Forall_nil_2.

Ltac solve_NoDup := apply (bool_decide_unpack _); by vm_compute.

(** X1. On a list of distinct, supported message objects the normalizer
    returns one message per maximal run of messages with the same converted
    role: the runs partition the input in order, none is empty, every
    message of a run has the run's role after conversion, neighbouring runs
    differ in role, and so do neighbouring returned messages. *)
Theorem get_clean_message_list_merges_maximal_runs (h : heap) l conv :
  NoDup l -> allocated h l -> Forall supported (read_list h l) ->
  exists runs,
    maximal_runs conv (read_list h l) runs
    /\ returned_messages (get_clean_message_list h l conv)
       = Ok (merge_run conv <$> runs)
    /\ no_adjacent (fun a b => role_of a = role_of b) (merge_run conv <$> runs).
Proof.
  intros Hnd Hl Hsup. exists (group_runs conv (read_list h l)).
  split; [apply group_runs_maximal|]. split.
  - by apply get_clean_message_list_distinct_objects.
  - apply merged_runs_no_adjacent_role.
Qed.

Lemma get_clean_message_list_merges_maximal_runs_witness :
  exists runs,
    maximal_runs llama_role_conversions
      (read_list three_object_heap [1; 2; 3]%positive) runs
    /\ returned_messages
         (get_clean_message_list three_object_heap [1; 2; 3]%positive
            llama_role_conversions)
       = Ok (merge_run llama_role_conversions <$> runs)
    /\ no_adjacent (fun a b => role_of a = role_of b)
         (merge_run llama_role_conversions <$> runs).
Proof.
  apply (get_clean_message_list_merges_maximal_runs three_object_heap
           [1; 2; 3]%positive llama_role_conversions).
  - solve_NoDup.
  - solve_allocated.
  - repeat constructor; by vm_compute.
Defined.

(** X2. Whatever the sharing inside the list, a successful call leaves the
    caller's message objects as they were, and every returned reference is
    an object that did not exist before the call. *)
Theorem get_clean_message_list_keeps_caller_messages (h h' : heap) l conv final :
  allocated h l ->
  get_clean_message_list h l conv = Ok (h', final) ->
  read_list h' l = read_list h l
  /\ (forall z, z ∈ dom h -> h' !! z = h !! z)
  /\ Forall (fun y => y ∉ dom h) final.
Proof.
  intros Hl Hrun.
  destruct (get_clean_message_list_frame h h' l conv final Hrun) as [Hsame Hnew].
  split; [|split].
  - apply read_list_agree. intros z Hz. by apply Hsame, Hl.
  - done.
  - by apply Forall_forall.
Qed.

Lemma get_clean_message_list_keeps_caller_messages_witness :
  match get_clean_message_list (single_object_heap "user" "a")
          [1; 1; 1]%positive ∅ with
  | Ok (h', final) =>
      read_list h' [1; 1; 1]%positive
      = read_list (single_object_heap "user" "a") [1; 1; 1]%positive
      /\ (forall z, z ∈ dom (single_object_heap "user" "a") ->
                    h' !! z = single_object_heap "user" "a" !! z)
      /\ Forall (fun y => y ∉ dom (single_object_heap "user" "a")) final
  | Raise _ => False
  end.
Proof.
  destruct (get_clean_message_list (single_object_heap "user" "a")
              [1; 1; 1]%positive ∅) as [[h' final]|e] eqn:Hrun.
  - apply (get_clean_message_list_keeps_caller_messages
             (single_object_heap "user" "a") h' [1; 1; 1]%positive ∅ final);
      [solve_allocated|exact Hrun].
  - vm_compute in Hrun. discriminate Hrun.
Defined.

(** X3. On distinct objects the first message that is not supported
    decides the exception, whatever follows it: the key error when its keys
    are not exactly "role" and "content", the role error naming its role
    otherwise. *)
Theorem get_clean_message_list_first_invalid_message (h : heap) l conv ms1 m ms2 :
  NoDup l -> allocated h l ->
  read_list h l = ms1 ++ m :: ms2 -> Forall supported ms1 -> ~ supported m ->
  get_clean_message_list h l conv
  = Raise (if decide (dom m = {["role"; "content"]})
           then role_error (m !!! "role") else keys_error).
Proof.
  intros Hnd Hl Hms Hsup Hno.
  by rewrite (get_clean_message_list_first_unsupported h l conv ms1 m ms2).
Qed.

Lemma get_clean_message_list_first_invalid_message_witness :
  get_clean_message_list invalid_object_heap [1; 2; 3]%positive
    llama_role_conversions
  = Raise keys_error.
Proof.
  eapply eq_trans.
  - apply (get_clean_message_list_first_invalid_message invalid_object_heap
             [1; 2; 3]%positive llama_role_conversions
             [mk_message "user" "a"] {[ "role" := "user" ]}
             [mk_message "human" "c"]).
    + solve_NoDup.
    + solve_allocated.
    + reflexivity.
    + repeat constructor; by vm_compute.
    + intros [Hk _]. by vm_compute in Hk.
  - by vm_compute.
Defined.

(** X4. On distinct objects the normalizer raises a [ValueError] exactly
    when some message is not supported, and returns exactly when all are. *)
Theorem get_clean_message_list_raises_iff_unsupported (h : heap) l conv :
  NoDup l -> allocated h l ->
  (raises_ValueError (get_clean_message_list h l conv)
   <-> Exists (fun m => ~ supported m) (read_list h l))
  /\ (is_Ok (get_clean_message_list h l conv)
      <-> Forall supported (read_list h l)).
Proof.
  intros Hnd Hl.
  pose proof (get_clean_message_list_distinct_raises_iff h l conv Hnd Hl) as Hiff.
  split.
  - rewrite Hiff. split.
    + intros Hno. by apply (not_Forall_Exists supported) in Hno.
    + apply (Exists_not_Forall supported).
  - split.
    + intros Hok. destruct (decide (Forall supported (read_list h l))) as [|Hno];
        [done|].
      apply Hiff in Hno as [msg Hmsg]. rewrite Hmsg in Hok.
      by destruct Hok.
    + intros Hsup.
      pose proof (get_clean_message_list_distinct_objects h l conv Hnd Hl Hsup)
        as Hret.
      destruct (get_clean_message_list h l conv) as [[h' final]|e]; [|done].
      by eexists.
Qed.

Lemma get_clean_message_list_raises_iff_unsupported_witness :
  raises_ValueError
    (get_clean_message_list invalid_object_heap [1; 2; 3]%positive ∅)
  /\ is_Ok (get_clean_message_list three_object_heap [1; 2; 3]%positive ∅).
Proof.
  split.
  - apply (get_clean_message_list_raises_iff_unsupported invalid_object_heap
             [1; 2; 3]%positive ∅); [solve_NoDup|solve_allocated|].
    apply Exists_cons_tl, Exists_cons_hd. intros [Hk _]. by vm_compute in Hk.
  - apply (get_clean_message_list_raises_iff_unsupported three_object_heap
             [1; 2; 3]%positive ∅); [solve_NoDup|solve_allocated|].
    repeat constructor; by vm_compute.
Defined.

(** X5. With conversions that never map a role to a role they convert
    again, as [llama_role_conversions], and whatever the sharing inside the
    list: every message of a returned list has exactly the two keys, a role
    that is no key of the conversions and that is the conversion of a
    supported role; and no two neighbours have the same role. *)
Theorem get_clean_message_list_roles_under_sharing (h h' : heap) l conv final :
  stable conv ->
  get_clean_message_list h l conv = Ok (h', final) ->
  Forall (fun m => has_both_keys m
                   /\ (role_of m ∉ dom conv)
                   /\ role_of m ∈ (convert_role conv <$> MessageRole_roles))
         (read_list h' final)
  /\ no_adjacent (fun a b => role_of a = role_of b) (read_list h' final).
Proof.
  intros Hst Hrun.
  destruct (get_clean_message_list_settled h h' l conv final Hst Hrun)
    as [Hset Hadj].
  split; [|done]. eapply Forall_impl; [exact Hset|].
  intros m (Hk & Hc & r & Hr & Hrole). split; [done|]. split.
  - by apply not_elem_of_dom.
  - apply list_elem_of_fmap. by exists r.
Qed.

Lemma get_clean_message_list_roles_under_sharing_witness :
  match get_clean_message_list three_object_heap [2; 2; 1; 2; 3; 3]%positive
          llama_role_conversions with
  | Ok (h', final) =>
      Forall (fun m => has_both_keys m
                       /\ (role_of m ∉ dom llama_role_conversions)
                       /\ role_of m ∈ (convert_role llama_role_conversions
                                         <$> MessageRole_roles))
             (read_list h' final)
      /\ no_adjacent (fun a b => role_of a = role_of b) (read_list h' final)
  | Raise _ => False
  end.
Proof.
  destruct (get_clean_message_list three_object_heap
              [2; 2; 1; 2; 3; 3]%positive llama_role_conversions)
    as [[h' final]|e] eqn:Hrun.
  - apply (get_clean_message_list_roles_under_sharing three_object_heap h'
             [2; 2; 1; 2; 3; 3]%positive llama_role_conversions final
             stable_llama_role_conversions Hrun).
  - vm_compute in Hrun. discriminate Hrun.
Defined.

Lemma str_app_nil_r (s : string) : s +:+ "" = s.
Proof. induction s as [|a s IH]; simpl; [done|by rewrite IH]. Qed.

Lemma join_cons sep c cs :
  cs <> [] -> join sep (c :: cs) = c +:+ (sep +:+ join sep cs).
Proof. by destruct cs. Qed.

Lemma join_app sep cs1 cs2 :
  cs1 <> [] -> cs2 <> [] ->
  join sep (cs1 ++ cs2) = join sep cs1 +:+ (sep +:+ join sep cs2).
Proof.
  intros H1 H2. induction cs1 as [|c cs1 IH]; [done|].
  destruct cs1 as [|c1 cs1].
  - simpl. by destruct cs2.
  - change ((c :: c1 :: cs1) ++ cs2) with (c :: ((c1 :: cs1) ++ cs2)).
    rewrite join_cons by done. rewrite IH by done.
    rewrite (join_cons sep c (c1 :: cs1)) by done.
    by rewrite !str_app_assoc.
Qed.

(** Joining the joins of non-empty groups is joining their concatenation. *)
Lemma join_concat sep (css : list (list string)) :
  Forall (fun cs => cs <> []) css ->
  join sep (join sep <$> css) = join sep (concat css).
Proof.
  induction css as [|cs css IH]; [done|].
  intros [Hcs Hcss]%Forall_cons. destruct css as [|cs' css].
  - simpl. by rewrite app_nil_r.
  - change (join sep <$> cs :: cs' :: css)
      with (join sep cs :: (join sep <$> cs' :: css)).
    rewrite join_cons by done. rewrite IH by done.
    change (concat (cs :: cs' :: css)) with (cs ++ concat (cs' :: css)).
    rewrite join_app; [done|done|].
    apply Forall_cons in Hcss as [Hcs' _]. simpl.
    destruct cs'; [done|done].
Qed.

(** X6. On distinct objects no content is lost, duplicated or reordered:
    joining the contents of the returned messages with the separator gives
    the join of the contents of the input. *)
Theorem get_clean_message_list_keeps_content (h : heap) l conv returned :
  NoDup l -> allocated h l ->
  returned_messages (get_clean_message_list h l conv) = Ok returned ->
  join separator (content_of <$> returned)
  = join separator (content_of <$> read_list h l).
Proof.
  intros Hnd Hl Hret.
  assert (Hsup : Forall supported (read_list h l)).
  { destruct (decide (Forall supported (read_list h l))) as [|Hno]; [done|].
    apply (get_clean_message_list_distinct_raises_iff h l conv Hnd Hl)
      in Hno as [msg Hmsg].
    by rewrite Hmsg in Hret. }
  rewrite (get_clean_message_list_distinct_objects h l conv Hnd Hl Hsup) in Hret.
  injection Hret as <-.
  destruct (group_runs_maximal conv (read_list h l)) as [Hconcat Hne _ _].
  unfold merged_runs. rewrite <- list_fmap_compose.
  rewrite (list_fmap_ext (content_of ∘ merge_run conv)
             (join separator ∘ fmap content_of) _)
    by (intros i run _; apply content_of_mk_message).
  rewrite (list_fmap_compose (fmap content_of) (join separator)).
  rewrite join_concat.
  - rewrite <- Hconcat at 2. f_equal.
    generalize (group_runs conv (read_list h l)). intros runs.
    induction runs as [|run runs IH]; [done|].
    rewrite fmap_cons. cbn [concat]. by rewrite fmap_app, IH.
  - rewrite Forall_fmap. eapply Forall_impl; [exact Hne|].
    intros run Hrun. simpl. by destruct run.
Qed.

Lemma get_clean_message_list_keeps_content_witness :
  match returned_messages
          (get_clean_message_list three_object_heap [1; 2; 3]%positive
             llama_role_conversions) with
  | Ok returned =>
      join separator (content_of <$> returned)
      = join separator
          (content_of <$> read_list three_object_heap [1; 2; 3]%positive)
  | Raise _ => False
  end.
Proof.
  destruct (returned_messages
              (get_clean_message_list three_object_heap [1; 2; 3]%positive
                 llama_role_conversions)) as [returned|e] eqn:Hret.
  - apply (get_clean_message_list_keeps_content three_object_heap
             [1; 2; 3]%positive llama_role_conversions returned);
      [solve_NoDup|solve_allocated|exact Hret].
  - vm_compute in Hret. discriminate Hret.
Defined.

Lemma remove_suffix_once_prefix s t :
  exists removed, s = remove_suffix_once s t +:+ removed.
Proof.
  unfold remove_suffix_once. destruct (strip_suffix s t) as [p|] eqn:Hp.
  - apply strip_suffix_Some in Hp. by exists t.
  - exists "". simpl. by rewrite str_app_nil_r.
Qed.

Lemma trim_stop_sequences_prefix stops : forall response,
  exists removed, response = trim_stop_sequences response stops +:+ removed.
Proof.
  unfold trim_stop_sequences.
  induction stops as [|t stops IH]; intros response.
  - exists "". simpl. by rewrite str_app_nil_r.
  - simpl. destruct (IH (remove_suffix_once response t)) as [u Hu].
    destruct (remove_suffix_once_prefix response t) as [v Hv].
    exists (u +:+ v). rewrite <- str_app_assoc, <- Hu. done.
Qed.

(** X7. The trimming of either engine only removes text from the end: the
    response is the trimmed response followed by what was removed. *)
Theorem remove_stop_sequences_prefix response :
  (forall stops, exists removed,
      response = HfApiEngine_remove_stop_sequences response stops +:+ removed)
  /\ (forall stops, exists removed,
        response
        = TransformersEngine_remove_stop_sequences response stops +:+ removed).
Proof.
  split.
  - intros stops. rewrite HfApiEngine_remove_stop_sequences_trim.
    apply trim_stop_sequences_prefix.
  - intros [stops|]; simpl.
    + rewrite TransformersEngine_loop_trim. apply trim_stop_sequences_prefix.
    + exists "". by rewrite str_app_nil_r.
Qed.

Lemma remove_suffix_once_nil s : remove_suffix_once s "" = s.
Proof.
  rewrite <- (str_app_nil_r s) at 1. apply remove_suffix_once_app.
Qed.

(** X8. A response that ends with none of the non-empty stop sequences is
    returned unchanged by both engines; an empty stop sequence removes
    nothing. *)
Theorem remove_stop_sequences_no_suffix response stops :
  (forall t, t ∈ stops -> t <> "" -> ~ ends_with response t) ->
  HfApiEngine_remove_stop_sequences response stops = response
  /\ TransformersEngine_remove_stop_sequences response (Some stops) = response.
Proof.
  intros Hno. simpl. rewrite TransformersEngine_loop_trim.
  rewrite HfApiEngine_remove_stop_sequences_trim.
  assert (trim_stop_sequences response stops = response) as ->; [|done].
  unfold trim_stop_sequences.
  induction stops as [|t stops IH]; [done|]. simpl.
  assert (remove_suffix_once response t = response) as ->.
  { destruct (decide (t = "")) as [->|Ht].
    - apply remove_suffix_once_nil.
    - apply remove_suffix_once_other, Hno; [set_solver|done]. }
  apply IH. intros t' Ht'. apply Hno. set_solver.
Qed.

Lemma remove_stop_sequences_no_suffix_witness :
  HfApiEngine_remove_stop_sequences "Thought: done" ["<end_action>"; ""]
  = "Thought: done"
  /\ TransformersEngine_remove_stop_sequences "Thought: done"
       (Some ["<end_action>"; ""])
     = "Thought: done".
Proof.
  apply (remove_stop_sequences_no_suffix "Thought: done" ["<end_action>"; ""]).
  intros t Ht Hne [p Hp].
  apply elem_of_cons in Ht as [->|Ht].
  - apply strip_suffix_Some in Hp. vm_compute in Hp. discriminate Hp.
  - apply elem_of_cons in Ht as [->|Ht]; [done|by apply elem_of_nil in Ht].
Defined.

Lemma get_clean_message_list_llama (h h' : heap) l final :
  get_clean_message_list h l llama_role_conversions = Ok (h', final) ->
  Forall (fun m => has_both_keys m /\ role_of m ∈ llama_roles)
         (read_list h' final)
  /\ no_adjacent (fun a b => role_of a = role_of b) (read_list h' final).
Proof.
  intros Hrun.
  destruct (get_clean_message_list_settled h h' l llama_role_conversions final
              stable_llama_role_conversions Hrun) as [Hset Hadj].
  split; [|done]. eapply Forall_impl; [exact Hset|]. apply settled_llama.
Qed.

(** X9. A call of [HfApiEngine] that returns has sent one request to the
    client: with the stop sequences, the engine's [max_tokens] and the
    grammar of the call, and with messages that have exactly the two keys, a
    role among "user", "assistant", "system" and "tool-call", and no two
    neighbours of the same role, whatever the sharing in the input. The
    text returned is the trimmed content of the first choice, a prefix of
    that content. *)
Theorem HfApiEngine_call_request {Client Grammar}
    (chat_completion : Client -> chat_request Grammar -> Result (list string))
    (self : HfApiEngine) (h : heap) l stops grammar text :
  HfApiEngine_call chat_completion self h l stops grammar = Ok text ->
  exists request content others,
    chat_completion (client self) request = Ok (content :: others)
    /\ request_stop request = stops
    /\ request_max_tokens request = max_tokens self
    /\ request_response_format request = grammar
    /\ Forall (fun m => has_both_keys m /\ role_of m ∈ llama_roles)
              (request_messages request)
    /\ no_adjacent (fun a b => role_of a = role_of b) (request_messages request)
    /\ text = HfApiEngine_remove_stop_sequences content stops
    /\ exists removed, content = text +:+ removed.
Proof.
  unfold HfApiEngine_call. intros Hcall.
  destruct (get_clean_message_list h l llama_role_conversions)
    as [[h' final]|e] eqn:Hclean; [|done].
  cbn [mbind Result_bind bind] in Hcall.
  destruct (get_clean_message_list_llama h h' l final Hclean) as [Hroles Hadj].
  match type of Hcall with
  | context [chat_completion _ ?r] => set (request := r) in *
  end.
  destruct (chat_completion (client self) request) as [choices|e] eqn:Hresp;
    [|done].
  cbn [mbind Result_bind bind] in Hcall.
  destruct choices as [|content others]; [done|].
  cbn [first_item mbind Result_bind bind] in Hcall. injection Hcall as <-.
  exists request, content, others. repeat split; try done.
  apply remove_stop_sequences_prefix.
Qed.

Lemma HfApiEngine_call_request_witness :
  exists request content others,
    sample_chat_completion (client sample_engine) request
    = Ok (content :: others)
    /\ request_stop request = ["<end_action>"]
    /\ request_max_tokens request = max_tokens sample_engine
    /\ request_response_format request = None
    /\ Forall (fun m => has_both_keys m /\ role_of m ∈ llama_roles)
              (request_messages request)
    /\ no_adjacent (fun a b => role_of a = role_of b) (request_messages request)
    /\ "Thought: done"
       = HfApiEngine_remove_stop_sequences content ["<end_action>"]
    /\ exists removed, content = "Thought: done" +:+ removed.
Proof.
  apply (HfApiEngine_call_request sample_chat_completion sample_engine
           three_object_heap [2; 2; 1; 3]%positive ["<end_action>"] None
           "Thought: done").
  vm_compute. reflexivity.
Defined.

(** X10. A call of [TransformersEngine] that returns has called the
    pipeline with the stop strings of the call, [max_length] 1500 and
    messages normalised as for [HfApiEngine]; the text returned is the
    trimmed content of the last message of the chat generated first. *)
Theorem TransformersEngine_call_request
    (pipeline : pipeline_request -> Result (list (gmap string (list message))))
    (h : heap) l stops text :
  TransformersEngine_call pipeline h l stops = Ok text ->
  exists request first others chat last_message content,
    pipeline request = Ok (first :: others)
    /\ stop_strings request = stops
    /\ max_length request = 1500
    /\ Forall (fun m => has_both_keys m /\ role_of m ∈ llama_roles)
              (pipeline_messages request)
    /\ no_adjacent (fun a b => role_of a = role_of b)
                   (pipeline_messages request)
    /\ first !! "generated_text" = Some chat
    /\ last chat = Some last_message
    /\ last_message !! "content" = Some content
    /\ text = TransformersEngine_remove_stop_sequences content stops
    /\ exists removed, content = text +:+ removed.
Proof.
  unfold TransformersEngine_call. intros Hcall.
  destruct (get_clean_message_list h l llama_role_conversions)
    as [[h' final]|e] eqn:Hclean; [|done].
  cbn [mbind Result_bind bind] in Hcall.
  destruct (get_clean_message_list_llama h h' l final Hclean) as [Hroles Hadj].
  match type of Hcall with
  | context [pipeline ?r] => set (request := r) in *
  end.
  destruct (pipeline request) as [output|e] eqn:Hout; [|done].
  cbn [mbind Result_bind bind] in Hcall.
  destruct output as [|first others]; [done|].
  cbn [first_item mbind Result_bind bind] in Hcall.
  unfold dict_getitem, last_item, getitem in Hcall.
  destruct (first !! "generated_text") as [chat|] eqn:Hchat; [|done].
  cbn [mbind Result_bind bind] in Hcall.
  destruct (last chat) as [last_message|] eqn:Hlast; [|done].
  cbn [mbind Result_bind bind] in Hcall.
  destruct (last_message !! "content") as [content|] eqn:Hcontent; [|done].
  cbn [mbind Result_bind bind] in Hcall. injection Hcall as <-.
  exists request, first, others, chat, last_message, content.
  repeat split; try done.
  apply remove_stop_sequences_prefix.
Qed.

Lemma TransformersEngine_call_request_witness :
  exists request first others chat last_message content,
    sample_pipeline request = Ok (first :: others)
    /\ stop_strings request = Some ["<end_action>"]
    /\ max_length request = 1500
    /\ Forall (fun m => has_both_keys m /\ role_of m ∈ llama_roles)
              (pipeline_messages request)
    /\ no_adjacent (fun a b => role_of a = role_of b)
                   (pipeline_messages request)
    /\ first !! "generated_text" = Some chat
    /\ last chat = Some last_message
    /\ last_message !! "content" = Some content
    /\ "Thought: done"
       = TransformersEngine_remove_stop_sequences content
           (Some ["<end_action>"])
    /\ exists removed, content = "Thought: done" +:+ removed.
Proof.
  apply (TransformersEngine_call_request sample_pipeline three_object_heap
           [2; 2; 1; 3]%positive (Some ["<end_action>"]) "Thought: done").
  vm_compute. reflexivity.
Defined.

(** X11. Both engines validate before they generate: on distinct objects
    with a message that is not supported, either engine raises the
    validation error of the first such message, whatever the client or the
    pipeline would answer. *)
Theorem engines_raise_validation_error {Client Grammar}
    (chat_completion : Client -> chat_request Grammar -> Result (list string))
    (pipeline : pipeline_request -> Result (list (gmap string (list message))))
    (self : HfApiEngine) (h : heap) l ms1 m ms2 stops stops' grammar :
  NoDup l -> allocated h l ->
  read_list h l = ms1 ++ m :: ms2 -> Forall supported ms1 -> ~ supported m ->
  HfApiEngine_call chat_completion self h l stops grammar
  = Raise (validation_error m)
  /\ TransformersEngine_call pipeline h l stops' = Raise (validation_error m)
  /\ raises_ValueError (TransformersEngine_call pipeline h l stops').
Proof.
  intros Hnd Hl Hms Hsup Hno.
  unfold HfApiEngine_call, TransformersEngine_call.
  rewrite (get_clean_message_list_first_unsupported h l llama_role_conversions
             ms1 m ms2) by done.
  cbn [mbind Result_bind bind]. repeat split.
  apply validation_error_ValueError.
Qed.

Lemma engines_raise_validation_error_witness :
  HfApiEngine_call sample_chat_completion sample_engine invalid_object_heap
    [1; 2; 3]%positive [] None
  = Raise (validation_error {[ "role" := "user" ]})
  /\ TransformersEngine_call sample_pipeline invalid_object_heap
       [1; 2; 3]%positive None
     = Raise (validation_error {[ "role" := "user" ]})
  /\ raises_ValueError
       (TransformersEngine_call sample_pipeline invalid_object_heap
          [1; 2; 3]%positive None).
Proof.
  apply (engines_raise_validation_error sample_chat_completion sample_pipeline
           sample_engine invalid_object_heap [1; 2; 3]%positive
           [mk_message "user" "a"] {[ "role" := "user" ]}
           [mk_message "human" "c"] [] None None).
  - solve_NoDup.
  - solve_allocated.
  - reflexivity.
  - repeat constructor; by vm_compute.
  - intros [Hk _]. by vm_compute in Hk.
Defined.

End LlmEngine.

(** ** ONNX export of GPT-Neo ([configuration_gpt_neo.py]) *)

Module GPTNeoOnnx.

Import GPTNeo.

(** An [OrderedDict] with string keys: the items in insertion order.
    Assigning to a key that is present replaces its value in place;
    assigning to a new key appends an item. *)
Fixpoint setitem {V} (d : list (string * V)) (key : string) (v : V)
    : list (string * V) :=
  match d with
  | [] => [(key, v)]
  | (k, v0) :: d' =>
      if decide (k = key) then (k, v) :: d' else (k, v0) :: setitem d' key v
  end.

(** The dynamic axes of one input: axis number and axis name. *)
Definition axes : Type := list (Z * string).

Record GPTNeoOnnxConfig : Type := {
  use_past : bool;
  _config : GPTNeoConfig_args;
}.

(** The keys of the per-layer entries: the formatted strings
    [past_key_values.{i}.key] and [past_key_values.{i}.value] for
    [name = "past_key_values"]. *)
Definition key_name (name : string) (i : Z) : string :=
  name +:+ "." +:+ pretty i +:+ ".key".

Definition value_name (name : string) (i : Z) : string :=
  name +:+ "." +:+ pretty i +:+ ".value".

(** [GPTNeoOnnxConfig.inputs] *)
Definition inputs (self : GPTNeoOnnxConfig) : list (string * axes) :=
  let common_inputs := [("input_ids", [(0, "batch"); (1, "sequence")])] in
  if use_past self then
    let common_inputs :=
      foldl (fun common_inputs i =>
               let common_inputs :=
                 setitem common_inputs (key_name "past_key_values" i)
                   [(0, "batch"); (2, "past_sequence")] in
               setitem common_inputs (value_name "past_key_values" i)
                 [(0, "batch"); (2, "past_sequence")])
            common_inputs (range (num_layers (_config self))) in
    setitem common_inputs "attention_mask"
      [(0, "batch"); (1, "past_sequence + sequence")]
  else
    setitem common_inputs "attention_mask" [(0, "batch"); (1, "sequence")].

(** [enumerate(field)] *)
Definition enumerate {A} (field : list A) : list (Z * A) :=
  zip (range (len field)) field.

(** The body of the loop of [flatten_output_collection_property]. *)
Definition flatten_step {V} (name : string) (flatten_output : gmap string V)
    (item : Z * (V * V)) : gmap string V :=
  let '(idx, t) := item in
  let flatten_output := <[key_name name idx := t.1]> flatten_output in
  <[value_name name idx := t.2]> flatten_output.

(** [GPTNeoOnnxConfig.flatten_output_collection_property]; the elements of
    [field] are the pairs of a key tensor and a value tensor, and the method
    of the base class is a parameter. *)
Definition flatten_output_collection_property {V}
    (super_flatten_output_collection_property :
       string -> list (V * V) -> gmap string V)
    (name : string) (field : list (V * V)) : gmap string V :=
  if bool_decide (name ∈ ["present"; "past_key_values"]) then
    foldl (flatten_step name) ∅ (enumerate field)
  else super_flatten_output_collection_property name field.

(** The two items of [inputs] for the layer [i]. *)
Definition layer_items (i : Z) : list (string * axes) :=
  [(key_name "past_key_values" i, [(0, "batch"); (2, "past_sequence")]);
   (value_name "past_key_values" i, [(0, "batch"); (2, "past_sequence")])].

(** The items of [inputs] for the layers [0 .. n-1], in order. *)
Definition past_items (n : Z) : list (string * axes) :=
  range n ≫= layer_items.

(** The last character of a string. *)
Fixpoint str_last (s : string) : option Ascii.ascii :=
  match s with
  | "" => None
  | String a "" => Some a
  | String _ s' => str_last s'
  end.



(** [l[:stop]] *)
Definition list_slice_to {A} (l : list A) (stop : Z) : list A :=
  take (Z.to_nat (LlmEngine.slice_index (len l) stop)) l.



(** *** Properties of the export helpers *)

#[local] Arguments String.append : simpl nomatch.

Lemma str_last_app s t : t <> "" -> str_last (s +:+ t) = str_last t.
Proof.
  intros Ht. induction s as [|a s IH]; [done|].
  change (String a s +:+ t) with (String a (s +:+ t)).
  cbn [str_last]. rewrite IH. destruct (s +:+ t) eqn:Hst; [|done].
  destruct s; [|done]. by destruct t.
Qed.

Lemma str_app_inv_tail (s1 s2 t : string) : s1 +:+ t = s2 +:+ t -> s1 = s2.
Proof.
  intros Heq. apply (f_equal (fun s => LlmEngine.strip_suffix s t)) in Heq.
  rewrite !LlmEngine.strip_suffix_app in Heq. by injection Heq.
Qed.

Lemma key_name_inj name i j : key_name name i = key_name name j -> i = j.
Proof.
  unfold key_name. intros Heq.
  apply (inj (String.append name)) in Heq.
  apply (inj (String.append ".")) in Heq.
  apply str_app_inv_tail in Heq. by apply (inj pretty) in Heq.
Qed.

Lemma value_name_inj name i j : value_name name i = value_name name j -> i = j.
Proof.
  unfold value_name. intros Heq.
  apply (inj (String.append name)) in Heq.
  apply (inj (String.append ".")) in Heq.
  apply str_app_inv_tail in Heq. by apply (inj pretty) in Heq.
Qed.

Lemma key_name_value_name name i j : key_name name i <> value_name name j.
Proof.
  unfold key_name, value_name. intros Heq.
  apply (inj (String.append name)) in Heq.
  apply (inj (String.append ".")) in Heq.
  apply (f_equal str_last) in Heq.
  by rewrite !str_last_app in Heq.
Qed.

Lemma setitem_fresh {V} (d : list (string * V)) key v :
  key ∉ d.*1 -> setitem d key v = d ++ [(key, v)].
Proof.
  induction d as [|[k v0] d IH]; [done|]. intros Hk.
  cbn [setitem]. rewrite fmap_cons, not_elem_of_cons in Hk.
  destruct Hk as [Hne Hk]. simpl in Hne.
  rewrite decide_False by done. by rewrite IH.
Qed.

Lemma NoDup_range n : NoDup (range n).
Proof.
  unfold range. apply NoDup_fmap; [apply _|apply NoDup_seq].
Qed.

Lemma elem_of_range n i : i ∈ range n <-> 0 <= i < n.
Proof.
  unfold range. rewrite list_elem_of_fmap. split.
  - intros (k & -> & Hk). apply elem_of_seq in Hk. lia.
  - intros Hi. exists (Z.to_nat i). split; [lia|]. apply elem_of_seq. lia.
Qed.

Lemma range_succ n : 0 <= n -> range (n + 1) = range n ++ [n].
Proof.
  intros Hn. unfold range.
  replace (Z.to_nat (n + 1)) with (S (Z.to_nat n)) by lia.
  rewrite seq_S, fmap_app. simpl. by rewrite Z2Nat.id.
Qed.

Ltac name_clash Heq :=
  first [ by apply key_name_value_name in Heq
        | by (symmetry in Heq; apply key_name_value_name in Heq)
        | by (apply key_name_inj in Heq; subst)
        | by (apply value_name_inj in Heq; subst)
        | discriminate Heq ].

Lemma layers_loop_appends (layers : list Z) : forall d : list (string * axes),
  NoDup layers ->
  (forall i, i ∈ layers ->
     (key_name "past_key_values" i ∉ d.*1)
     /\ (value_name "past_key_values" i ∉ d.*1)) ->
  foldl (fun common_inputs i =>
           let common_inputs :=
             setitem common_inputs (key_name "past_key_values" i)
               [(0, "batch"); (2, "past_sequence")] in
           setitem common_inputs (value_name "past_key_values" i)
             [(0, "batch"); (2, "past_sequence")])
        d layers
  = d ++ (layers ≫= layer_items).
Proof.
  induction layers as [|i layers IH]; intros d Hnd Hfresh.
  - simpl. by rewrite app_nil_r.
  - apply NoDup_cons in Hnd as [Hi Hnd].
    destruct (Hfresh i) as [Hk Hv]; [set_solver|].
    cbn [foldl]. cbv zeta. rewrite (setitem_fresh d) by done.
    rewrite setitem_fresh.
    2:{ rewrite fmap_app, elem_of_app. intros [?|Hin]; [done|].
        simpl in Hin. apply list_elem_of_singleton in Hin.
        name_clash Hin. }
    rewrite IH; [|done|].
    + cbn [mbind list_bind]. unfold layer_items at 2.
      by rewrite <- !app_assoc.
    + intros j Hj. assert (j <> i) by (by intros ->).
      destruct (Hfresh j) as [Hkj Hvj]; [set_solver|].
      rewrite !fmap_app, !elem_of_app. simpl.
      rewrite !list_elem_of_singleton. split.
      * intros [[?|Heq]|Heq]; [done|name_clash Heq|name_clash Heq].
      * intros [[?|Heq]|Heq]; [done|name_clash Heq|name_clash Heq].
Qed.

Lemma elem_of_layer_keys (layers : list Z) k :
  k ∈ (layers ≫= layer_items).*1 ->
  exists i, i ∈ layers
            /\ (k = key_name "past_key_values" i
                \/ k = value_name "past_key_values" i).
Proof.
  intros ([k' a] & -> & Hin)%list_elem_of_fmap.
  apply list_elem_of_bind in Hin as (i & Hin & Hi). exists i. split; [done|].
  unfold layer_items in Hin. rewrite !elem_of_cons, elem_of_nil in Hin.
  destruct Hin as [[= -> _]|[[= -> _]|[]]]; [by left|by right].
Qed.

Lemma NoDup_layer_keys (layers : list Z) :
  NoDup layers -> NoDup ((layers ≫= layer_items).*1).
Proof.
  induction layers as [|i layers IH]; intros Hnd; [apply NoDup_nil_2|].
  apply NoDup_cons in Hnd as [Hi Hnd].
  cbn [mbind list_bind]. unfold layer_items at 1.
  cbn [app fmap list_fmap fst]. apply NoDup_cons. split.
  - rewrite not_elem_of_cons. split; [apply key_name_value_name|].
    intros (j & Hj & [Heq|Heq])%elem_of_layer_keys; name_clash Heq.
  - apply NoDup_cons. split; [|by apply IH].
    intros (j & Hj & [Heq|Heq])%elem_of_layer_keys; name_clash Heq.
Qed.

Lemma length_layer_items (layers : list Z) :
  length (layers ≫= layer_items) = (2 * length layers)%nat.
Proof.
  induction layers as [|i layers IH]; [done|].
  cbn [mbind list_bind]. rewrite length_app, IH. simpl. lia.
Qed.

(** X16. The ONNX inputs are ordered as the model takes them: without past,
    [input_ids] and [attention_mask]; with past, [input_ids], then for every
    layer in order its key and its value entry, then [attention_mask] over
    past and present positions. No assignment of the loop overwrites an
    earlier one: the names are pairwise distinct, and there are
    [2 + 2 * num_layers] of them. *)
Theorem inputs_layout (self : GPTNeoOnnxConfig) :
  inputs self
  = (if use_past self then
       ("input_ids", [(0, "batch"); (1, "sequence")])
         :: past_items (num_layers (_config self))
         ++ [("attention_mask", [(0, "batch"); (1, "past_sequence + sequence")])]
     else
       [("input_ids", [(0, "batch"); (1, "sequence")]);
        ("attention_mask", [(0, "batch"); (1, "sequence")])])
  /\ NoDup (inputs self).*1
  /\ len (inputs self)
     = (if use_past self then 2 + 2 * Z.max 0 (num_layers (_config self))
        else 2).
Proof.
  assert (Hlayout :
    inputs self
    = (if use_past self then
         ("input_ids", [(0, "batch"); (1, "sequence")])
           :: past_items (num_layers (_config self))
           ++ [("attention_mask",
                [(0, "batch"); (1, "past_sequence + sequence")])]
       else
         [("input_ids", [(0, "batch"); (1, "sequence")]);
          ("attention_mask", [(0, "batch"); (1, "sequence")])])).
  { unfold inputs. destruct (use_past self); [|done].
    rewrite layers_loop_appends.
    - rewrite setitem_fresh; [done|].
      cbn [app fmap list_fmap fst]. rewrite not_elem_of_cons. split; [done|].
      intros (i & _ & [Heq|Heq])%elem_of_layer_keys; discriminate Heq.
    - apply NoDup_range.
    - intros i _. cbn [fmap list_fmap fst].
      rewrite !list_elem_of_singleton. split; intros Heq; discriminate Heq. }
  rewrite Hlayout. split; [done|].
  destruct (use_past self).
  - split.
    + cbn [fmap list_fmap fst]. apply NoDup_cons. split.
      * rewrite fmap_app, elem_of_app. simpl.
        rewrite list_elem_of_singleton.
        intros [(i & _ & [Heq|Heq])%elem_of_layer_keys|Heq]; discriminate Heq.
      * rewrite fmap_app. apply NoDup_app. split; [|split].
        -- apply NoDup_layer_keys, NoDup_range.
        -- intros k (i & _ & [Heq|Heq])%elem_of_layer_keys Hk;
             simpl in Hk; apply list_elem_of_singleton in Hk; subst;
             discriminate Hk.
        -- simpl. apply NoDup_singleton.
    + unfold len. cbn [length]. rewrite length_app.
      unfold past_items. rewrite length_layer_items, length_range. simpl. lia.
  - split; [|done]. simpl.
    apply NoDup_cons. split; [|apply NoDup_singleton].
    by rewrite list_elem_of_singleton.
Qed.


Lemma enumerate_snoc {A} (field : list A) t :
  enumerate (field ++ [t]) = enumerate field ++ [(len field, t)].
Proof.
  unfold enumerate. rewrite len_app. change (len [t]) with 1.
  rewrite range_succ by (unfold len; lia).
  rewrite zip_with_app; [done|]. rewrite length_range. unfold len. lia.
Qed.

Lemma flatten_loop_snoc {V} name (field : list (V * V)) t :
  foldl (flatten_step name) ∅ (enumerate (field ++ [t]))
  = <[value_name name (len field) := t.2]>
      (<[key_name name (len field) := t.1]>
         (foldl (flatten_step name) ∅ (enumerate field))).
Proof. by rewrite enumerate_snoc, foldl_app. Qed.

Lemma flatten_loop_lookup {V} name (field : list (V * V)) :
  let flatten_output := foldl (flatten_step name) ∅ (enumerate field) in
  (forall (idx : nat) t, field !! idx = Some t ->
     flatten_output !! key_name name (Z.of_nat idx) = Some t.1
     /\ flatten_output !! value_name name (Z.of_nat idx) = Some t.2)
  /\ (forall k, k ∈ dom flatten_output ->
        exists idx, 0 <= idx < len field
                    /\ (k = key_name name idx \/ k = value_name name idx)).
Proof.
  induction field as [|t0 field IH] using rev_ind.
  - split.
    + intros idx t Hidx. by rewrite lookup_nil in Hidx.
    + intros k Hk. unfold enumerate in Hk. simpl in Hk. set_solver.
  - cbv zeta in *. rewrite flatten_loop_snoc. destruct IH as [IHl IHd].
    set (flat := foldl _ ∅ (enumerate field)) in *.
    split.
    + intros idx t Hidx. apply lookup_app_Some in Hidx as [Hidx|[Hge Hidx]].
      * assert (Z.of_nat idx <> len field).
        { apply lookup_lt_Some in Hidx. unfold len. lia. }
        destruct (IHl idx t Hidx) as [Hk Hv].
        rewrite !lookup_insert_ne; [done| | | |];
          intros Heq; name_clash Heq.
      * destruct (idx - length field)%nat as [|n] eqn:Hn; [|by destruct n].
        simpl in Hidx. injection Hidx as ->.
        replace (Z.of_nat idx) with (len field) by (unfold len; lia).
        split.
        -- rewrite lookup_insert_ne by (intros Heq; name_clash Heq).
           apply lookup_insert_eq.
        -- apply lookup_insert_eq.
    + intros k Hk. rewrite !dom_insert in Hk.
      rewrite len_app. change (len [t0]) with 1.
      assert (0 <= len field) by (unfold len; lia).
      apply elem_of_union in Hk as [Hk|Hk];
        [|apply elem_of_union in Hk as [Hk|Hk]].
      * apply elem_of_singleton in Hk. exists (len field). split; [lia|by right].
      * apply elem_of_singleton in Hk. exists (len field). split; [lia|by left].
      * destruct (IHd k Hk) as (idx & Hidx & Hor). exists idx. split; [lia|done].
Qed.

(** X17. For the names "present" and "past_key_values" the flattened
    dictionary holds, for every position [idx] of the field, the first
    component under [name.idx.key] and the second under [name.idx.value],
    and it has no other key: later entries never overwrite earlier ones. *)
Theorem flatten_output_collection_property_entries {V}
    (super_flatten_output_collection_property :
       string -> list (V * V) -> gmap string V)
    (name : string) (field : list (V * V)) :
  name ∈ ["present"; "past_key_values"] ->
  let flatten_output :=
    flatten_output_collection_property
      super_flatten_output_collection_property name field in
  (forall (idx : nat) t, field !! idx = Some t ->
     flatten_output !! key_name name (Z.of_nat idx) = Some t.1
     /\ flatten_output !! value_name name (Z.of_nat idx) = Some t.2)
  /\ (forall k, k ∈ dom flatten_output <->
        exists idx, 0 <= idx < len field
                    /\ (k = key_name name idx \/ k = value_name name idx)).
Proof.
  intros Hname. unfold flatten_output_collection_property.
  rewrite bool_decide_true by done. cbv zeta.
  destruct (flatten_loop_lookup name field) as [Hl Hd]. split; [done|].
  intros k. split; [apply Hd|].
  intros (idx & Hidx & Hor).
  destruct (lookup_lt_is_Some_2 field (Z.to_nat idx)) as [t Ht].
  { unfold len in Hidx. lia. }
  destruct (Hl _ _ Ht) as [Hk Hv]. rewrite Z2Nat.id in Hk, Hv by lia.
  apply elem_of_dom. destruct Hor as [-> | ->]; by eexists.
Qed.

Lemma flatten_output_collection_property_entries_witness :
  let flatten_output :=
    flatten_output_collection_property (fun _ _ => ∅) "present"
      [(10, 11); (20, 21)] in
  (forall (idx : nat) t, [(10, 11); (20, 21)] !! idx = Some t ->
     flatten_output !! key_name "present" (Z.of_nat idx) = Some t.1
     /\ flatten_output !! value_name "present" (Z.of_nat idx) = Some t.2)
  /\ (forall k, k ∈ dom flatten_output <->
        exists idx, 0 <= idx < len [(10, 11); (20, 21)]
                    /\ (k = key_name "present" idx
                        \/ k = value_name "present" idx)).
Proof.
  apply (flatten_output_collection_property_entries (fun _ _ => ∅) "present"
           [(10, 11); (20, 21)]).
  apply list_elem_of_here.
Defined.








End GPTNeoOnnx.

(** ** The object detection pipeline ([pipelines/object_detection.py]) *)

Module ObjectDetection.

(** *** Torch state

    The part of the framework state the pipeline can influence: the
    gradient mode switched by [torch.no_grad()] and the parameter tensors of
    the model. A ghost log records, for every call into the feature
    extractor and the model, the gradient mode the call started in. *)

Record torch_state (Params : Type) : Type := {
  grad_enabled : bool;
  parameters : Params;
}.
Arguments grad_enabled {Params} _.
Arguments parameters {Params} _.

Definition set_grad_enabled {Params} (b : bool) (s : torch_state Params)
    : torch_state Params :=
  {| grad_enabled := b; parameters := parameters s |}.

Inductive callee : Type :=
  | FeatureExtractor
  | Model
  | PostProcess.

Definition call_log : Type := list (callee * bool).

(** Computations that may raise, over the torch state and the ghost log. *)
Definition M (Params A : Type) : Type :=
  torch_state Params * call_log -> Result A * (torch_state Params * call_log).

Definition M_ret {Params A} (a : A) : M Params A := fun w => (Ok a, w).

Definition M_bind {Params A B} (m : M Params A) (k : A -> M Params B)
    : M Params B :=
  fun w =>
    match m w with
    | (Ok a, w') => k a w'
    | (Raise e, w') => (Raise e, w')
    end.

(** A pure computation that may raise. *)
Definition lift {Params A} (r : Result A) : M Params A := fun w => (r, w).

(** A call into a component living outside the pipeline; the gradient mode
    it starts in is logged. *)
Definition external {Params A B} (who : callee)
    (f : A -> torch_state Params -> Result B * torch_state Params) (x : A)
    : M Params B :=
  fun w =>
    let '(s, log) := w in
    let '(r, s') := f x s in
    (r, (s', log ++ [(who, grad_enabled s)])).

(** [with torch.no_grad(): body]: the previous mode is restored on exit,
    also when the body raises. *)
Definition no_grad {Params A} (body : M Params A) : M Params A :=
  fun w =>
    let '(s, log) := w in
    let prev := grad_enabled s in
    let '(r, (s', log')) := body (set_grad_enabled false s, log) in
    (r, (set_grad_enabled prev s', log')).

(** *** Tensors and values *)

(** Boolean-mask indexing [t[keep]] along the first dimension; the mask
    must have as many entries as the tensor has rows. *)
Fixpoint mask_index {A} (t : list A) (keep : list bool) : Result (list A) :=
  match t, keep with
  | [], [] => Ok []
  | x :: t', b :: keep' =>
      rest ← mask_index t' keep';
      Ok (if b then x :: rest else rest)
  | _, _ => Raise IndexError
  end.

(** The star-zip of the three columns of an annotation: one row per
    detection, as long as the shortest column. *)
Definition zip_star3 (c1 c2 c3 : list value) : list (list value) :=
  (fun row => [row.1.1; row.1.2; row.2]) <$> zip (zip c1 c2) c3.

(** [dict(zip(keys, vals))] *)
Definition dict_zip (keys : list string) (vals : list value) : value :=
  VDict (zip keys vals).

(** [{"x": x, "y": y}] *)
Definition corner (x y : Z) : value := VDict [("x", VInt x); ("y", VInt y)].

(** What [post_process] returns for one image: a dictionary with the keys
    "scores", "labels" and "boxes", in this order, holding a float tensor,
    an integer tensor and a tensor of rows of coordinates. *)
Record annotation : Type := {
  scores : list float;
  labels : list Z;
  boxes : list (list float);
}.

Inductive image_ref (Image : Type) : Type :=
  | Str (s : string)
  | Pil (im : Image).
Arguments Str {Image} s.
Arguments Pil {Image} im.

(** The [images] argument: one image or a list of images. *)
Inductive images_arg (Image : Type) : Type :=
  | Single (image : image_ref Image)
  | Batch (images : list (image_ref Image)).
Arguments Single {Image} image.
Arguments Batch {Image} images.

(** The default [threshold]. *)
Definition default_threshold : float := 0.9%float.

(** **** Rows of an annotation *)

(** The candidates of an annotation, row by row: score, label, box. *)
Definition rows (a : annotation) : list (float * Z * list float) :=
  zip (zip (scores a) (labels a)) (boxes a).

(** The rows a threshold keeps. The comparison [scores > threshold] is made
    in the dtype of the score tensor, to which [scalar_to_dtype] converts
    the Python float [threshold]. *)
Definition kept_rows (scalar_to_dtype : float -> float) (threshold : float)
    (a : annotation) : list (float * Z * list float) :=
  filter (fun row : float * Z * list float =>
            PrimFloat.ltb (scalar_to_dtype threshold) row.1.1 = true)
         (rows a).

(** The dictionary of the detection a row is turned into. *)
Definition detection_of (id2label : gmap Z string) (tensor_int : float -> Z)
    (row : float * Z * list float) (d : value) : Prop :=
  exists name xmin ymin xmax ymax,
    id2label !! row.1.2 = Some name
    /\ tensor_int <$> row.2 = [xmin; ymin; xmax; ymax]
    /\ d = VDict [("score", VFloat row.1.1); ("label", VStr name);
                  ("box", VList [corner xmin ymin; corner xmax ymin;
                                corner xmax ymax; corner xmin ymax])].

(** The list of images a call works on. *)
Definition image_list {Image} (images : images_arg Image)
    : list (image_ref Image) :=
  match images with
  | Batch images => images
  | Single image => [image]
  end.

Section Pipeline.
(** The components the pipeline is built from; none of them is code of the
    pipeline. *)
Context {Image Inputs Outputs Params : Type}.
Variable height width : Image -> Z.
(** [Image.open(requests.get(url, stream=True).raw)] *)
Variable open_url : string -> Result Image.
(** [os.path.isfile] and [Image.open] *)
Variable isfile : string -> bool.
Variable open_file : string -> Result Image.
(** [self.feature_extractor(images=..., return_tensors="pt")] *)
Variable feature_extractor :
  list Image -> torch_state Params -> Result Inputs * torch_state Params.
(** [self.model], called on the unpacked [inputs] *)
Variable model :
  Inputs -> torch_state Params -> Result Outputs * torch_state Params.
(** [self.feature_extractor.post_process(outputs, target_sizes)] *)
Variable post_process :
  Outputs * list (Z * Z) -> torch_state Params
  -> Result (list annotation) * torch_state Params.
(** [self.model.config.id2label] *)
Variable id2label : gmap Z string.
(** [Tensor.int()] on one coordinate. *)
Variable tensor_int : float -> Z.
(** The conversion of a Python float that is compared with the score tensor
    to the dtype of this tensor: [scores > threshold] is evaluated in the
    dtype of [scores] (the threshold is rounded to float32 for a float32
    tensor and left as it is for a float64 one). The entries of [scores]
    are the values of the tensor, every one of which binary64 holds
    exactly. *)
Variable scalar_to_dtype : float -> float.

#[local] Instance M_mret : MRet (M Params) := @M_ret Params.
#[local] Instance M_mbind : MBind (M Params) := fun A B k m => M_bind m k.

Definition load_image (image : image_ref Image) : Result Image :=
  match image with
  | Str image =>
      if String.prefix "http://" image || String.prefix "https://" image
      then open_url image
      else if isfile image then open_file image
      else Raise (ValueError
        "Incorrect format used for image. Should be an url linking to an image, a local path, or a PIL image.")
  | Pil image => Ok image
  end.

Definition _get_clockwise_vertices (box : list float) : Result value :=
  match tensor_int <$> box with
  | [xmin; ymin; xmax; ymax] =>
      Ok (VList [corner xmin ymin; corner xmax ymin;
                 corner xmax ymax; corner xmin ymax])
  | _ => Raise (ValueError "not enough values to unpack (expected 4)")
  end.

(** [self.model.config.id2label[label.item()]] *)
Definition label_name (label : Z) : Result value :=
  match id2label !! label with
  | Some name => Ok (VStr name)
  | None => Raise (KeyError (pretty label))
  end.

(** The body of the loop over [annotations]. *)
Definition convert_annotation (threshold : float) (a : annotation)
    : Result value :=
  let keep :=
    (fun s => PrimFloat.ltb (scalar_to_dtype threshold) s) <$> scores a in
  scores' ← mask_index (scores a) keep;
  labels' ← mask_index (labels a) keep;
  boxes' ← mask_index (boxes a) keep;
  let scores_list := VFloat <$> scores' in
  labels_list ← mapM label_name labels';
  boxes_list ← mapM _get_clockwise_vertices boxes';
  let keys := ["score"; "label"; "box"] in
  Ok (VList (dict_zip keys <$> zip_star3 scores_list labels_list boxes_list)).

(** The block under [with torch.no_grad():]. *)
Definition detect (images : list Image) (threshold : float)
    : M Params (list value) :=
  inputs ← external FeatureExtractor feature_extractor images;
  outputs ← external Model model inputs;
  let target_sizes := (fun im => (height im, width im)) <$> images in
  annotations ← external PostProcess post_process (outputs, target_sizes);
  lift (mapM (convert_annotation threshold) annotations).

Definition ObjectDetectionPipeline_call
    (images : images_arg Image) (threshold : float) : M Params value :=
  let is_batched := match images with Batch _ => true | Single _ => false end in
  let images := match images with Batch images => images | Single image => [image] end in
  images ← lift (mapM load_image images);
  annotations ← no_grad (detect images threshold);
  if negb is_batched then
    match annotations with
    | first :: _ => mret first
    | [] => lift (Raise IndexError)
    end
  else mret (VList annotations).

(** **** The claims' vocabulary *)

(** One detection as the pipeline documents it: a dictionary with exactly
    the keys "score", "label" and "box", a score above the threshold, and a
    box given by its four corners, clockwise from the top-left one. *)
Definition is_detection (threshold : float) (d : value) : Prop :=
  exists s name xmin ymin xmax ymax,
    d = VDict [("score", VFloat s); ("label", VStr name);
               ("box", VList [corner xmin ymin; corner xmax ymin;
                             corner xmax ymax; corner xmin ymax])]
    /\ PrimFloat.ltb threshold s = true.

(** [post_process] returns one annotation per target size. *)
Definition one_annotation_per_image : Prop :=
  forall outputs sizes s anns s',
    post_process (outputs, sizes) s = (Ok anns, s') ->
    length anns = length sizes.

(** The annotations [post_process] returns when the three components are
    run on the loaded images, from the state [s]. *)
Definition annotations_of (images : list Image) (s : torch_state Params)
    (annotations : list annotation) : Prop :=
  exists inputs s1 outputs s2 s3,
    feature_extractor images s = (Ok inputs, s1)
    /\ model inputs s1 = (Ok outputs, s2)
    /\ post_process (outputs, (fun im => (height im, width im)) <$> images) s2
       = (Ok annotations, s3).

(** Converting the threshold to the dtype of the scores lets no score at
    or below the threshold pass. It is so when the scores [post_process]
    returns are values of the dtype and the conversion rounds to a
    neighbouring value of the dtype: no score lies strictly between the
    threshold and its conversion. *)
Definition threshold_conversion_sound (threshold : float) : Prop :=
  forall outputs sizes s annotations s' a score,
    post_process (outputs, sizes) s = (Ok annotations, s') ->
    a ∈ annotations -> score ∈ scores a ->
    PrimFloat.ltb (scalar_to_dtype threshold) score = true ->
    PrimFloat.ltb threshold score = true.

(** A component that, entered with gradients disabled, returns with
    gradients disabled and the parameters as they were. *)
Definition inference_safe {A B}
    (f : A -> torch_state Params -> Result B * torch_state Params) : Prop :=
  forall x s,
    grad_enabled s = false ->
    grad_enabled (f x s).2 = false /\ parameters (f x s).2 = parameters s.

(** *** Properties of the pipeline *)

Lemma mapM_Forall2 {A B} (f : A -> Result B) xs ys :
  mapM f xs = Ok ys -> Forall2 (fun x y => f x = Ok y) xs ys.
Proof.
  revert ys. induction xs as [|x xs IH]; intros ys; simpl.
  - intros [= <-]. constructor.
  - destruct (f x) as [y|] eqn:Hy; [|done].
    destruct (mapM f xs) as [ys'|]; [|done].
    intros [= <-]. constructor; [done|by apply IH].
Qed.

Lemma mapM_length {A B} (f : A -> Result B) xs ys :
  mapM f xs = Ok ys -> length ys = length xs.
Proof. intros H%mapM_Forall2. symmetry. by eapply Forall2_length. Qed.

Lemma mapM_Forall {A B} (f : A -> Result B) (P : B -> Prop) xs ys :
  (forall x y, f x = Ok y -> P y) -> mapM f xs = Ok ys -> Forall P ys.
Proof.
  intros Hf H%mapM_Forall2. induction H; constructor; eauto.
Qed.

(** Masking a tensor by a predicate on its own rows is filtering. *)
Lemma mask_index_filter {A} (p : A -> bool) (t t' : list A) :
  mask_index t (p <$> t) = Ok t' -> t' = filter (fun x => p x = true) t.
Proof.
  revert t'. induction t as [|x t IH]; intros t'.
  - by intros [= <-].
  - rewrite fmap_cons. cbn [mask_index].
    destruct (mask_index t (p <$> t)) as [rest|];
      cbn [mbind Result_bind bind]; [|done].
    intros [= <-]. rewrite (IH rest eq_refl).
    rewrite filter_cons. destruct (p x); by case_decide.
Qed.

Lemma _get_clockwise_vertices_corners box v :
  _get_clockwise_vertices box = Ok v ->
  exists xmin ymin xmax ymax,
    tensor_int <$> box = [xmin; ymin; xmax; ymax]
    /\ v = VList [corner xmin ymin; corner xmax ymin;
                  corner xmax ymax; corner xmin ymax].
Proof.
  unfold _get_clockwise_vertices.
  destruct (tensor_int <$> box) as [|xmin [|ymin [|xmax [|ymax [|? ?]]]]];
    try done.
  intros [= <-]. by exists xmin, ymin, xmax, ymax.
Qed.

Lemma label_name_str label v :
  label_name label = Ok v -> exists name, v = VStr name.
Proof.
  unfold label_name. destruct (id2label !! label) as [name|]; [|done].
  intros [= <-]. by exists name.
Qed.

Lemma mask_index_rows (p : float -> bool) (ss : list float) :
  forall (ls : list Z) (bs : list (list float)),
  length ls = length ss -> length bs = length ss ->
  let kept := filter (fun row : float * Z * list float => p row.1.1 = true)
                     (zip (zip ss ls) bs) in
  mask_index ss (p <$> ss) = Ok ((fun row => row.1.1) <$> kept)
  /\ mask_index ls (p <$> ss) = Ok ((fun row => row.1.2) <$> kept)
  /\ mask_index bs (p <$> ss) = Ok ((fun row => row.2) <$> kept).
Proof.
  induction ss as [|s ss IH]; intros [|l ls] [|b bs] Hl Hb; try done.
  injection Hl as Hl. injection Hb as Hb.
  destruct (IH ls bs Hl Hb) as (IHs & IHl & IHb).
  cbv zeta in *. rewrite fmap_cons. cbn [mask_index zip zip_with].
  rewrite IHs, IHl, IHb. cbn [mbind Result_bind bind].
  rewrite filter_cons. simpl. destruct (p s); by case_decide.
Qed.

Lemma mask_index_mismatch {A} (t : list A) : forall keep,
  length t <> length keep -> mask_index t keep = Raise IndexError.
Proof.
  induction t as [|x t IH]; intros [|b keep] Hlen; try done.
  cbn [mask_index]. rewrite IH; [done|]. simpl in Hlen. lia.
Qed.

Lemma zip_star3_rows (kept : list (float * Z * list float)) :
  forall ls bs,
  Forall2 (fun row v => label_name row.1.2 = Ok v) kept ls ->
  Forall2 (fun row v => _get_clockwise_vertices row.2 = Ok v)
          kept bs ->
  Forall2 (detection_of id2label tensor_int) kept
    (dict_zip ["score"; "label"; "box"]
       <$> zip_star3 (VFloat <$> ((fun row => row.1.1) <$> kept)) ls bs).
Proof.
  induction kept as [|row kept IH]; intros ls bs Hls Hbs.
  - apply Forall2_nil_inv_l in Hls as ->. constructor.
  - apply Forall2_cons_inv_l in Hls as (l & ls' & Hl & Hls & ->).
    apply Forall2_cons_inv_l in Hbs as (b & bs' & Hb & Hbs & ->).
    rewrite !fmap_cons. unfold zip_star3. cbn [zip zip_with].
    rewrite fmap_cons. rewrite fmap_cons. constructor.
    + unfold label_name in Hl.
      destruct (id2label !! row.1.2) as [name|] eqn:Hname; [|done].
      injection Hl as <-.
      apply _get_clockwise_vertices_corners in Hb
        as (xmin & ymin & xmax & ymax & Hbox & ->).
      by exists name, xmin, ymin, xmax, ymax.
    + apply (IH ls' bs' Hls Hbs).
Qed.

Lemma convert_annotation_rows threshold a v :
  convert_annotation threshold a = Ok v ->
  exists dicts,
    v = VList dicts
    /\ Forall2 (detection_of id2label tensor_int)
         (kept_rows scalar_to_dtype threshold a) dicts.
Proof.
  unfold convert_annotation, kept_rows.
  set (p := fun s => PrimFloat.ltb (scalar_to_dtype threshold) s).
  cbv zeta.
  destruct (decide (length (labels a) = length (scores a))) as [Hl|Hl].
  2:{ rewrite (mask_index_mismatch (labels a)) by (by rewrite length_fmap).
      by destruct (mask_index (scores a) _). }
  destruct (decide (length (boxes a) = length (scores a))) as [Hb|Hb].
  2:{ rewrite (mask_index_mismatch (boxes a)) by (by rewrite length_fmap).
      destruct (mask_index (scores a) _); [|done].
      by destruct (mask_index (labels a) _). }
  destruct (mask_index_rows p (scores a) (labels a) (boxes a) Hl Hb)
    as (Hs & Hls & Hbs).
  cbv zeta in Hs, Hls, Hbs. fold (rows a) in Hs, Hls, Hbs.
  rewrite Hs, Hls, Hbs. cbn [mbind Result_bind bind].
  destruct (mapM label_name _) as [ls|] eqn:Hlab;
    cbn [mbind Result_bind bind]; [|done].
  destruct (mapM _get_clockwise_vertices _) as [bs|] eqn:Hbox;
    cbn [mbind Result_bind bind]; [|done].
  intros [= <-]. eexists. split; [reflexivity|].
  apply zip_star3_rows.
  - apply mapM_Forall2 in Hlab. by apply Forall2_fmap_l in Hlab.
  - apply mapM_Forall2 in Hbox. by apply Forall2_fmap_l in Hbox.
Qed.

Lemma elem_of_kept_rows threshold a row :
  row ∈ kept_rows scalar_to_dtype threshold a ->
  row.1.1 ∈ scores a
  /\ PrimFloat.ltb (scalar_to_dtype threshold) row.1.1 = true.
Proof.
  unfold kept_rows, rows. intros [Hkeep Hrow]%list_elem_of_filter.
  split; [|done]. destruct row as [[s l] b].
  by apply elem_of_zip_l, elem_of_zip_l in Hrow.
Qed.

Lemma detection_of_is_detection threshold row d :
  PrimFloat.ltb threshold row.1.1 = true ->
  detection_of id2label tensor_int row d -> is_detection threshold d.
Proof.
  intros Hs (name & xmin & ymin & xmax & ymax & _ & _ & ->).
  by exists row.1.1, name, xmin, ymin, xmax, ymax.
Qed.

Lemma converted_annotations threshold annotations anns :
  Forall2 (fun a v => convert_annotation threshold a = Ok v) annotations anns ->
  exists lists,
    anns = VList <$> lists
    /\ Forall2 (fun a dicts =>
                  Forall2 (detection_of id2label tensor_int)
                    (kept_rows scalar_to_dtype threshold a) dicts)
         annotations lists.
Proof.
  induction 1 as [|a v annotations anns Hav _ (lists & -> & Hlists)];
    [by exists []|].
  apply convert_annotation_rows in Hav as (dicts & -> & Hdicts).
  exists (dicts :: lists). split; [done|by constructor].
Qed.

Lemma detections_above_threshold threshold annotations lists :
  (forall a score,
      a ∈ annotations -> score ∈ scores a ->
      PrimFloat.ltb (scalar_to_dtype threshold) score = true ->
      PrimFloat.ltb threshold score = true) ->
  Forall2 (fun a dicts =>
             Forall2 (detection_of id2label tensor_int)
               (kept_rows scalar_to_dtype threshold a) dicts)
    annotations lists ->
  Forall (Forall (is_detection threshold)) lists.
Proof.
  intros Hsound Hall.
  induction Hall as [|a dicts annotations lists Hdicts _ IH]; [constructor|].
  constructor.
  - eapply Forall2_Forall_r; [exact Hdicts|].
    apply Forall_forall. intros row [Hscore Hkeep]%elem_of_kept_rows d.
    apply detection_of_is_detection.
    apply (Hsound a); [by left|done..].
  - apply IH. intros a' score Ha'. apply Hsound. by right.
Qed.

Lemma detect_annotations images threshold s log anns w' :
  detect images threshold (s, log) = (Ok anns, w') ->
  exists annotations lists,
    annotations_of images s annotations
    /\ anns = VList <$> lists
    /\ Forall2 (fun a dicts =>
                  Forall2 (detection_of id2label tensor_int)
                    (kept_rows scalar_to_dtype threshold a) dicts)
         annotations lists.
Proof.
  unfold detect, mbind, M_mbind, M_bind, external, lift.
  destruct (feature_extractor images s) as [[inputs|] s1] eqn:Hfe; [|done].
  destruct (model inputs s1) as [[outputs|] s2] eqn:Hmodel; [|done].
  destruct (post_process _ s2) as [[annotations|] s3] eqn:Hpp; [|done].
  intros [= Hmap <-].
  destruct (converted_annotations threshold annotations anns)
    as (lists & -> & Hlists); [by apply mapM_Forall2|].
  exists annotations, lists. split; [|done].
  by exists inputs, s1, outputs, s2, s3.
Qed.

Lemma detect_frame images threshold s log r s' log' :
  inference_safe feature_extractor -> inference_safe model ->
  inference_safe post_process ->
  grad_enabled s = false ->
  detect images threshold (s, log) = (r, (s', log')) ->
  grad_enabled s' = false /\ parameters s' = parameters s
  /\ exists called,
       log' = log ++ called
       /\ Forall (fun c => c.2 = false) called
       /\ (is_Ok r -> called.*1 = [FeatureExtractor; Model; PostProcess]).
Proof.
  intros Hfe Hmodel Hpp Hs.
  unfold detect, mbind, M_mbind, M_bind, external, lift.
  destruct (Hfe images s Hs) as [Hg1 Hp1].
  destruct (feature_extractor images s) as [[inputs|] s1]; simpl in Hg1, Hp1.
  2:{ intros [= <- <- <-]. repeat split; try done.
      exists [(FeatureExtractor, grad_enabled s)]. repeat split.
      - rewrite Hs. by repeat constructor.
      - by intros [? ?]. }
  destruct (Hmodel inputs s1 Hg1) as [Hg2 Hp2].
  destruct (model inputs s1) as [[outputs|] s2]; simpl in Hg2, Hp2.
  2:{ intros [= <- <- <-]. repeat split; try congruence.
      exists [(FeatureExtractor, grad_enabled s); (Model, grad_enabled s1)].
      repeat split.
      - by rewrite <- app_assoc.
      - rewrite Hs, Hg1. by repeat constructor.
      - by intros [? ?]. }
  set (arg := (outputs, _)).
  destruct (Hpp arg s2 Hg2) as [Hg3 Hp3].
  destruct (post_process arg s2) as [[annotations|] s3]; simpl in Hg3, Hp3;
    intros [= <- <- <-]; (split; [done|]); (split; [congruence|]);
    exists [(FeatureExtractor, grad_enabled s); (Model, grad_enabled s1);
            (PostProcess, grad_enabled s2)];
    (split; [by rewrite <- !app_assoc|]);
    (split; [rewrite Hs, Hg1, Hg2; by repeat constructor|]); try done.
Qed.

(** C5. When the call returns, the images were loaded, the feature
    extractor, the model and [post_process] ran on them, and [post_process]
    answered one annotation per image. Every annotation is turned into the
    list of the detections of its kept rows, in their order: one dictionary
    per row whose score is above the threshold, compared in the dtype of
    the scores, with exactly the keys "score", "label", "box", holding the
    row's score, the name [id2label] gives the row's label and the four
    corners of the row's box, clockwise from the top-left one. For a single
    image the result is the list of its detections, for a list of [n]
    images it is the list of the [n] lists. Every score in the result is
    strictly above the threshold itself when the conversion of the
    threshold to the dtype of the scores moves it past no score. *)
Theorem ObjectDetectionPipeline_call_detections
    (images : images_arg Image) (threshold : float)
    (s : torch_state Params) (log : call_log)
    (w' : torch_state Params * call_log) (result : value) :
  one_annotation_per_image ->
  ObjectDetectionPipeline_call images threshold (s, log) = (Ok result, w') ->
  exists loaded annotations lists,
    mapM load_image (image_list images) = Ok loaded
    /\ annotations_of loaded (set_grad_enabled false s) annotations
    /\ Forall2 (fun a dicts =>
                  Forall2 (detection_of id2label tensor_int)
                    (kept_rows scalar_to_dtype threshold a) dicts)
         annotations lists
    /\ match images with
       | Single _ => exists dicts, lists = [dicts] /\ result = VList dicts
       | Batch images =>
           result = VList (VList <$> lists) /\ length lists = length images
       end
    /\ (threshold_conversion_sound threshold ->
        Forall (Forall (is_detection threshold)) lists).
Proof.
  intros Hone.
  unfold ObjectDetectionPipeline_call, mbind, M_mbind, M_bind, lift, no_grad.
  fold (image_list images).
  destruct (mapM load_image (image_list images)) as [loaded|] eqn:Hload;
    [|done].
  destruct (detect loaded threshold _) as [[anns|] [s1 log1]] eqn:Hdetect.
  2:{ intros [=]. }
  apply detect_annotations in Hdetect
    as (annotations & lists & Hann & -> & Hlists).
  destruct (Hann) as (inputs & s2 & outputs & s3 & s4 & _ & _ & Hpp).
  assert (Hlen : length lists = length (image_list images)).
  { apply Hone in Hpp. rewrite length_fmap in Hpp.
    apply mapM_length in Hload. apply Forall2_length in Hlists.
    congruence. }
  intros Hres. exists loaded, annotations, lists.
  split; [done|]. split; [done|]. split; [done|]. split.
  - destruct images as [image|images]; simpl in Hres, Hlen.
    + destruct lists as [|dicts [|? ?]]; try done.
      injection Hres as <- <-. by exists dicts.
    + by injection Hres as <- <-.
  - intros Hsound. apply (detections_above_threshold _ annotations); [|done].
    intros a score. by apply (Hsound _ _ _ _ _ a score Hpp).
Qed.

(** C7. The pipeline's own code never writes a parameter tensor: the three
    calls into the feature extractor and the model (feature extraction,
    forward pass, post-processing) all start with gradients disabled, inside
    the [torch.no_grad()] block, the gradient mode is restored afterwards,
    and the parameters after the call are the parameters before it, for
    components that leave them alone when run without gradients. *)
Theorem ObjectDetectionPipeline_call_keeps_parameters
    (images : images_arg Image) (threshold : float)
    (s s' : torch_state Params) (log log' : call_log) (r : Result value) :
  inference_safe feature_extractor -> inference_safe model ->
  inference_safe post_process ->
  ObjectDetectionPipeline_call images threshold (s, log) = (r, (s', log')) ->
  parameters s' = parameters s
  /\ grad_enabled s' = grad_enabled s
  /\ exists called,
       log' = log ++ called
       /\ Forall (fun c => c.2 = false) called
       /\ (is_Ok r -> called.*1 = [FeatureExtractor; Model; PostProcess]).
Proof.
  intros Hfe Hmodel Hpp.
  unfold ObjectDetectionPipeline_call, mbind, M_mbind, M_bind, lift, no_grad.
  set (refs := match images with Batch l => l | Single x => [x] end).
  destruct (mapM load_image refs) as [loaded|].
  2:{ intros [= <- <- <-]. repeat split.
      exists []. rewrite app_nil_r. repeat split; [constructor|by intros [? ?]]. }
  destruct (detect loaded threshold _) as [r1 [s1 log1]] eqn:Hdetect.
  apply detect_frame in Hdetect as (_ & Hp & called & -> & Hcalled & Hok);
    try done.
  assert (Hres : forall r2 : Result value,
             (is_Ok r2 -> is_Ok r1) ->
             (r2, (set_grad_enabled (grad_enabled s) s1, log ++ called))
             = (r, (s', log')) ->
             parameters s' = parameters s
             /\ grad_enabled s' = grad_enabled s
             /\ exists called0,
                  log' = log ++ called0
                  /\ Forall (fun c => c.2 = false) called0
                  /\ (is_Ok r -> called0.*1
                                  = [FeatureExtractor; Model; PostProcess])).
  { intros r2 Hr2 [= <- <- <-]. repeat split; [done|].
    exists called. repeat split; [done|]. intros H. by apply Hok, Hr2. }
  destruct r1 as [anns|e].
  - destruct (negb _); [destruct anns|]; apply Hres; intros _; by eexists.
  - apply (Hres (Raise e)). by intros [? ?].
Qed.

End Pipeline.

(** **** A concrete pipeline

    Images are pairs (height, width); the feature extractor passes the
    images on, the model returns their number, and [post_process] answers
    the same two candidate detections for every image. *)

Definition sample_annotation : annotation := {|
  scores := [0.95%float; 0.5%float];
  labels := [17; 18];
  boxes := [[10%float; 20%float; 200%float; 300%float];
            [0%float; 0%float; 1%float; 1%float]];
|}.

Definition sample_id2label : gmap Z string := {[ 17 := "cat"; 18 := "dog" ]}.

Definition sample_tensor_int (f : float) : Z :=
  if PrimFloat.eqb f 10 then 10
  else if PrimFloat.eqb f 20 then 20
  else if PrimFloat.eqb f 200 then 200
  else if PrimFloat.eqb f 300 then 300
  else if PrimFloat.eqb f 1 then 1
  else 0.

Definition sample_open_url (url : string) : Result (Z * Z) :=
  Raise (RuntimeError "no network").

Definition sample_isfile (path : string) : bool := false.

Definition sample_open_file (path : string) : Result (Z * Z) :=
  Raise (RuntimeError "no file").

Definition sample_feature_extractor (images : list (Z * Z))
    (s : torch_state (list float))
    : Result (list (Z * Z)) * torch_state (list float) :=
  (Ok images, s).

Definition sample_model (inputs : list (Z * Z)) (s : torch_state (list float))
    : Result nat * torch_state (list float) :=
  (Ok (length inputs), s).

Definition sample_post_process (arg : nat * list (Z * Z))
    (s : torch_state (list float))
    : Result (list annotation) * torch_state (list float) :=
  (Ok ((fun _ => sample_annotation) <$> arg.2), s).

(** Score tensors of dtype float64: the threshold is compared as it is. *)
Definition sample_scalar_to_dtype (threshold : float) : float := threshold.

Definition sample_call (images : images_arg (Z * Z)) (threshold : float)
    : M (list float) value :=
  ObjectDetectionPipeline_call fst snd sample_open_url sample_isfile
    sample_open_file sample_feature_extractor sample_model
    sample_post_process sample_id2label sample_tensor_int
    sample_scalar_to_dtype images threshold.

Definition sample_state : torch_state (list float) :=
  {| grad_enabled := true; parameters := [0.25%float; 0.5%float] |}.

Definition sample_world : torch_state (list float) * call_log :=
  (sample_state, []).

Definition result_of (out : Result value * (torch_state (list float) * call_log))
    : value :=
  match out.1 with
  | Ok v => v
  | Raise _ => VNone
  end.

Lemma sample_one_annotation_per_image :
  one_annotation_per_image sample_post_process.
Proof.
  intros outputs sizes s anns s' [= <- <-]. simpl. by rewrite length_fmap.
Qed.

(** Compared as it is, the threshold passes no score at or below it. *)
Lemma sample_threshold_conversion_sound threshold :
  threshold_conversion_sound sample_post_process sample_scalar_to_dtype
    threshold.
Proof. by intros outputs sizes s annotations s' a score _ _ _ Hscore. Qed.

Lemma sample_feature_extractor_safe : inference_safe sample_feature_extractor.
Proof. by intros x s Hs. Qed.

Lemma sample_model_safe : inference_safe sample_model.
Proof. by intros x s Hs. Qed.

Lemma sample_post_process_safe : inference_safe sample_post_process.
Proof. by intros x s Hs. Qed.

Lemma ObjectDetectionPipeline_call_detections_witness :
  (exists loaded annotations lists,
      mapM (load_image sample_open_url sample_isfile sample_open_file)
        (image_list (Single (Pil (480, 640)))) = Ok loaded
      /\ annotations_of fst snd sample_feature_extractor sample_model
           sample_post_process loaded (set_grad_enabled false sample_state)
           annotations
      /\ Forall2 (fun a dicts =>
                    Forall2 (detection_of sample_id2label sample_tensor_int)
                      (kept_rows sample_scalar_to_dtype default_threshold a)
                      dicts)
           annotations lists
      /\ (exists dicts,
            lists = [dicts]
            /\ result_of (sample_call (Single (Pil (480, 640)))
                            default_threshold sample_world)
               = VList dicts)
      /\ (threshold_conversion_sound sample_post_process
            sample_scalar_to_dtype default_threshold ->
          Forall (Forall (is_detection default_threshold)) lists))
  /\ (exists loaded annotations lists,
        mapM (load_image sample_open_url sample_isfile sample_open_file)
          (image_list (Batch [Pil (480, 640); Pil (32, 32)])) = Ok loaded
        /\ annotations_of fst snd sample_feature_extractor sample_model
             sample_post_process loaded (set_grad_enabled false sample_state)
             annotations
        /\ Forall2 (fun a dicts =>
                      Forall2 (detection_of sample_id2label sample_tensor_int)
                        (kept_rows sample_scalar_to_dtype default_threshold a)
                        dicts)
             annotations lists
        /\ (result_of (sample_call (Batch [Pil (480, 640); Pil (32, 32)])
                         default_threshold sample_world)
            = VList (VList <$> lists)
            /\ length lists = 2%nat)
        /\ (threshold_conversion_sound sample_post_process
              sample_scalar_to_dtype default_threshold ->
            Forall (Forall (is_detection default_threshold)) lists)).
Proof.
  split.
  - apply (ObjectDetectionPipeline_call_detections fst snd sample_open_url
             sample_isfile sample_open_file sample_feature_extractor
             sample_model sample_post_process sample_id2label
             sample_tensor_int sample_scalar_to_dtype
             (Single (Pil (480, 640))) default_threshold sample_state []
             (sample_call (Single (Pil (480, 640))) default_threshold
                sample_world).2 _ sample_one_annotation_per_image).
    reflexivity.
  - apply (ObjectDetectionPipeline_call_detections fst snd sample_open_url
             sample_isfile sample_open_file sample_feature_extractor
             sample_model sample_post_process sample_id2label
             sample_tensor_int sample_scalar_to_dtype
             (Batch [Pil (480, 640); Pil (32, 32)]) default_threshold
             sample_state []
             (sample_call (Batch [Pil (480, 640); Pil (32, 32)])
                default_threshold sample_world).2 _
             sample_one_annotation_per_image).
    reflexivity.
Defined.

Lemma ObjectDetectionPipeline_call_keeps_parameters_witness :
  let out := sample_call (Batch [Pil (480, 640); Pil (32, 32)])
               default_threshold sample_world in
  parameters out.2.1 = parameters sample_state
  /\ grad_enabled out.2.1 = grad_enabled sample_state
  /\ exists called,
       out.2.2 = [] ++ called
       /\ Forall (fun c => c.2 = false) called
       /\ (is_Ok out.1 -> called.*1 = [FeatureExtractor; Model; PostProcess]).
Proof.
  apply (ObjectDetectionPipeline_call_keeps_parameters fst snd sample_open_url
           sample_isfile sample_open_file sample_feature_extractor
           sample_model sample_post_process sample_id2label sample_tensor_int
           sample_scalar_to_dtype
           (Batch [Pil (480, 640); Pil (32, 32)]) default_threshold
           sample_state _ [] _ _
           sample_feature_extractor_safe sample_model_safe
           sample_post_process_safe).
  reflexivity.
Defined.

Example sample_call_single :
  result_of (sample_call (Single (Pil (480, 640))) default_threshold sample_world)
  = VList [VDict [("score", VFloat 0.95%float); ("label", VStr "cat");
                  ("box", VList [corner 10 20; corner 200 20;
                                 corner 200 300; corner 10 300])]].
Proof. reflexivity. Qed.

(** An annotation whose label column is one entry short. *)
Definition ragged_annotation : annotation := {|
  scores := [0.95%float; 0.5%float];
  labels := [17];
  boxes := [[10%float; 20%float; 200%float; 300%float];
            [0%float; 0%float; 1%float; 1%float]];
|}.

(** The conversion of a Python float to float32, rounding to the nearest
    value, ties to even; a float beyond the float32 range becomes an
    infinity. *)
Definition to_float32 (x : float) : float :=
  match Prim2SF x with
  | S754_finite sign m e =>
      SF2Prim (binary_normalize 24 128 (if sign then Z.neg m else Z.pos m) e
                 sign)
  | _ => x
  end.

(** An annotation whose scores are the float32 values nearest to 0.9 and
    to 0.95. *)
Definition float32_annotation : annotation := {|
  scores := [to_float32 0.9; to_float32 0.95];
  labels := [17; 18];
  boxes := [[10%float; 20%float; 200%float; 300%float];
            [0%float; 0%float; 1%float; 1%float]];
|}.

(** *** Further properties of the pipeline *)

Lemma mapM_total {A B} (f : A -> Result B) (xs : list A) :
  Forall (fun x => is_Ok (f x)) xs ->
  exists ys, mapM f xs = Ok ys /\ Forall2 (fun x y => f x = Ok y) xs ys.
Proof.
  induction 1 as [|x xs [y Hy] _ (ys & Hys & Hall)].
  - exists []. split; [done|constructor].
  - exists (y :: ys). split; [|by constructor].
    simpl. rewrite Hy. cbn [mbind Result_bind bind]. by rewrite Hys.
Qed.

Lemma mapM_first_failure {A B} (f : A -> Result B) l1 x l2 e :
  Forall (fun y => is_Ok (f y)) l1 -> f x = Raise e ->
  mapM f (l1 ++ x :: l2) = Raise e.
Proof.
  intros Hl1 Hx. induction Hl1 as [|y l1 [z Hz] _ IH]; simpl.
  - by rewrite Hx.
  - rewrite Hz. cbn [mbind Result_bind bind]. by rewrite IH.
Qed.

(** X19. When the three columns of an annotation have the same length,
    the rows with a score strictly above the threshold, compared in the
    dtype of the score tensor, are turned, in their order, into one
    dictionary each: the row's score, the name of its label and the four
    corners of its box. Only the labels and boxes of these rows are looked
    at: the other rows may carry labels unknown to [id2label]. *)
Theorem convert_annotation_rows_above_threshold
    (id2label : gmap Z string) (tensor_int : float -> Z)
    (scalar_to_dtype : float -> float) (threshold : float) (a : annotation) :
  length (labels a) = length (scores a) ->
  length (boxes a) = length (scores a) ->
  Forall (fun row : float * Z * list float =>
            is_Some (id2label !! row.1.2) /\ length row.2 = 4%nat)
         (kept_rows scalar_to_dtype threshold a) ->
  exists dicts,
    convert_annotation id2label tensor_int scalar_to_dtype threshold a
    = Ok (VList dicts)
    /\ Forall2 (detection_of id2label tensor_int)
         (kept_rows scalar_to_dtype threshold a) dicts.
Proof.
  intros Hl Hb Hkept. unfold convert_annotation.
  destruct (mask_index_rows
              (fun s => PrimFloat.ltb (scalar_to_dtype threshold) s)
              (scores a) (labels a) (boxes a) Hl Hb) as (Hs & Hls & Hbs).
  cbv zeta in Hs, Hls, Hbs. fold (rows a) in Hs, Hls, Hbs.
  fold (kept_rows scalar_to_dtype threshold a) in Hs, Hls, Hbs.
  set (kept := kept_rows scalar_to_dtype threshold a) in *.
  rewrite Hs, Hls, Hbs. cbn [mbind Result_bind bind].
  destruct (mapM_total (label_name id2label) ((fun row => row.1.2) <$> kept))
    as (ls & -> & Hlabels).
  { rewrite Forall_fmap. eapply Forall_impl; [exact Hkept|].
    intros row [[name Hname] _]. simpl. unfold label_name. rewrite Hname.
    by eexists. }
  cbn [mbind Result_bind bind].
  destruct (mapM_total (_get_clockwise_vertices tensor_int)
              ((fun row => row.2) <$> kept)) as (bs & -> & Hboxes).
  { rewrite Forall_fmap. eapply Forall_impl; [exact Hkept|].
    intros row [_ Hlen]. simpl. unfold _get_clockwise_vertices.
    destruct row.2 as [|x0 [|y0 [|x1 [|y1 [|? ?]]]]]; try done.
    by eexists. }
  cbn [mbind Result_bind bind]. eexists. split; [reflexivity|].
  apply zip_star3_rows.
  - by apply Forall2_fmap_l in Hlabels.
  - by apply Forall2_fmap_l in Hboxes.
Qed.

Lemma convert_annotation_rows_above_threshold_witness :
  exists dicts,
    convert_annotation sample_id2label sample_tensor_int to_float32
      0.89999997 float32_annotation
    = Ok (VList dicts)
    /\ Forall2 (detection_of sample_id2label sample_tensor_int)
         (kept_rows to_float32 0.89999997 float32_annotation) dicts.
Proof.
  apply (convert_annotation_rows_above_threshold sample_id2label
           sample_tensor_int to_float32 0.89999997 float32_annotation);
    [reflexivity|reflexivity|].
  vm_compute kept_rows. apply Forall_singleton. split; [by eexists|done].
Defined.

(** With float32 scores the threshold 0.89999997 is compared as the float32
    value nearest to it, which is the score of the first row: the row is
    dropped, although its score is above the threshold. *)
Example convert_annotation_float32_threshold :
  PrimFloat.ltb 0.89999997 (to_float32 0.9) = true
  /\ PrimFloat.ltb (to_float32 0.89999997) (to_float32 0.9) = false
  /\ convert_annotation sample_id2label sample_tensor_int to_float32
       0.89999997 float32_annotation
     = Ok (VList [VDict [("score", VFloat (to_float32 0.95));
                         ("label", VStr "dog");
                         ("box", VList [corner 0 0; corner 1 0;
                                        corner 1 1; corner 0 1])]]).
Proof. split; [|split]; by vm_compute. Qed.

Lemma mask_index_same_length {A} (t : list A) : forall keep,
  length t = length keep -> is_Ok (mask_index t keep).
Proof.
  induction t as [|x t IH]; intros [|b keep] Hlen; try done.
  - by eexists.
  - cbn [mask_index]. destruct (IH keep) as [rest ->]; [by injection Hlen|].
    cbn [mbind Result_bind bind]. by eexists.
Qed.

(** X20. An annotation whose label or box column differs in length from
    its score column makes the masking raise [IndexError]. *)
Theorem convert_annotation_column_mismatch
    (id2label : gmap Z string) (tensor_int : float -> Z)
    (scalar_to_dtype : float -> float) (threshold : float) (a : annotation) :
  length (labels a) <> length (scores a)
  \/ length (boxes a) <> length (scores a) ->
  convert_annotation id2label tensor_int scalar_to_dtype threshold a
  = Raise IndexError.
Proof.
  intros Hlen. unfold convert_annotation.
  set (keep := (fun s => PrimFloat.ltb (scalar_to_dtype threshold) s)
                 <$> scores a).
  assert (Hkeep : length keep = length (scores a))
    by (unfold keep; apply length_fmap).
  destruct (mask_index_same_length (scores a) keep) as [scores' ->]; [done|].
  cbn [mbind Result_bind bind].
  destruct (decide (length (labels a) = length (scores a))) as [Hl|Hl].
  - destruct Hlen as [|Hb]; [done|].
    destruct (mask_index_same_length (labels a) keep) as [labels' ->];
      [by rewrite Hkeep|].
    cbn [mbind Result_bind bind].
    by rewrite (mask_index_mismatch (boxes a) keep) by (by rewrite Hkeep).
  - by rewrite (mask_index_mismatch (labels a) keep) by (by rewrite Hkeep).
Qed.

Lemma convert_annotation_column_mismatch_witness :
  convert_annotation sample_id2label sample_tensor_int sample_scalar_to_dtype
    0.9 ragged_annotation
  = Raise IndexError.
Proof.
  apply (convert_annotation_column_mismatch sample_id2label sample_tensor_int
           sample_scalar_to_dtype 0.9 ragged_annotation).
  left. vm_compute. discriminate.
Defined.

Section Calls.
Context {Image Inputs Outputs Params : Type}.
Variable height width : Image -> Z.
Variable open_url : string -> Result Image.
Variable isfile : string -> bool.
Variable open_file : string -> Result Image.
Variable feature_extractor :
  list Image -> torch_state Params -> Result Inputs * torch_state Params.
Variable model :
  Inputs -> torch_state Params -> Result Outputs * torch_state Params.
Variable post_process :
  Outputs * list (Z * Z) -> torch_state Params
  -> Result (list annotation) * torch_state Params.
Variable id2label : gmap Z string.
Variable tensor_int : float -> Z.
Variable scalar_to_dtype : float -> float.

(** X21. The images are loaded before anything else: when an image cannot
    be loaded, the call raises the exception of the first such image, with
    the gradient mode untouched and no call into the feature extractor or
    the model. *)
Theorem ObjectDetectionPipeline_call_load_failure
    (images : images_arg Image) (threshold : float)
    (w : torch_state Params * call_log) l1 x l2 e :
  image_list images = l1 ++ x :: l2 ->
  Forall (fun y => is_Ok (load_image open_url isfile open_file y)) l1 ->
  load_image open_url isfile open_file x = Raise e ->
  ObjectDetectionPipeline_call height width open_url isfile open_file
    feature_extractor model post_process id2label tensor_int scalar_to_dtype
    images threshold w
  = (Raise e, w).
Proof.
  intros Hlist Hl1 Hx.
  unfold ObjectDetectionPipeline_call, mbind, M_mbind, M_bind, lift.
  fold (image_list images). rewrite Hlist.
  by rewrite (mapM_first_failure _ l1 x l2 e Hl1 Hx).
Qed.

(** X22. A call on a single image is the call on the list holding this
    image, followed by taking the first annotation; it raises [IndexError]
    when [post_process] returns no annotation. The state and the calls into
    the components are the same. *)
Theorem ObjectDetectionPipeline_call_single_is_first_of_batch
    (image : image_ref Image) (threshold : float)
    (w : torch_state Params * call_log) :
  ObjectDetectionPipeline_call height width open_url isfile open_file
    feature_extractor model post_process id2label tensor_int scalar_to_dtype
    (Single image) threshold w
  = (let '(r, w') :=
       ObjectDetectionPipeline_call height width open_url isfile open_file
         feature_extractor model post_process id2label tensor_int
         scalar_to_dtype (Batch [image]) threshold w in
     (match r with
      | Ok (VList (first :: _)) => Ok first
      | Ok _ => Raise IndexError
      | Raise e => Raise e
      end, w')).
Proof.
  unfold ObjectDetectionPipeline_call, mbind, M_mbind, M_bind, lift. cbn [negb].
  destruct (mapM (load_image open_url isfile open_file) [image])
    as [loaded|e]; [|done].
  match goal with
  | |- context [no_grad ?body w] =>
      destruct (no_grad body w) as [[annotations|e] w']; [|done]
  end.
  by destruct annotations.
Qed.

End Calls.

Lemma ObjectDetectionPipeline_call_load_failure_witness :
  sample_call (Batch [Pil (640, 480); Str "missing.png"; Pil (1, 1)]) 0.9
    sample_world
  = (Raise (ValueError
       "Incorrect format used for image. Should be an url linking to an image, a local path, or a PIL image."),
     sample_world).
Proof.
  apply (ObjectDetectionPipeline_call_load_failure fst snd sample_open_url
           sample_isfile sample_open_file sample_feature_extractor
           sample_model sample_post_process sample_id2label sample_tensor_int
           sample_scalar_to_dtype
           (Batch [Pil (640, 480); Str "missing.png"; Pil (1, 1)]) 0.9
           sample_world [Pil (640, 480)] (Str "missing.png") [Pil (1, 1)]).
  - reflexivity.
  - apply Forall_singleton. by eexists.
  - reflexivity.
Defined.

End ObjectDetection.

(** ** Weight initialisation of Graphormer ([models/graphormer/modeling_graphormer.py]) *)

Module Graphormer.

(** The modules [init_params] distinguishes, with their parameter tensors
    (flattened). *)
Inductive nn_module : Type :=
  | Linear (weight : list float) (bias : option (list float))
  | Embedding (weight : list float)
  | OtherModule (params : list float).

Definition module_parameters (m : nn_module) : list float :=
  match m with
  | Linear weight bias => weight ++ default [] bias
  | Embedding weight => weight
  | OtherModule params => params
  end.

(** The integer-to-float conversion of [math.sqrt]'s argument (exact on the
    layer counts that occur). *)
Fixpoint float_of_positive (p : positive) : float :=
  match p with
  | xH => 1%float
  | xO q => (2 * float_of_positive q)%float
  | xI q => (2 * float_of_positive q + 1)%float
  end.

Definition float_of_Z (z : Z) : float :=
  match z with
  | Z0 => 0%float
  | Zpos p => float_of_positive p
  | Zneg p => (- float_of_positive p)%float
  end.

(** The random generator is a sequence of standard normal draws together
    with the position of the next draw. *)
Definition generator : Type := (nat -> float) * nat.

(** [data.normal_(mean=mean, std=std)]: every entry is overwritten. *)
Definition normal_ (mean std : float) (data : list float) (g : generator)
    : list float * generator :=
  (imap (fun i _ => (mean + std * g.1 (g.2 + i)%nat)%float) data,
   (g.1, (g.2 + length data)%nat)).

(** [data.zero_()] *)
Definition zero_ (data : list float) : list float := (fun _ => 0%float) <$> data.

Definition init_params (module : nn_module) (num_layers : Z) (g : generator)
    : nn_module * generator :=
  let '(module, g) :=
    match module with
    | Linear weight bias =>
        let '(weight, g) :=
          normal_ 0.0 (0.02 / PrimFloat.sqrt (float_of_Z num_layers)) weight g in
        (Linear weight (zero_ <$> bias), g)
    | _ => (module, g)
    end in
  match module with
  | Embedding weight =>
      let '(weight, g) := normal_ 0.0 0.02 weight g in
      (Embedding weight, g)
  | _ => (module, g)
  end.

(** A linear layer with one weight and one bias entry. *)
Definition sample_linear : nn_module := Linear [0.5%float] (Some [0.25%float]).

Definition sample_generator : generator := (fun _ => 1%float, 0%nat).

(** C7 (counterexample). Code of the repository does write parameter
    tensors: [init_params] overwrites those of a linear layer, the bias
    becoming zero whatever the generator draws. *)
Lemma init_params_writes_parameters :
  (forall g, exists weight,
      (init_params sample_linear 12 g).1 = Linear weight (Some [0%float]))
  /\ (module_parameters (init_params sample_linear 12 sample_generator).1
      <> module_parameters sample_linear).
Proof.
  split.
  - intros g. eexists. reflexivity.
  - intros Heq.
    apply (f_equal (fun l => match l with
                             | [_; b] => PrimFloat.eqb b 0.25
                             | _ => true
                             end)) in Heq.
    vm_compute in Heq. discriminate.
Qed.

End Graphormer.

(** ** The image feature extraction pipeline
    ([pipelines/image_feature_extraction.py]) *)

Module ImageFeatureExtraction.

(** A pipeline's three stages. *)
Record Pipeline (Input PreParams ModelInputs ModelOutputs PostParams Output : Type)
    : Type := {
  preprocess : Input -> PreParams -> Result ModelInputs;
  _forward : ModelInputs -> Result ModelOutputs;
  postprocess : ModelOutputs -> PostParams -> Result Output;
}.
Arguments preprocess {_ _ _ _ _ _} _ _ _.
Arguments _forward {_ _ _ _ _ _} _ _.
Arguments postprocess {_ _ _ _ _ _} _ _ _.

(** Modelled from the spec: the base class [Pipeline] of [pipelines/base.py]
    runs one input through the wrapper "chaining pre-processing, model
    inference, and post-processing". *)
Definition run_single {Input PreParams ModelInputs ModelOutputs PostParams Output}
    (p : Pipeline Input PreParams ModelInputs ModelOutputs PostParams Output)
    (input : Input) (pre : PreParams) (post : PostParams) : Result Output :=
  model_inputs ← preprocess p input pre;
  model_outputs ← _forward p model_inputs;
  postprocess p model_outputs post.

(** What [postprocess] returns: a tensor, a nested list, or [None]. *)
Inductive features (Tensor NestedList : Type) : Type :=
  | FTensor (t : Tensor)
  | FList (l : NestedList)
  | FNone.
Arguments FTensor {Tensor NestedList} t.
Arguments FList {Tensor NestedList} l.
Arguments FNone {Tensor NestedList}.

Section ImageFeatureExtractionPipeline.
(** The image type, the tensors of the two frameworks and their
    conversions, the image loader of [image_utils], and the two components
    the pipeline object is built with. *)
Context {ImageInput Image Kwargs ModelInputs Tensor NDArray NestedList : Type}.
Variable load_image : ImageInput -> option float -> Result Image.
Variable image_processor : Image -> string -> Kwargs -> Result ModelInputs.
Variable model : ModelInputs -> Result (list Tensor).
Variable tolist : Tensor -> NestedList.
Variable numpy : Tensor -> NDArray.
Variable ndarray_tolist : NDArray -> NestedList.

(** The attributes of [self] the stages read. *)
Record pipeline_object : Type := { framework : string }.

(** The keyword arguments of [preprocess]. *)
Record preprocess_params : Type := {
  timeout : option float;
  image_processor_kwargs : Kwargs;
}.

Definition ImageFeatureExtractionPipeline_preprocess (self : pipeline_object)
    (image : ImageInput) (params : preprocess_params) : Result ModelInputs :=
  image ← load_image image (timeout params);
  model_inputs ← image_processor image (framework self)
                   (image_processor_kwargs params);
  Ok model_inputs.

Definition ImageFeatureExtractionPipeline_forward (self : pipeline_object)
    (model_inputs : ModelInputs) : Result (list Tensor) :=
  model_outputs ← model model_inputs;
  Ok model_outputs.

(** [model_outputs[0]] *)
Definition first_output (model_outputs : list Tensor) : Result Tensor :=
  match model_outputs with
  | t :: _ => Ok t
  | [] => Raise IndexError
  end.

Definition ImageFeatureExtractionPipeline_postprocess (self : pipeline_object)
    (model_outputs : list Tensor) (return_tensors : bool)
    : Result (features Tensor NestedList) :=
  if return_tensors then
    t ← first_output model_outputs; Ok (FTensor t)
  else if bool_decide (framework self = "pt") then
    t ← first_output model_outputs; Ok (FList (tolist t))
  else if bool_decide (framework self = "tf") then
    t ← first_output model_outputs; Ok (FList (ndarray_tolist (numpy t)))
  else Ok FNone.

(** The class: its three stages. *)
Definition ImageFeatureExtractionPipeline (self : pipeline_object)
    : Pipeline ImageInput preprocess_params ModelInputs (list Tensor) bool
        (features Tensor NestedList) := {|
  preprocess := ImageFeatureExtractionPipeline_preprocess self;
  _forward := ImageFeatureExtractionPipeline_forward self;
  postprocess := ImageFeatureExtractionPipeline_postprocess self;
|}.

(** C4. The pipeline chains its three stages: [preprocess] loads the image
    and then applies the image processor, [_forward] applies the model, and
    [postprocess] returns the first output tensor unchanged when
    [return_tensors] is true and otherwise its nested-list conversion,
    [tolist()] for "pt" and [numpy().tolist()] for "tf". *)
Theorem ImageFeatureExtractionPipeline_stages
    (self : pipeline_object) (image : ImageInput) (params : preprocess_params)
    (model_inputs : ModelInputs) (t : Tensor) (rest : list Tensor)
    (return_tensors : bool) :
  run_single (ImageFeatureExtractionPipeline self) image params return_tensors
    = (loaded ← load_image image (timeout params);
       model_inputs ← image_processor loaded (framework self)
                        (image_processor_kwargs params);
       model_outputs ← model model_inputs;
       ImageFeatureExtractionPipeline_postprocess self model_outputs
         return_tensors)
  /\ preprocess (ImageFeatureExtractionPipeline self) image params
     = (loaded ← load_image image (timeout params);
        image_processor loaded (framework self) (image_processor_kwargs params))
  /\ _forward (ImageFeatureExtractionPipeline self) model_inputs
     = model model_inputs
  /\ postprocess (ImageFeatureExtractionPipeline self) (t :: rest) true
     = Ok (FTensor t)
  /\ postprocess (ImageFeatureExtractionPipeline {| framework := "pt" |})
       (t :: rest) false
     = Ok (FList (tolist t))
  /\ postprocess (ImageFeatureExtractionPipeline {| framework := "tf" |})
       (t :: rest) false
     = Ok (FList (ndarray_tolist (numpy t))).
Proof.
  assert (Hret : forall A (m : Result A), (x ← m; Ok x) = m)
    by (by intros A [a|e]).
  repeat split.
  - unfold run_single. simpl.
    unfold ImageFeatureExtractionPipeline_preprocess,
      ImageFeatureExtractionPipeline_forward.
    destruct (load_image image (timeout params)) as [loaded|]; [|done].
    cbn [mbind Result_bind bind].
    destruct (image_processor loaded _ _) as [inputs|]; [|done].
    cbn [mbind Result_bind bind]. by destruct (model inputs).
  - simpl. unfold ImageFeatureExtractionPipeline_preprocess.
    destruct (load_image image (timeout params)) as [loaded|]; [|done].
    cbn [mbind Result_bind bind]. apply Hret.
  - simpl. apply Hret.
Qed.

End ImageFeatureExtractionPipeline.

End ImageFeatureExtraction.

(** ** The LayoutLM tokenizer ([tokenization_layoutlm.py]) *)

Module LayoutLM.

(** *** The module-level tables *)

Definition VOCAB_FILES_NAMES : gmap string string :=
  {[ "vocab_file" := "vocab.txt" ]}.

Definition PRETRAINED_VOCAB_FILES_MAP : gmap string (gmap string string) :=
  {[ "vocab_file" :=
       {[ "layoutlm-base-uncased" :=
            "https://s3.amazonaws.com/models.huggingface.co/bert/bert-base-uncased-vocab.txt";
          "layoutlm-large-uncased" :=
            "https://s3.amazonaws.com/models.huggingface.co/bert/bert-large-uncased-vocab.txt" ]} ]}.

Definition PRETRAINED_POSITIONAL_EMBEDDINGS_SIZES : gmap string Z :=
  {[ "layoutlm-base-uncased" := 512; "layoutlm-large-uncased" := 512 ]}.

Definition PRETRAINED_INIT_CONFIGURATION : gmap string (gmap string bool) :=
  {[ "layoutlm-base-uncased" := {[ "do_lower_case" := true ]};
     "layoutlm-large-uncased" := {[ "do_lower_case" := true ]} ]}.

(** *** Vocabularies *)

(** Modelled from the spec: a tokenizer vocabulary is a "string-to-integer
    mapping". The tokenizer tests build it from the list of tokens as
    [dict(zip(vocab, range(len(vocab))))], every token numbered by its
    position; the tokenizer modules that load vocabulary files
    ([tokenization_bert.py]) are missing. *)
Definition build_vocab (tokens : list string) : gmap string Z :=
  foldl (fun d kv => <[kv.1 := kv.2]> d) ∅ (zip tokens (range (len tokens))).

(** Modelled from the spec: a tokenizer converts "to/from integer token
    sequences"; the mapping back is the vocabulary with every pair
    swapped. *)
Definition invert_vocab (vocab : gmap string Z) : gmap Z string :=
  list_to_map ((fun kv => (kv.2, kv.1)) <$> map_to_list vocab).

(** The state of a tokenizer object. *)
Record tokenizer : Type := {
  vocab : gmap string Z;
  ids_to_tokens : gmap Z string;
}.

Definition load_tokenizer (tokens : list string) : tokenizer :=
  {| vocab := build_vocab tokens;
     ids_to_tokens := invert_vocab (build_vocab tokens) |}.

(** Modelled from the spec: the two directions of the conversion between a
    token and its integer id. *)
Definition convert_token_to_id (self : tokenizer) (token : string) : option Z :=
  vocab self !! token.

Definition convert_id_to_token (self : tokenizer) (index : Z) : option string :=
  ids_to_tokens self !! index.

(** *** Tokenizer classes *)

(** A tokenizer class: its class-level tables and its methods. *)
Record tokenizer_class : Type := {
  vocab_files_names : gmap string string;
  pretrained_vocab_files_map : gmap string (gmap string string);
  pretrained_init_configuration : gmap string (gmap string bool);
  max_model_input_sizes : gmap string Z;
  tokenize : tokenizer -> string -> list string;
  token_to_id : tokenizer -> string -> option Z;
  id_to_token : tokenizer -> Z -> option string;
}.

(** [convert_tokens_to_ids]: text to an integer token sequence. *)
Definition encode (cls : tokenizer_class) (self : tokenizer) (text : string)
    : list (option Z) :=
  token_to_id cls self <$> tokenize cls self text.

(** [class LayoutLMTokenizer(BertTokenizer)]: the class body assigns the
    four class-level tables and defines no method, so every method is the
    inherited one. *)
Definition LayoutLMTokenizer (BertTokenizer : tokenizer_class) : tokenizer_class := {|
  vocab_files_names := VOCAB_FILES_NAMES;
  pretrained_vocab_files_map := PRETRAINED_VOCAB_FILES_MAP;
  pretrained_init_configuration := PRETRAINED_INIT_CONFIGURATION;
  max_model_input_sizes := PRETRAINED_POSITIONAL_EMBEDDINGS_SIZES;
  tokenize := tokenize BertTokenizer;
  token_to_id := token_to_id BertTokenizer;
  id_to_token := id_to_token BertTokenizer;
|}.

(** Modelled from the spec: [BertTokenizer] of the missing
    [tokenization_bert.py], with the conversions above; its class-level
    tables and its splitting of text into tokens ("punctuation splitting +
    wordpiece") are parameters. *)
Definition BertTokenizer
    (names : gmap string string) (files : gmap string (gmap string string))
    (init : gmap string (gmap string bool)) (sizes : gmap string Z)
    (split : tokenizer -> string -> list string) : tokenizer_class := {|
  vocab_files_names := names;
  pretrained_vocab_files_map := files;
  pretrained_init_configuration := init;
  max_model_input_sizes := sizes;
  tokenize := split;
  token_to_id := convert_token_to_id;
  id_to_token := convert_id_to_token;
|}.

(** *** Properties of vocabularies and of the subclass *)

Lemma build_vocab_snoc tokens token :
  build_vocab (tokens ++ [token]) = <[token := len tokens]> (build_vocab tokens).
Proof.
  unfold build_vocab, range, len. rewrite length_app. simpl.
  rewrite !Nat2Z.id, Nat.add_1_r, seq_S, fmap_app. simpl.
  rewrite zip_with_app by (by rewrite length_fmap, length_seq).
  by rewrite foldl_app.
Qed.

Lemma build_vocab_position tokens token i :
  build_vocab tokens !! token = Some i ->
  0 <= i /\ tokens !! Z.to_nat i = Some token.
Proof.
  revert i. induction tokens as [|t tokens IH] using rev_ind; intros i.
  - unfold build_vocab. simpl. by rewrite lookup_empty.
  - rewrite build_vocab_snoc.
    destruct (decide (t = token)) as [->|Hne].
    + rewrite lookup_insert_eq. intros [= <-]. unfold len. split; [lia|].
      rewrite Nat2Z.id. by apply list_lookup_middle.
    + rewrite lookup_insert_ne by done. intros [Hi Ht]%IH. split; [done|].
      by apply lookup_app_l_Some.
Qed.

Lemma build_vocab_is_Some tokens token :
  token ∈ tokens -> is_Some (build_vocab tokens !! token).
Proof.
  induction tokens as [|t tokens IH] using rev_ind.
  - by intros ?%elem_of_nil.
  - rewrite build_vocab_snoc.
    destruct (decide (t = token)) as [->|Hne].
    + by rewrite lookup_insert_eq.
    + rewrite lookup_insert_ne by done.
      intros [Hin| ->%list_elem_of_singleton]%elem_of_app; [by apply IH|done].
Qed.

Lemma build_vocab_inj tokens t1 t2 i :
  build_vocab tokens !! t1 = Some i -> build_vocab tokens !! t2 = Some i ->
  t1 = t2.
Proof. intros [_ H1]%build_vocab_position [_ H2]%build_vocab_position. congruence. Qed.

Lemma invert_vocab_lookup (vocab : gmap string Z) i token :
  (forall t1 t2 j, vocab !! t1 = Some j -> vocab !! t2 = Some j -> t1 = t2) ->
  invert_vocab vocab !! i = Some token <-> vocab !! token = Some i.
Proof.
  intros Hinj. unfold invert_vocab.
  rewrite <- elem_of_list_to_map.
  - rewrite list_elem_of_fmap. split.
    + intros ([t j] & [= -> ->] & Hin). by apply elem_of_map_to_list.
    + intros Hin. exists (token, i). split; [done|].
      by apply elem_of_map_to_list.
  - rewrite <- list_fmap_compose. apply NoDup_fmap_2_strong.
    + intros [t1 j1] [t2 j2] H1%elem_of_map_to_list H2%elem_of_map_to_list.
      simpl. intros ->. f_equal. by eapply Hinj.
    + apply NoDup_map_to_list.
Qed.

(** C6. For a vocabulary numbering a list of tokens, converting a token of
    the vocabulary to its id and the id back returns the token, and
    converting an id of the vocabulary's range to its token and back returns
    the id; [LayoutLMTokenizer] has the methods of [BertTokenizer], hence
    the same tokenization of every text, and its own four class-level
    tables. *)
Theorem LayoutLMTokenizer_round_trip_and_inheritance
    (names : gmap string string) (files : gmap string (gmap string string))
    (init : gmap string (gmap string bool)) (sizes : gmap string Z)
    (split : tokenizer -> string -> list string)
    (tokens : list string) (token : string) (index : Z) (text : string) :
  let self := load_tokenizer tokens in
  let Bert := BertTokenizer names files init sizes split in
  let LayoutLM := LayoutLMTokenizer Bert in
  (token ∈ tokens ->
   token_to_id LayoutLM self token ≫= id_to_token LayoutLM self = Some token)
  /\ ((exists token', token_to_id LayoutLM self token' = Some index) ->
      id_to_token LayoutLM self index ≫= token_to_id LayoutLM self = Some index)
  /\ tokenize LayoutLM self text = tokenize Bert self text
  /\ encode LayoutLM self text = encode Bert self text
  /\ token_to_id LayoutLM = token_to_id Bert
  /\ id_to_token LayoutLM = id_to_token Bert
  /\ vocab_files_names LayoutLM = VOCAB_FILES_NAMES
  /\ pretrained_vocab_files_map LayoutLM = PRETRAINED_VOCAB_FILES_MAP
  /\ pretrained_init_configuration LayoutLM = PRETRAINED_INIT_CONFIGURATION
  /\ max_model_input_sizes LayoutLM = PRETRAINED_POSITIONAL_EMBEDDINGS_SIZES.
Proof.
  cbn zeta. cbn [LayoutLMTokenizer BertTokenizer token_to_id id_to_token
                 tokenize vocab_files_names pretrained_vocab_files_map
                 pretrained_init_configuration max_model_input_sizes].
  unfold convert_token_to_id, convert_id_to_token. cbn [load_tokenizer vocab ids_to_tokens].
  pose proof (build_vocab_inj tokens) as Hinj.
  split; [|split; [|by repeat split]].
  - intros [i Hi]%build_vocab_is_Some. rewrite Hi. simpl.
    by apply invert_vocab_lookup.
  - intros [token' Htoken]. apply invert_vocab_lookup in Htoken as Hback; [|done].
    rewrite Hback. by simpl.
Qed.

Lemma LayoutLMTokenizer_round_trip_and_inheritance_witness :
  let tokens := ["[PAD]"; "[UNK]"; "hello"; "world"; "hello"] in
  let self := load_tokenizer tokens in
  let Bert := BertTokenizer ∅ ∅ ∅ ∅ (fun _ text => String.words text) in
  let LayoutLM := LayoutLMTokenizer Bert in
  token_to_id LayoutLM self "hello" ≫= id_to_token LayoutLM self = Some "hello"
  /\ id_to_token LayoutLM self 4 ≫= token_to_id LayoutLM self = Some 4.
Proof.
  cbn zeta.
  pose proof (LayoutLMTokenizer_round_trip_and_inheritance ∅ ∅ ∅ ∅
                (fun _ text => String.words text)
                ["[PAD]"; "[UNK]"; "hello"; "world"; "hello"]
                "hello" 4 "hello world") as (H1 & H2 & _).
  split.
  - apply H1. set_solver.
  - apply H2. exists "hello". reflexivity.
Defined.

Example load_tokenizer_duplicate_token :
  convert_token_to_id
    (load_tokenizer ["[PAD]"; "[UNK]"; "hello"; "world"; "hello"]) "hello"
  = Some 4.
Proof. reflexivity. Qed.

End LayoutLM.

(** ** Features for token classification
       ([examples/token-classification/utils_ner.py]) *)

Module TokenClassification.

(** The exceptions of [convert_examples_to_features]. *)
Inductive failure : Type :=
  | Key_error (key : string)
  | Assertion_error.

Inductive outcome (A : Type) : Type :=
  | Done (a : A)
  | Failed (e : failure).
Arguments Done {A} _.
Arguments Failed {A} _.

#[export] Instance outcome_ret : MRet outcome := @Done.
#[export] Instance outcome_bind : MBind outcome := fun A B k m =>
  match m with
  | Done a => k a
  | Failed e => Failed e
  end.

(** [assert b] *)
Definition assert (b : bool) : outcome unit :=
  if b then Done () else Failed Assertion_error.

(** [d[key]] *)
Definition getitem {A} (d : gmap string A) (key : string) : outcome A :=
  match d !! key with
  | Some v => Done v
  | None => Failed (Key_error key)
  end.

(** [[x] * n]: empty for [n <= 0]. *)
Definition repeat_item {A} (x : A) (n : Z) : list A := replicate (Z.to_nat n) x.

(** The list [tokens] holds the word pieces of the tokenizer and, appended
    to them, the integer ids of the special tokens. *)
Inductive token : Type :=
  | Piece (piece : string)
  | SpecialId (id : Z).

(** What the function uses of a [PreTrainedTokenizer]. *)
Record PreTrainedTokenizer : Type := {
  tokenize : string -> list string;
  num_special_tokens_to_add : Z;
  sep_token_id : Z;
  cls_token_id : Z;
  pad_token_id : Z;
  pad_token_type_id : Z;
  padding_side : string;
  convert_tokens_to_ids : list token -> list Z;
  model_input_names : list string;
}.

Record InputFeatures : Type := {
  input_ids : list Z;
  attention_mask : list Z;
  token_type_ids : option (list Z);
  label_ids : list Z;
}.

(** The keyword arguments of [convert_examples_to_features]. *)
Record options : Type := {
  pad_token_label_id : Z;
  sep_token_extra : bool;
  cls_token_segment_id : Z;
  sequence_a_segment_id : Z;
  cls_token_at_end : bool;
  mask_padding_with_zero : bool;
}.

(** Their default values. *)
Definition default_options : options := {|
  pad_token_label_id := -100;
  sep_token_extra := false;
  cls_token_segment_id := 0;
  sequence_a_segment_id := 0;
  cls_token_at_end := false;
  mask_padding_with_zero := true;
|}.

(** [{label: i for i, label in enumerate(labels)}] *)
Definition build_label_map (labels : list string) : gmap string Z :=
  foldl (fun label_map '(i, label) => <[label := i]> label_map)
        ∅ (GPTNeoOnnx.enumerate labels).

(** The loop over [zip(words, labels)], with [tokens] and [label_ids] as
    state. *)
Fixpoint word_loop (tokenizer : PreTrainedTokenizer)
    (label_map : gmap string Z) (opts : options)
    (pairs : list (string * string)) (tokens : list token)
    (label_ids : list Z) : outcome (list token * list Z) :=
  match pairs with
  | [] => Done (tokens, label_ids)
  | (word, label) :: pairs' =>
      let word_tokens := tokenize tokenizer word in
      if bool_decide (len word_tokens > 0) then
        label_id ← getitem label_map label;
        word_loop tokenizer label_map opts pairs'
          (tokens ++ (Piece <$> word_tokens))
          (label_ids ++ [label_id]
             ++ repeat_item (pad_token_label_id opts) (len word_tokens - 1))
      else word_loop tokenizer label_map opts pairs' tokens label_ids
  end.

(** The body of the loop over the dataset, after the word loop: truncation,
    special tokens, padding and the assertions. *)
Definition build_features (tokenizer : PreTrainedTokenizer) (opts : options)
    (max_seq_length : Z) (tokens : list token) (label_ids : list Z)
    : outcome InputFeatures :=
  let pad_left := bool_decide (padding_side tokenizer = "left") in
  let pad_token_segment_id := pad_token_type_id tokenizer in
  let special_tokens_count := num_special_tokens_to_add tokenizer in
  let '(tokens, label_ids) :=
    if bool_decide (len tokens > max_seq_length - special_tokens_count) then
      (GPTNeoOnnx.list_slice_to tokens (max_seq_length - special_tokens_count),
       GPTNeoOnnx.list_slice_to label_ids
         (max_seq_length - special_tokens_count))
    else (tokens, label_ids) in
  let tokens := tokens ++ [SpecialId (sep_token_id tokenizer)] in
  let label_ids := label_ids ++ [pad_token_label_id opts] in
  let '(tokens, label_ids) :=
    if sep_token_extra opts then
      (tokens ++ [SpecialId (sep_token_id tokenizer)],
       label_ids ++ [pad_token_label_id opts])
    else (tokens, label_ids) in
  let segment_ids := repeat_item (sequence_a_segment_id opts) (len tokens) in
  let '(tokens, label_ids, segment_ids) :=
    if cls_token_at_end opts then
      (tokens ++ [SpecialId (cls_token_id tokenizer)],
       label_ids ++ [pad_token_label_id opts],
       segment_ids ++ [cls_token_segment_id opts])
    else
      ([SpecialId (cls_token_id tokenizer)] ++ tokens,
       [pad_token_label_id opts] ++ label_ids,
       [cls_token_segment_id opts] ++ segment_ids) in
  let input_ids := convert_tokens_to_ids tokenizer tokens in
  let input_mask :=
    repeat_item (if mask_padding_with_zero opts then 1 else 0)
                (len input_ids) in
  let padding_length := max_seq_length - len input_ids in
  let '(input_ids, input_mask, segment_ids, label_ids) :=
    if pad_left then
      (repeat_item (pad_token_id tokenizer) padding_length ++ input_ids,
       repeat_item (if mask_padding_with_zero opts then 0 else 1)
                   padding_length ++ input_mask,
       repeat_item pad_token_segment_id padding_length ++ segment_ids,
       repeat_item (pad_token_label_id opts) padding_length ++ label_ids)
    else
      (input_ids ++ repeat_item (pad_token_id tokenizer) padding_length,
       input_mask
         ++ repeat_item (if mask_padding_with_zero opts then 0 else 1)
                        padding_length,
       segment_ids ++ repeat_item pad_token_segment_id padding_length,
       label_ids ++ repeat_item (pad_token_label_id opts) padding_length) in
  _ ← assert (bool_decide (len input_ids = max_seq_length));
  _ ← assert (bool_decide (len input_mask = max_seq_length));
  _ ← assert (bool_decide (len segment_ids = max_seq_length));
  _ ← assert (bool_decide (len label_ids = max_seq_length));
  let segment_ids :=
    if bool_decide ("token_type_ids" ∉ model_input_names tokenizer)
    then None else Some segment_ids in
  Done {| input_ids := input_ids; attention_mask := input_mask;
          token_type_ids := segment_ids; label_ids := label_ids |}.

(** One iteration of the loop over the dataset. *)
Definition convert_example (tokenizer : PreTrainedTokenizer)
    (label_map : gmap string Z) (opts : options) (max_seq_length : Z)
    (source_column target_column : string)
    (example : gmap string (list string)) : outcome InputFeatures :=
  words ← getitem example source_column;
  labels ← getitem example target_column;
  '(tokens, label_ids) ←
    word_loop tokenizer label_map opts (zip words labels) [] [];
  build_features tokenizer opts max_seq_length tokens label_ids.

(** The loop over the dataset, appending to [features]. *)
Fixpoint dataset_loop (tokenizer : PreTrainedTokenizer)
    (label_map : gmap string Z) (opts : options) (max_seq_length : Z)
    (source_column target_column : string)
    (dataset : list (gmap string (list string)))
    (features : list InputFeatures) : outcome (list InputFeatures) :=
  match dataset with
  | [] => Done features
  | example :: dataset' =>
      feature ← convert_example tokenizer label_map opts max_seq_length
                  source_column target_column example;
      dataset_loop tokenizer label_map opts max_seq_length
        source_column target_column dataset' (features ++ [feature])
  end.

(** [TokenClassificationTask.convert_examples_to_features]; the labels of
    [get_labels] and the dataset of [get_dataset(split)] are arguments. *)
Definition convert_examples_to_features
    (source_column target_column : string) (get_labels : list string)
    (dataset : list (gmap string (list string)))
    (tokenizer : PreTrainedTokenizer) (max_seq_length : Z) (opts : options)
    : outcome (list InputFeatures) :=
  let label_map := build_label_map get_labels in
  let features := [] in
  dataset_loop tokenizer label_map opts max_seq_length
    source_column target_column dataset features.

(** The number of special tokens the function adds to an example. *)
Definition specials_added (opts : options) : Z :=
  if sep_token_extra opts then 3 else 2.

(** The four lists of a feature have the length [n]. *)
Definition has_length (n : Z) (f : InputFeatures) : Prop :=
  len (input_ids f) = n /\ len (attention_mask f) = n
  /\ len (label_ids f) = n
  /\ (forall segment_ids, token_type_ids f = Some segment_ids ->
                          len segment_ids = n).

(** The word pieces of an example. *)
Definition pieces (tokenizer : PreTrainedTokenizer)
    (pairs : list (string * string)) : list string :=
  pairs.*1 ≫= tokenize tokenizer.

(** A tokenizer splitting words into characters, with two special tokens
    announced. *)
Definition sample_tokenizer : PreTrainedTokenizer := {|
  tokenize := fun word =>
    (fun c => String c "") <$> String.list_ascii_of_string word;
  num_special_tokens_to_add := 2;
  sep_token_id := 102;
  cls_token_id := 101;
  pad_token_id := 0;
  pad_token_type_id := 0;
  padding_side := "right";
  convert_tokens_to_ids := fmap (fun t => match t with
                                          | Piece _ => 7
                                          | SpecialId id => id
                                          end);
  model_input_names := ["input_ids"; "token_type_ids"; "attention_mask"];
|}.

Definition sample_dataset : list (gmap string (list string)) :=
  [ {[ "tokens" := ["EU"; "rejects"]; "ner_tags" := ["B-ORG"; "O"] ]};
    {[ "tokens" := ["Peter"]; "ner_tags" := ["B-PER"] ]} ].

(** *** Properties of the features *)

Lemma len_nil {A} : len (@nil A) = 0.
Proof. done. Qed.

Lemma len_cons {A} (x : A) l : len (x :: l) = 1 + len l.
Proof. unfold len. simpl. lia. Qed.

Lemma len_repeat_item {A} (x : A) n : len (repeat_item x n) = Z.max 0 n.
Proof. unfold len, repeat_item. rewrite length_replicate. lia. Qed.

Lemma len_list_slice_to {A} (l : list A) k :
  0 <= k <= len l -> len (GPTNeoOnnx.list_slice_to l k) = k.
Proof.
  intros Hk. unfold GPTNeoOnnx.list_slice_to, LlmEngine.slice_index.
  replace (k <? 0) with false by (symmetry; apply Z.ltb_ge; lia).
  rewrite Z.min_l by lia. unfold len in *. rewrite length_take. lia.
Qed.

Lemma pieces_cons tokenizer word label pairs :
  pieces tokenizer ((word, label) :: pairs)
  = tokenize tokenizer word ++ pieces tokenizer pairs.
Proof. done. Qed.

Lemma word_loop_done tokenizer label_map opts pairs :
  forall tokens label_ids,
  Forall (fun pair => is_Some (label_map !! pair.2)) pairs ->
  len tokens = len label_ids ->
  exists label_ids',
    word_loop tokenizer label_map opts pairs tokens label_ids
    = Done (tokens ++ (Piece <$> pieces tokenizer pairs), label_ids')
    /\ len (tokens ++ (Piece <$> pieces tokenizer pairs)) = len label_ids'.
Proof.
  induction pairs as [|[word label] pairs IH]; intros tokens label_ids Hk Hlen.
  - exists label_ids. unfold pieces. simpl. by rewrite app_nil_r.
  - apply Forall_cons in Hk as [[label_id Hlabel] Hk]. simpl in Hlabel.
    cbn [word_loop]. rewrite pieces_cons, fmap_app, app_assoc.
    case_bool_decide as Hpos.
    + unfold getitem. rewrite Hlabel. cbn [mbind outcome_bind].
      apply IH; [done|].
      rewrite !GPTNeo.len_app, len_cons, len_nil, len_repeat_item.
      unfold len at 2. rewrite length_fmap. fold (len (tokenize tokenizer word)).
      lia.
    + assert (tokenize tokenizer word = []) as ->.
      { destruct (tokenize tokenizer word); [done|]. rewrite len_cons in Hpos.
        unfold len in Hpos. lia. }
      simpl. rewrite app_nil_r. by apply IH.
Qed.

Ltac len_simpl Hids :=
  repeat first
    [ rewrite GPTNeo.len_app | rewrite len_repeat_item | rewrite len_cons
    | rewrite Hids ];
  unfold len in *; cbn [length].

Lemma build_features_done tokenizer opts max_seq_length tokens label_ids :
  (forall ts, len (convert_tokens_to_ids tokenizer ts) = len ts) ->
  len tokens = len label_ids ->
  specials_added opts <= num_special_tokens_to_add tokenizer <= max_seq_length ->
  exists feature,
    build_features tokenizer opts max_seq_length tokens label_ids = Done feature
    /\ has_length max_seq_length feature.
Proof.
  intros Hids Hlen Hk. unfold build_features. cbv zeta.
  set (k := max_seq_length - num_special_tokens_to_add tokenizer).
  assert (exists tokens1 label_ids1,
            (if bool_decide (len tokens > k)
             then (GPTNeoOnnx.list_slice_to tokens k,
                   GPTNeoOnnx.list_slice_to label_ids k)
             else (tokens, label_ids)) = (tokens1, label_ids1)
            /\ len tokens1 = len label_ids1 /\ len tokens1 <= k)
    as (tokens1 & label_ids1 & -> & Hlen1 & Hle).
  { case_bool_decide.
    - eexists _, _. split; [done|].
      rewrite !len_list_slice_to by (unfold k; lia). lia.
    - eexists _, _. split; [done|]. lia. }
  unfold specials_added in Hk. unfold k in Hle. clear k.
  unfold has_length.
  destruct (sep_token_extra opts), (cls_token_at_end opts),
    (bool_decide (padding_side tokenizer = "left")); simpl in Hk; cbn [app];
    (rewrite !(bool_decide_true (len _ = max_seq_length))
       by (len_simpl Hids; lia));
    cbn [assert mbind outcome_bind]; eexists; (split; [reflexivity|]);
    cbv beta iota delta [input_ids attention_mask token_type_ids
                         TokenClassification.label_ids];
    (repeat split; [len_simpl Hids; lia..|]);
    intros segment_ids; case_bool_decide; try done;
    intros [= <-]; len_simpl Hids; lia.
Qed.

Lemma build_features_assertion_error tokenizer opts max_seq_length
    tokens label_ids :
  (forall ts, len (convert_tokens_to_ids tokenizer ts) = len ts) ->
  len tokens = len label_ids ->
  num_special_tokens_to_add tokenizer < specials_added opts ->
  0 <= max_seq_length - num_special_tokens_to_add tokenizer <= len tokens ->
  build_features tokenizer opts max_seq_length tokens label_ids
  = Failed Assertion_error.
Proof.
  intros Hids Hlen Hk Hlong. unfold build_features. cbv zeta.
  set (k := max_seq_length - num_special_tokens_to_add tokenizer) in *.
  assert (exists tokens1 label_ids1,
            (if bool_decide (len tokens > k)
             then (GPTNeoOnnx.list_slice_to tokens k,
                   GPTNeoOnnx.list_slice_to label_ids k)
             else (tokens, label_ids)) = (tokens1, label_ids1)
            /\ len tokens1 = k /\ len label_ids1 = k)
    as (tokens1 & label_ids1 & -> & Hlen1 & Hlen2).
  { case_bool_decide.
    - eexists _, _. split; [done|]. by rewrite !len_list_slice_to by lia.
    - eexists _, _. split; [done|]. lia. }
  unfold specials_added in Hk. unfold k in Hlen1, Hlen2. clear Hlong k.
  destruct (sep_token_extra opts), (cls_token_at_end opts),
    (bool_decide (padding_side tokenizer = "left")); simpl in Hk; cbn [app];
    (rewrite !(bool_decide_false (len _ = max_seq_length))
       by (len_simpl Hids; lia));
    reflexivity.
Qed.

Lemma build_label_map_is_Some labels label :
  label ∈ labels -> is_Some (build_label_map labels !! label).
Proof.
  unfold build_label_map.
  induction labels as [|l labels IH] using rev_ind; [by intros ?%elem_of_nil|].
  rewrite GPTNeoOnnx.enumerate_snoc, foldl_app. simpl.
  intros [Hin|Hin%list_elem_of_singleton]%elem_of_app.
  - destruct (decide (l = label)) as [->|Hne].
    + rewrite lookup_insert_eq. by eexists.
    + rewrite lookup_insert_ne by done. by apply IH.
  - subst. rewrite lookup_insert_eq. by eexists.
Qed.

Lemma dataset_loop_done tokenizer label_map opts max_seq_length
    source_column target_column dataset :
  forall features,
  (forall ts, len (convert_tokens_to_ids tokenizer ts) = len ts) ->
  specials_added opts <= num_special_tokens_to_add tokenizer <= max_seq_length ->
  Forall (fun example =>
            exists words labels,
              example !! source_column = Some words
              /\ example !! target_column = Some labels
              /\ Forall (fun label => is_Some (label_map !! label)) labels)
         dataset ->
  exists added,
    dataset_loop tokenizer label_map opts max_seq_length
      source_column target_column dataset features
    = Done (features ++ added)
    /\ length added = length dataset
    /\ Forall (has_length max_seq_length) added.
Proof.
  induction dataset as [|example dataset IH]; intros features Hids Hk Hall.
  - exists []. by rewrite app_nil_r.
  - apply Forall_cons in Hall as [(words & labels & Hw & Hl & Hknown) Hall].
    cbn [dataset_loop]. unfold convert_example, getitem. rewrite Hw, Hl.
    cbn [mbind outcome_bind].
    destruct (word_loop_done tokenizer label_map opts (zip words labels) [] [])
      as (label_ids & -> & Hlen); [|done|].
    { apply Forall_forall. intros [word label] Hin. simpl.
      rewrite Forall_forall in Hknown. apply Hknown.
      apply elem_of_zip_r in Hin. done. }
    cbn [mbind outcome_bind].
    destruct (build_features_done tokenizer opts max_seq_length _ label_ids
                Hids Hlen Hk) as (feature & -> & Hfeature).
    cbn [mbind outcome_bind].
    destruct (IH (features ++ [feature]) Hids Hk Hall)
      as (added & -> & Hadded & Hlens).
    exists (feature :: added). rewrite <- app_assoc. simpl.
    repeat split; [by rewrite Hadded|by constructor].
Qed.

(** X24. When the tokenizer maps tokens to as many ids, announces at least
    the special tokens the function adds (two, or three with
    [sep_token_extra]) and no more than [max_seq_length], and every example
    has both columns and known labels: the function returns one feature per
    example, and the ids, the attention mask, the label ids and, when kept,
    the segment ids of every feature have exactly [max_seq_length] entries.
    None of the four assertions fails. *)
Theorem convert_examples_to_features_lengths
    (source_column target_column : string) (get_labels : list string)
    (dataset : list (gmap string (list string)))
    (tokenizer : PreTrainedTokenizer) (max_seq_length : Z) (opts : options) :
  (forall ts, len (convert_tokens_to_ids tokenizer ts) = len ts) ->
  specials_added opts <= num_special_tokens_to_add tokenizer <= max_seq_length ->
  Forall (fun example =>
            exists words labels,
              example !! source_column = Some words
              /\ example !! target_column = Some labels
              /\ Forall (fun label => label ∈ get_labels) labels)
         dataset ->
  exists features,
    convert_examples_to_features source_column target_column get_labels
      dataset tokenizer max_seq_length opts
    = Done features
    /\ length features = length dataset
    /\ Forall (has_length max_seq_length) features.
Proof.
  intros Hids Hk Hall. unfold convert_examples_to_features. cbv zeta.
  destruct (dataset_loop_done tokenizer (build_label_map get_labels) opts
              max_seq_length source_column target_column dataset [] Hids Hk)
    as (features & Hrun & Hlen & Hlens).
  - eapply Forall_impl; [exact Hall|].
    intros example (words & labels & Hw & Hl & Hknown).
    exists words, labels. repeat split; [done..|].
    eapply Forall_impl; [exact Hknown|]. apply build_label_map_is_Some.
  - by exists features.
Qed.

Lemma convert_examples_to_features_lengths_witness :
  exists features,
    convert_examples_to_features "tokens" "ner_tags" ["O"; "B-ORG"; "B-PER"]
      sample_dataset sample_tokenizer 16 default_options
    = Done features
    /\ length features = length sample_dataset
    /\ Forall (has_length 16) features.
Proof.
  apply (convert_examples_to_features_lengths "tokens" "ner_tags"
           ["O"; "B-ORG"; "B-PER"] sample_dataset sample_tokenizer 16
           default_options).
  - intros ts. unfold len. simpl. by rewrite length_fmap.
  - unfold specials_added. simpl. lia.
  - repeat constructor.
    + exists ["EU"; "rejects"], ["B-ORG"; "O"].
      repeat split; [reflexivity..|]. repeat constructor; set_solver.
    + exists ["Peter"], ["B-PER"].
      repeat split; [reflexivity..|]. repeat constructor; set_solver.
Defined.

(** X25. When the tokenizer announces fewer special tokens than the
    function adds, as with [sep_token_extra] and a tokenizer announcing two,
    an example with at least [max_seq_length - num_special_tokens_to_add]
    word pieces is truncated too little: the first assertion fails. *)
Theorem convert_example_assertion_error
    (tokenizer : PreTrainedTokenizer) (label_map : gmap string Z)
    (opts : options) (max_seq_length : Z)
    (source_column target_column : string)
    (example : gmap string (list string)) words labels :
  (forall ts, len (convert_tokens_to_ids tokenizer ts) = len ts) ->
  example !! source_column = Some words ->
  example !! target_column = Some labels ->
  Forall (fun label => is_Some (label_map !! label)) labels ->
  num_special_tokens_to_add tokenizer < specials_added opts ->
  0 <= max_seq_length - num_special_tokens_to_add tokenizer
    <= len (pieces tokenizer (zip words labels)) ->
  convert_example tokenizer label_map opts max_seq_length
    source_column target_column example
  = Failed Assertion_error.
Proof.
  intros Hids Hw Hl Hknown Hk Hlong.
  unfold convert_example, getitem. rewrite Hw, Hl. cbn [mbind outcome_bind].
  destruct (word_loop_done tokenizer label_map opts (zip words labels) [] [])
    as (label_ids & -> & Hlen); [|done|].
  { apply Forall_forall. intros [word label] Hin. simpl.
    rewrite Forall_forall in Hknown. apply Hknown.
    by apply elem_of_zip_r in Hin. }
  cbn [mbind outcome_bind].
  apply build_features_assertion_error; [done..|].
  simpl. unfold len in *. rewrite length_fmap. done.
Qed.

Lemma convert_example_assertion_error_witness :
  convert_example sample_tokenizer
    (build_label_map ["O"; "B-ORG"; "B-PER"])
    {| pad_token_label_id := -100; sep_token_extra := true;
       cls_token_segment_id := 0; sequence_a_segment_id := 0;
       cls_token_at_end := false; mask_padding_with_zero := true |}
    8 "tokens" "ner_tags"
    {[ "tokens" := ["EU"; "rejects"]; "ner_tags" := ["B-ORG"; "O"] ]}
  = Failed Assertion_error.
Proof.
  apply (convert_example_assertion_error sample_tokenizer
           (build_label_map ["O"; "B-ORG"; "B-PER"]) _ 8 "tokens" "ner_tags"
           _ ["EU"; "rejects"] ["B-ORG"; "O"]).
  - intros ts. unfold len. simpl. by rewrite length_fmap.
  - reflexivity.
  - reflexivity.
  - repeat constructor; by eexists.
  - unfold specials_added. simpl. lia.
  - vm_compute. split; discriminate.
Defined.

End TokenClassification.
